(** * King and rook against king: search, evaluators and move choosers

    A shallow embedding of [ajedrez_mejorado.py].  The file holds four
    programs: three function-style engines (black rook, white rook, black
    rook again) and the class [ChessEndgameSolver].  The fourth program
    (lines 912-1238) repeats the evaluator, the probe, the search and the
    chooser of the first; it is embedded once, as [BlackRook].  The chess
    rules come from the python-chess library; they are taken here as an
    interface ([Rules]) and, for concrete runs, as a small engine for kings
    and rooks ([KR]). *)

From Stdlib Require Import ZArith QArith Qabs Qminmax Lia Lqa List Bool String.
From Stdlib Require Import Sorted.
From stdpp Require Import base option list gmap strings pretty.
Import ListNotations.
Local Open Scope Z_scope.

(** ** Scores

    Python scores are ints, or the floats [float('inf')] and
    [float('-inf')].  Every finite score of the program is an integer (the
    class evaluator adds halves only in pairs), so a score is an integer or
    one of the two infinities. *)

Inductive Score : Type :=
| NegInf
| Fin (z : Z)
| PosInf.

Module Sc.

Definition leb (x y : Score) : bool :=
  match x, y with
  | NegInf, _ => true
  | _, PosInf => true
  | Fin a, Fin b => a <=? b
  | _, _ => false
  end.

(** [x < y] of Python. *)
Definition ltb (x y : Score) : bool := negb (leb y x).

(** [x > y] of Python. *)
Definition gtb (x y : Score) : bool := ltb y x.

(** [max(x, y)] of Python: [x] unless [y] is strictly larger. *)
Definition max (x y : Score) : Score := if gtb y x then y else x.

(** [min(x, y)] of Python: [x] unless [y] is strictly smaller. *)
Definition min (x y : Score) : Score := if ltb y x then y else x.

Definition le (x y : Score) : Prop := leb x y = true.
Definition lt (x y : Score) : Prop := ltb x y = true.

Definition is_fin (x : Score) : Prop := exists z, x = Fin z.

End Sc.

(** What a search with window [(alpha, beta)] may return for a node whose
    value is [v]: the value itself when it lies inside the window, and
    otherwise a bound on the same side of the window as the value. *)
Definition within (alpha beta v r : Score) : Prop :=
  (Sc.le v alpha -> Sc.le v r /\ Sc.le r alpha)
  /\ (Sc.lt alpha v -> Sc.lt v beta -> r = v)
  /\ (Sc.le beta v -> Sc.le beta r /\ Sc.le r v).

(** The mate sentinel of the function-style programs, and the scores it
    dominates. *)
Definition MATE : Z := 10000.

Definition below_sentinel (s : Score) : Prop :=
  exists z, s = Fin z /\ Z.abs z < MATE.

(** Case analysis over every score in sight, then linear arithmetic. *)
Ltac score_cases :=
  repeat match goal with
         | x : Score |- _ => destruct x
         end.

Ltac score_norm :=
  unfold within, Sc.le, Sc.lt, Sc.max, Sc.min, Sc.gtb, Sc.ltb, Sc.leb in *;
  simpl in *;
  repeat match goal with
         | H : context [Z.leb ?a ?b] |- _ => destruct (Z.leb_spec a b); simpl in H
         | |- context [Z.leb ?a ?b] => destruct (Z.leb_spec a b); simpl
         end.

Ltac score_finish :=
  first [ congruence | lia | f_equal; lia ].

Ltac score_solve :=
  intros; score_cases; score_norm;
  try solve [ score_finish | intuition score_finish ].

(** ** Squares, colours and pieces of python-chess *)

(** [chess.Square]: an int, a1 = 0, b1 = 1, ..., h8 = 63. *)
Definition Square := Z.

(** [chess.SQUARES = list(range(64))]. *)
Definition SQUARES : list Square := map Z.of_nat (seq 0 64).

(** [chess.square_file(sq) = sq & 7]. *)
Definition square_file (sq : Square) : Z := Z.land sq 7.

(** [chess.square_rank(sq) = sq >> 3]. *)
Definition square_rank (sq : Square) : Z := Z.shiftr sq 3.

(** [chess.square_distance(a, b)]: the number of king steps. *)
Definition square_distance (a b : Square) : Z :=
  Z.max (Z.abs (square_file a - square_file b))
        (Z.abs (square_rank a - square_rank b)).

(** [chess.WHITE = True], [chess.BLACK = False]. *)
Inductive Color : Type := WHITE | BLACK.

Definition color_eqb (a b : Color) : bool :=
  match a, b with
  | WHITE, WHITE | BLACK, BLACK => true
  | _, _ => false
  end.

Definition other (c : Color) : Color :=
  match c with WHITE => BLACK | BLACK => WHITE end.

Inductive PieceType : Type := PAWN | KNIGHT | BISHOP | ROOK | QUEEN | KING.

Definition piece_type_eqb (a b : PieceType) : bool :=
  match a, b with
  | PAWN, PAWN | KNIGHT, KNIGHT | BISHOP, BISHOP
  | ROOK, ROOK | QUEEN, QUEEN | KING, KING => true
  | _, _ => false
  end.

(** [chess.Piece]. *)
Record Piece : Type := mkPiece { piece_type : PieceType; color : Color }.

Definition piece_eqb (p q : Piece) : bool :=
  piece_type_eqb (piece_type p) (piece_type q) && color_eqb (color p) (color q).

(** ** The rules engine as the program sees it

    The methods of [chess.Board] and [chess.Move] that the four programs
    call.  [Board] is the whole state of a board object, move stack
    included.  [king] is total: every position of these programs holds both
    kings, and the rules never let one be captured. *)

Record Rules : Type := {
  Board : Type;
  Move : Type;
  turn : Board -> Color;
  legal_moves : Board -> list Move;
  push : Board -> Move -> Board;
  pop : Board -> Board;
  is_checkmate : Board -> bool;
  is_stalemate : Board -> bool;
  is_insufficient_material : Board -> bool;
  can_claim_draw : Board -> bool;
  is_game_over : Board -> bool;
  is_check : Board -> bool;
  is_capture : Board -> Move -> bool;
  is_castling : Board -> Move -> bool;
  piece_at : Board -> Square -> option Piece;
  king : Board -> Color -> Square;
  to_square : Move -> Square;
  fen : Board -> string
}.

Arguments turn {_} _.
Arguments legal_moves {_} _.
Arguments push {_} _ _.
Arguments pop {_} _.
Arguments is_checkmate {_} _.
Arguments is_stalemate {_} _.
Arguments is_insufficient_material {_} _.
Arguments can_claim_draw {_} _.
Arguments is_game_over {_} _.
Arguments is_check {_} _.
Arguments is_capture {_} _ _.
Arguments is_castling {_} _ _.
Arguments piece_at {_} _ _.
Arguments king {_} _ _.
Arguments to_square {_} _.
Arguments fen {_} _.

(** What the program relies on from the engine. *)

(** [board.pop()] undoes [board.push(move)] exactly. *)
Definition pop_restores (R : Rules) : Prop :=
  forall (b : Board R) (m : Move R), pop (push b m) = b.

(** A position with no legal move is checkmate or stalemate, hence over. *)
Definition live_has_moves (R : Rules) : Prop :=
  forall b : Board R, is_game_over b = false -> legal_moves b <> [].

(** Both kings of a position stand on one of the 64 squares. *)
Definition kings_on_board {R : Rules} (b : Board R) : Prop :=
  forall c : Color, 0 <= king b c < 64.

(** [board.pieces(piece_type, color)], listed as [list(...)] lists a
    [SquareSet]: by ascending square. *)
Definition pieces {R : Rules} (b : Board R) (pt : PieceType) (c : Color)
  : list Square :=
  List.filter (fun sq => match piece_at b sq with
                         | Some p => piece_eqb p (mkPiece pt c)
                         | None => false
                         end) SQUARES.

(** The scan [for square in chess.SQUARES: ... break] of the function-style
    evaluators: the first square holding a rook of colour [c]. *)
Definition find_rook {R : Rules} (b : Board R) (c : Color) : option Square :=
  head (pieces b ROOK c).

(** Python truth of an optional square: [None] and square 0 are both false. *)
Definition py_not (o : option Square) : bool :=
  match o with
  | None => true
  | Some sq => sq =? 0
  end.

(** ** Mutable state

    A search mutates the board object it is handed; the choosers also read
    the wall clock, and the class keeps a table and a counter.  Stateful
    code is written in a state monad. *)

Definition St (S A : Type) : Type := S -> A * S.

Definition ret {S A} (a : A) : St S A := fun s => (a, s).

Definition bind {S A B} (c : St S A) (k : A -> St S B) : St S B :=
  fun s => let (a, s') := c s in k a s'.

Declare Scope search_scope.
Delimit Scope search_scope with search.
Notation "'let*' x ':=' c 'in' k" := (bind c (fun x => k))
  (at level 10, x pattern, c at level 100, k at level 200) : search_scope.
Notation "c ';;' k" := (bind c (fun _ => k))
  (at level 100, k at level 200, right associativity) : search_scope.
Local Open Scope search_scope.

(** [for x in xs: ...] collecting one result per element. *)
Fixpoint for_each {S A B} (f : A -> St S B) (xs : list A) : St S (list B) :=
  match xs with
  | [] => ret []
  | x :: rest =>
      let* y := f x in
      let* ys := for_each f rest in
      ret (y :: ys)
  end.

(** The world of a function-style engine: the board object and the number
    of readings of [time.time()] made so far; the k-th reading is given by
    an oracle. *)
Record World (R : Rules) : Type := mkWorld {
  w_board : Board R;
  w_ticks : nat
}.

Arguments mkWorld {_} _ _.
Arguments w_board {_} _.
Arguments w_ticks {_} _.

Definition M (R : Rules) (A : Type) : Type := St (World R) A.

(** Reading the board object. *)
Definition the_board {R} : M R (Board R) := fun w => (w_board w, w).

(** [board.push(move)]. *)
Definition board_push {R} (m : Move R) : M R unit :=
  fun w => (tt, mkWorld (push (w_board w) m) (w_ticks w)).

(** [board.pop()]. *)
Definition board_pop {R} : M R unit :=
  fun w => (tt, mkWorld (pop (w_board w)) (w_ticks w)).

(** [time.time()], in seconds. *)
Definition time_time {R} (clock : nat -> Q) : M R Q :=
  fun w => (clock (w_ticks w), mkWorld (w_board w) (S (w_ticks w))).

(** A computation that returns [f] of the board and leaves the world as it
    found it. *)
Definition pure_on {R A} (c : M R A) (f : Board R -> A) : Prop :=
  forall w, c w = (f (w_board w), w).

(** The result and the final board of a computation depend on the board
    alone. *)
Definition reads_only_board {R A} (c : M R A) : Prop :=
  forall w1 w2, w_board w1 = w_board w2 ->
    fst (c w1) = fst (c w2) /\ w_board (snd (c w1)) = w_board (snd (c w2)).

(** A computation does not read the clock. *)
Definition leaves_clock {R A} (c : M R A) : Prop :=
  forall w, w_ticks (snd (c w)) = w_ticks w.

(** ** [list.sort(key=..., reverse=...)]

    Python's sort is stable, and stays stable under [reverse=True]: moves
    with equal keys keep their order either way. *)

Definition Qltb (x y : Q) : bool := negb (Qle_bool y x).

(** [goes_before reverse k k']: an element of key [k'] already placed must
    stay in front of a new element of key [k]. *)
Definition stays_in_front (reverse : bool) (k k' : Q) : bool :=
  if reverse then Qltb k k' else Qltb k' k.

Fixpoint insert_keyed {A} (reverse : bool) (x : Q * A) (l : list (Q * A))
  : list (Q * A) :=
  match l with
  | [] => [x]
  | y :: rest =>
      if stays_in_front reverse (fst x) (fst y)
      then y :: insert_keyed reverse x rest
      else x :: l
  end.

Definition sort_keyed {A} (reverse : bool) (l : list (Q * A)) : list A :=
  map snd (fold_right (insert_keyed reverse) [] l).

(** The order the sort is asked for: keys going down when [reverse],
    going up otherwise. *)
Definition in_order {A} (reverse : bool) (x y : Q * A) : Prop :=
  if reverse then (fst y <= fst x)%Q else (fst x <= fst y)%Q.

(** ** The alpha-beta search

    [minimax] is written three times in the file (lines 164, 750 and 1056),
    the same text each time; the copies differ in the [evaluate_board] and
    [evaluate_move] of their own program. *)

Module Search.
Section Search.

Context {R : Rules}.
Variable evaluate_board : Board R -> Score.
Variable evaluate_move : Move R -> M R Q.

Definition Result : Type := Score * option (Move R).

(** The loop of the maximizing branch, from [max_eval], [best_move] and
  [alpha] as they stand; [recur] is the search one ply deeper. *)
Fixpoint max_loop (recur : Score -> Score -> bool -> M R Result)
  (moves : list (Move R)) (max_eval : Score) (best_move : option (Move R))
  (alpha beta : Score) : M R Result :=
match moves with
| [] => ret (max_eval, best_move)
| move :: rest =>
    board_push move ;;
    let* (eval, _) := recur alpha beta false in
    board_pop ;;
    let '(max_eval, best_move) :=
      if Sc.gtb eval max_eval then (eval, Some move)
      else (max_eval, best_move) in
    let alpha := Sc.max alpha eval in
    if Sc.leb beta alpha then ret (max_eval, best_move)
    else max_loop recur rest max_eval best_move alpha beta
end.

(** The loop of the minimizing branch. *)
Fixpoint min_loop (recur : Score -> Score -> bool -> M R Result)
  (moves : list (Move R)) (min_eval : Score) (best_move : option (Move R))
  (alpha beta : Score) : M R Result :=
match moves with
| [] => ret (min_eval, best_move)
| move :: rest =>
    board_push move ;;
    let* (eval, _) := recur alpha beta true in
    board_pop ;;
    let '(min_eval, best_move) :=
      if Sc.ltb eval min_eval then (eval, Some move)
      else (min_eval, best_move) in
    let beta := Sc.min beta eval in
    if Sc.leb beta alpha then ret (min_eval, best_move)
    else min_loop recur rest min_eval best_move alpha beta
end.

(** [legal_moves = list(board.legal_moves)] followed by
  [legal_moves.sort(key=lambda move: evaluate_move(board, move),
  reverse=maximizing_player)]: the keys are computed once per move, in
  list order, then the list is sorted. *)
Definition sorted_moves (maximizing_player : bool) : M R (list (Move R)) :=
let* board := the_board in
let* keyed := for_each (fun move => let* k := evaluate_move move in
                                    ret (k, move)) (legal_moves board) in
ret (sort_keyed maximizing_player keyed).

(** [minimax(board, depth, alpha, beta, maximizing_player)].  The callers
  pass depths from 1 upwards and the recursion counts down to 0, so the
  depth is a natural number. *)
Fixpoint minimax (depth : nat) (alpha beta : Score) (maximizing_player : bool)
: M R Result :=
let* board := the_board in
match depth with
| O => ret (evaluate_board board, None)
| S depth' =>
    if is_game_over board then ret (evaluate_board board, None)
    else
      let* legal_moves := sorted_moves maximizing_player in
      if maximizing_player
      then max_loop (minimax depth') legal_moves NegInf None alpha beta
      else min_loop (minimax depth') legal_moves PosInf None alpha beta
end.

(** *** The search as a function of the position

  When [pop] undoes [push], a call leaves the board as it found it,
  and the search is a function of the position alone: each recursive
  call works on the position after its move.  [move_key] is the key
  [evaluate_move] computes. *)

Variable move_key : Board R -> Move R -> Q.

Definition ordered_moves (board : Board R) (maximizing_player : bool)
: list (Move R) :=
sort_keyed maximizing_player
           (map (fun move => (move_key board move, move))
                (legal_moves board)).

Fixpoint ab_max_loop (recur : Board R -> Score -> Score -> bool -> Result)
  (board : Board R) (moves : list (Move R)) (max_eval : Score)
  (best_move : option (Move R)) (alpha beta : Score) : Result :=
match moves with
| [] => (max_eval, best_move)
| move :: rest =>
    let eval := fst (recur (push board move) alpha beta false) in
    let '(max_eval, best_move) :=
      if Sc.gtb eval max_eval then (eval, Some move)
      else (max_eval, best_move) in
    let alpha := Sc.max alpha eval in
    if Sc.leb beta alpha then (max_eval, best_move)
    else ab_max_loop recur board rest max_eval best_move alpha beta
end.

Fixpoint ab_min_loop (recur : Board R -> Score -> Score -> bool -> Result)
  (board : Board R) (moves : list (Move R)) (min_eval : Score)
  (best_move : option (Move R)) (alpha beta : Score) : Result :=
match moves with
| [] => (min_eval, best_move)
| move :: rest =>
    let eval := fst (recur (push board move) alpha beta true) in
    let '(min_eval, best_move) :=
      if Sc.ltb eval min_eval then (eval, Some move)
      else (min_eval, best_move) in
    let beta := Sc.min beta eval in
    if Sc.leb beta alpha then (min_eval, best_move)
    else ab_min_loop recur board rest min_eval best_move alpha beta
end.

Fixpoint alphabeta (depth : nat) (board : Board R) (alpha beta : Score)
  (maximizing_player : bool) : Result :=
match depth with
| O => (evaluate_board board, None)
| S depth' =>
    if is_game_over board then (evaluate_board board, None)
    else
      let moves := ordered_moves board maximizing_player in
      if maximizing_player
      then ab_max_loop (alphabeta depth') board moves NegInf None alpha beta
      else ab_min_loop (alphabeta depth') board moves PosInf None alpha beta
end.

(** *** Minimax without pruning, after the specification

  The same tree, the same evaluator at the leaves, the same order of
  the moves; every child is searched, and a move replaces the best one
  only when its value is strictly better, so that ties keep the move
  found first. *)

Fixpoint unpruned_max_loop (value : Board R -> Score) (board : Board R)
  (moves : list (Move R)) (best : Score) (best_move : option (Move R))
: Result :=
match moves with
| [] => (best, best_move)
| move :: rest =>
    let v := value (push board move) in
    if Sc.gtb v best
    then unpruned_max_loop value board rest v (Some move)
    else unpruned_max_loop value board rest best best_move
end.

Fixpoint unpruned_min_loop (value : Board R -> Score) (board : Board R)
  (moves : list (Move R)) (best : Score) (best_move : option (Move R))
: Result :=
match moves with
| [] => (best, best_move)
| move :: rest =>
    let v := value (push board move) in
    if Sc.ltb v best
    then unpruned_min_loop value board rest v (Some move)
    else unpruned_min_loop value board rest best best_move
end.

Fixpoint unpruned_minimax (depth : nat) (board : Board R)
  (maximizing_player : bool) : Result :=
match depth with
| O => (evaluate_board board, None)
| S depth' =>
    if is_game_over board then (evaluate_board board, None)
    else
      let moves := ordered_moves board maximizing_player in
      if maximizing_player
      then unpruned_max_loop
             (fun b => fst (unpruned_minimax depth' b false))
             board moves NegInf None
      else unpruned_min_loop
             (fun b => fst (unpruned_minimax depth' b true))
             board moves PosInf None
end.

End Search.
End Search.

(** ** First program (lines 1-313): the engine plays Black, king and rook *)

Module BlackRook.
Section BlackRook.

Context {R : Rules}.

(** [evaluate_board(board)], lines 90-138. *)
Definition evaluate_board (board : Board R) : Score :=
if is_checkmate board
then (if color_eqb (turn board) WHITE then Fin 10000 else Fin (-10000))
else if is_stalemate board then Fin 0
else
  let white_king := king board WHITE in
  let black_king := king board BLACK in
  let black_rook := find_rook board BLACK in
  match black_rook with
  | None => Fin 0
  | Some rook_sq =>
      if py_not black_rook then Fin 0
      else
        let evaluation := 0 in
        let dist_rook :=
          Z.max (Z.abs (square_file white_king - square_file rook_sq))
                (Z.abs (square_rank white_king - square_rank rook_sq)) in
        let dist_kings :=
          Z.max (Z.abs (square_file white_king - square_file black_king))
                (Z.abs (square_rank white_king - square_rank black_king)) in
        let evaluation :=
          if is_check board
          then evaluation + (if color_eqb (turn board) BLACK then 50 else -30)
          else evaluation in
        let edge_dist :=
          Z.min (Z.min (square_file white_king) (7 - square_file white_king))
                (Z.min (square_rank white_king) (7 - square_rank white_king)) in
        let evaluation := evaluation + (4 - edge_dist) * 15 in
        let evaluation :=
          if (square_file white_king =? square_file rook_sq)
             || (square_rank white_king =? square_rank rook_sq)
          then (if 1 <? dist_rook then evaluation + 20 + 10
                else evaluation + 20)
          else evaluation in
        let evaluation :=
          if dist_kings <=? 1 then evaluation - 30 else evaluation in
        let evaluation :=
          if ((Z.abs (square_file white_king - square_file black_king) =? 2)
              && (square_rank white_king =? square_rank black_king))
             || ((Z.abs (square_rank white_king - square_rank black_king) =? 2)
                 && (square_file white_king =? square_file black_king))
          then evaluation + 25 else evaluation in
        Fin (if color_eqb (turn board) BLACK then evaluation
             else - evaluation)
  end.

(** [evaluate_move(board, move)], lines 140-162.  The questions are asked
  of the board after the move has been pushed, [is_capture] and
  [is_castling] included; the score is a float once the king term is
  added. *)
Definition evaluate_move (move : Move R) : M R Q :=
let score := 0%Q in
board_push move ;;
let* board := the_board in
let score :=
  if is_checkmate board then 10000%Q
  else if is_check board then 50%Q
  else if is_capture board move then 30%Q
  else score in
let score := if is_castling board move then (score + 40)%Q else score in
let score :=
  if color_eqb (turn board) BLACK then
    match piece_at board (to_square move) with
    | Some piece =>
        if piece_type_eqb (piece_type piece) KING then
          let file := square_file (to_square move) in
          let rank := square_rank (to_square move) in
          let center_distance :=
            Qmax (Qabs ((7 # 2) - inject_Z file))
                 (Qabs ((7 # 2) - inject_Z rank)) in
          (score + (15 - center_distance * 3))%Q
        else score
    | None => score
    end
  else score in
board_pop ;;
ret score.

(** [minimax], lines 164-198. *)
Definition minimax := Search.minimax evaluate_board evaluate_move.

(** The key [evaluate_move] gives a move at a position. *)
Definition move_key (board : Board R) (move : Move R) : Q :=
fst (evaluate_move move (mkWorld board 0)).

(** The move mates at once: the position after it is checkmate. *)
Definition mates_at_once (board : Board R) (move : Move R) : bool :=
is_checkmate (push board move).

(** The first loop of [get_ai_move], lines 205-210: the first legal move
    that mates at once, if there is one.  Python draws the moves from the
    generator [board.legal_moves] while it pushes and pops; each round
    hands the board back before the next move is drawn, so the moves are
    those of the position at the start. *)
Fixpoint mate_scan (moves : list (Move R)) : M R (option (Move R)) :=
match moves with
| [] => ret None
| move :: rest =>
    board_push move ;;
    let* board := the_board in
    if is_checkmate board
    then board_pop ;; ret (Some move)
    else board_pop ;; mate_scan rest
end.

(** The second loop of [get_ai_move], lines 213-217:
  [for current_depth in range(1, depth + 1)], with [rounds] depths left
  to run.  The clock is read only when the position is neither
  checkmate nor stalemate ([or] does not evaluate further). *)
Fixpoint deepening (clock : nat -> Q) (start_time : Q) (rounds : nat)
  (current_depth : nat) (best_move : option (Move R))
: M R (option (Move R)) :=
match rounds with
| O => ret best_move
| S rounds' =>
    let* board := the_board in
    let* (_, best_move) :=
      minimax current_depth NegInf PosInf (color_eqb (turn board) BLACK) in
    let* board := the_board in
    if is_checkmate board || is_stalemate board then ret best_move
    else
      let* now := time_time clock in
      if Qltb 2 (now - start_time) then ret best_move
      else deepening clock start_time rounds' (S current_depth) best_move
end.

(** [get_ai_move(board, depth=3)], lines 200-219. *)
Definition get_ai_move (clock : nat -> Q) (depth : nat)
: M R (option (Move R)) :=
let* start_time := time_time clock in
let best_move := None in
let* board := the_board in
let* mate := mate_scan (legal_moves board) in
match mate with
| Some move => ret (Some move)
| None => deepening clock start_time depth 1 best_move
end.

End BlackRook.
End BlackRook.

(** ** Third program (lines 603-910): the engine plays Black, a lone king,
    against White's king and rook *)

Module WhiteRook.
Section WhiteRook.

Context {R : Rules}.

(** [evaluate_board(board)], lines 686-748. *)
Definition evaluate_board (board : Board R) : Score :=
if is_checkmate board
then (if color_eqb (turn board) BLACK then Fin 10000 else Fin (-10000))
else if is_stalemate board then Fin (-500)
else
  let white_king := king board WHITE in
  let white_rook := find_rook board WHITE in
  let black_king := king board BLACK in
  match white_rook with
  | None => Fin 0
  | Some rook_sq =>
      if py_not white_rook then Fin 0
      else
        let bk_file := square_file black_king in
        let bk_rank := square_rank black_king in
        let wr_file := square_file rook_sq in
        let wr_rank := square_rank rook_sq in
        let distance_rook :=
          Z.max (Z.abs (bk_file - wr_file)) (Z.abs (bk_rank - wr_rank)) in
        let wk_file := square_file white_king in
        let wk_rank := square_rank white_king in
        let distance_kings :=
          Z.max (Z.abs (bk_file - wk_file)) (Z.abs (bk_rank - wk_rank)) in
        let edge_distance :=
          Z.min (Z.min (black_king mod 8) (7 - black_king mod 8))
                (Z.min (black_king / 8) (7 - black_king / 8)) in
        let rook_alignment :=
          if (bk_file =? wr_file) || (bk_rank =? wr_rank)
          then (if 1 <? distance_rook then 5 else 2)
          else 0 in
        let opposition :=
          if distance_kings =? 1 then -50
          else if ((Z.abs (bk_file - wk_file) =? 2) && (bk_rank =? wk_rank))
                  || ((Z.abs (bk_rank - wk_rank) =? 2)
                      && (bk_file =? wk_file))
          then 20 else 0 in
        let check_bonus := if is_check board then 10 else 0 in
        let evaluation :=
          100 - edge_distance * 10 + rook_alignment + opposition
          + check_bonus - distance_kings * 2 in
        Fin (if color_eqb (turn board) WHITE then evaluation
             else - evaluation)
  end.

(** [evaluate_move(board, move)], lines 787-811. *)
Definition evaluate_move (move : Move R) : M R Q :=
board_push move ;;
let score := 0%Q in
let* board := the_board in
let score :=
  if is_checkmate board then 10000%Q
  else if is_check board then 50%Q
  else if is_capture board move then 30%Q
  else score in
let score :=
  if color_eqb (turn board) WHITE then
    match piece_at board (to_square move) with
    | Some piece =>
        if piece_type_eqb (piece_type piece) KING then
          let file := square_file (to_square move) in
          let rank := square_rank (to_square move) in
          let center_distance :=
            Qmax (Qabs ((7 # 2) - inject_Z file))
                 (Qabs ((7 # 2) - inject_Z rank)) in
          (score + (10 - center_distance))%Q
        else score
    | None => score
    end
  else score in
board_pop ;;
ret score.

(** [minimax], lines 750-785. *)
Definition minimax := Search.minimax evaluate_board evaluate_move.

(** The key [evaluate_move] gives a move at a position. *)
Definition move_key (board : Board R) (move : Move R) : Q :=
fst (evaluate_move move (mkWorld board 0)).

(** The loop of [get_ai_move], lines 817-821. *)
Fixpoint deepening (rounds : nat) (current_depth : nat)
  (best_move : option (Move R)) : M R (option (Move R)) :=
match rounds with
| O => ret best_move
| S rounds' =>
    let* board := the_board in
    let* (_, best_move) :=
      minimax current_depth NegInf PosInf (color_eqb (turn board) WHITE) in
    let* board := the_board in
    if is_checkmate board || is_stalemate board then ret best_move
    else deepening rounds' (S current_depth) best_move
end.

(** [get_ai_move(board, depth=3)], lines 813-822: no scan for a mate in
  one here. *)
Definition get_ai_move (depth : nat) : M R (option (Move R)) :=
let best_move := None in
deepening depth 1 best_move.

End WhiteRook.
End WhiteRook.

(** ** Second program (lines 316-601): the class [ChessEndgameSolver] *)

Module Solver.

(** A value of [self.transposition_table]:
    [{'value': eval, 'depth': depth}]. *)
Record Entry : Type := mkEntry { entry_value : Score; entry_depth : nat }.

Section Solver.

Context {R : Rules}.

(** The state a method works on: the board object it is handed, and the
  fields of [self] that the search touches. *)
Record Self : Type := mkSelf {
s_board : Board R;
transposition_table : gmap string Entry;
nodes_evaluated : Z
}.

Definition C (A : Type) : Type := St Self A.

Definition the_board : C (Board R) := fun s => (s_board s, s).

Definition board_push (m : Move R) : C unit :=
fun s => (tt, mkSelf (push (s_board s) m) (transposition_table s)
                     (nodes_evaluated s)).

Definition board_pop : C unit :=
fun s => (tt, mkSelf (pop (s_board s)) (transposition_table s)
                     (nodes_evaluated s)).

Definition the_table : C (gmap string Entry) :=
fun s => (transposition_table s, s).

(** [self.transposition_table[key] = {'value': value, 'depth': depth}]. *)
Definition table_store (key : string) (value : Score) (depth : nat) : C unit :=
fun s => (tt, mkSelf (s_board s)
                     (<[key := mkEntry value depth]> (transposition_table s))
                     (nodes_evaluated s)).

(** [self.nodes_evaluated += 1]. *)
Definition count_node : C unit :=
fun s => (tt, mkSelf (s_board s) (transposition_table s)
                     (nodes_evaluated s + 1)).

(** [evaluate_board(self, board)], lines 371-405.  [centrality] is
  [(3.5 - abs(file - 3.5)) + (3.5 - abs(rank - 3.5))]; only its double
  enters the score, and the double is computed here in integers. *)
Definition evaluate_board : C Score :=
count_node ;;
let* board := the_board in
if is_checkmate board
then ret (if color_eqb (turn board) BLACK then PosInf else NegInf)
else if is_stalemate board || is_insufficient_material board
        || can_claim_draw board
then ret (Fin 0)
else
  let white_king := king board WHITE in
  let white_rook := head (pieces board ROOK WHITE) in
  let black_king := king board BLACK in
  match white_rook with
  | None => ret NegInf
  | Some rook_sq =>
      if py_not white_rook then ret NegInf
      else
        let score := 0 in
        let rook_safety := square_distance rook_sq black_king in
        let score := score + rook_safety * 5 in
        let king_proximity := 14 - square_distance white_king black_king in
        let score := score + king_proximity * 3 in
        let file := square_file rook_sq in
        let rank := square_rank rook_sq in
        let centrality_doubled :=
          (7 - Z.abs (2 * file - 7)) + (7 - Z.abs (2 * rank - 7)) in
        let score := score + centrality_doubled in
        let score :=
          if (square_file white_king =? square_file black_king)
             || (square_rank white_king =? square_rank black_king)
          then score + 10 else score in
        let score := if is_check board then score + 15 else score in
        ret (Fin score)
  end.

(** Lines 410-413: the stored value, when the table holds an entry for
  the key whose depth is at least the depth asked for. *)
Definition table_lookup (table : gmap string Entry) (key : string)
  (depth : nat) : option Score :=
match table !! key with
| Some entry =>
    if (depth <=? entry_depth entry)%nat then Some (entry_value entry)
    else None
| None => None
end.

Fixpoint max_loop (recur : Score -> Score -> bool -> C Score)
  (moves : list (Move R)) (max_eval alpha beta : Score) : C Score :=
match moves with
| [] => ret max_eval
| move :: rest =>
    board_push move ;;
    let* eval := recur alpha beta false in
    board_pop ;;
    let max_eval := Sc.max max_eval eval in
    let alpha := Sc.max alpha eval in
    if Sc.leb beta alpha then ret max_eval
    else max_loop recur rest max_eval alpha beta
end.

Fixpoint min_loop (recur : Score -> Score -> bool -> C Score)
  (moves : list (Move R)) (min_eval alpha beta : Score) : C Score :=
match moves with
| [] => ret min_eval
| move :: rest =>
    board_push move ;;
    let* eval := recur alpha beta true in
    board_pop ;;
    let min_eval := Sc.min min_eval eval in
    let beta := Sc.min beta eval in
    if Sc.leb beta alpha then ret min_eval
    else min_loop recur rest min_eval alpha beta
end.

(** [minimax(self, board, depth, alpha, beta, maximizing_player)], lines
  407-443. *)
Fixpoint minimax (depth : nat) (alpha beta : Score) (maximizing_player : bool)
: C Score :=
let* board := the_board in
let board_fen := fen board in
let* table := the_table in
match table_lookup table board_fen depth with
| Some value => ret value
| None =>
    let leaf :=
      let* eval := evaluate_board in
      table_store board_fen eval depth ;;
      ret eval in
    match depth with
    | O => leaf
    | S depth' =>
        if is_game_over board then leaf
        else if maximizing_player then
          let* max_eval :=
            max_loop (minimax depth') (legal_moves board) NegInf alpha beta in
          table_store board_fen max_eval depth ;;
          ret max_eval
        else
          let* min_eval :=
            min_loop (minimax depth') (legal_moves board) PosInf alpha beta in
          table_store board_fen min_eval depth ;;
          ret min_eval
    end
end.


(** The loop of [find_best_move], lines 450-463.  The method is called
  with a depth of at least 1 (3 by default); it searches one ply less
  below each root move. *)
Fixpoint root_loop (depth : nat) (moves : list (Move R))
  (best_value : Score) (best_move : option (Move R))
: C (option (Move R)) :=
match moves with
| [] => ret best_move
| move :: rest =>
    board_push move ;;
    let* board := the_board in
    let* current_value :=
      if color_eqb (turn board) BLACK
      then minimax (depth - 1) NegInf PosInf true
      else minimax (depth - 1) NegInf PosInf false in
    board_pop ;;
    let* board := the_board in
    let '(best_value, best_move) :=
      if color_eqb (turn board) WHITE && Sc.gtb current_value best_value
      then (current_value, Some move)
      else if color_eqb (turn board) BLACK
              && Sc.ltb current_value best_value
      then (current_value, Some move)
      else (best_value, best_move) in
    root_loop depth rest best_value best_move
end.

(** [find_best_move(self, board, depth=3)], lines 445-465. *)
Definition find_best_move (depth : nat) : C (option (Move R)) :=
let best_move := None in
let* board := the_board in
let best_value :=
  if color_eqb (turn board) WHITE then NegInf else PosInf in
root_loop depth (legal_moves board) best_value best_move.

End Solver.

Arguments Self : clear implicits.
Arguments mkSelf {_} _ _ _.
Arguments C : clear implicits.

End Solver.

(** ** A rules engine for kings and rooks

    python-chess as documented, for boards that hold only kings and rooks,
    with no castling rights (as after [board.clear()]) and no en passant
    square.  Legal moves come in the library's order: from-squares from h8
    down to a1, to-squares likewise; when the side to move is in check the
    king's moves come first. *)

Module KR.

(** [chess.Move], without promotion. *)
Record Mv : Type := mkMv { from_square : Square; dest_square : Square }.

(** The state that [push] saves and [pop] restores. *)
Record Position : Type := mkPosition {
  placement : list (Square * Piece);
  side : Color;
  halfmove_clock : Z;
  fullmove_number : Z
}.

(** A board object: the current state and the saved ones, newest first. *)
Record Bd : Type := mkBd { now : Position; stack : list Position }.

Definition at_square (pl : list (Square * Piece)) (sq : Square)
  : option Piece :=
  match List.find (fun e => fst e =? sq) pl with
  | Some e => Some (snd e)
  | None => None
  end.

Definition occupied_by (pl : list (Square * Piece)) (c : Color) (sq : Square)
  : bool :=
  match at_square pl sq with
  | Some p => color_eqb (color p) c
  | None => false
  end.

(** [t] lies strictly between [a] and [b] on a shared rank or file. *)
Definition strictly_between (a t b : Square) : bool :=
  ((square_rank a =? square_rank b) && (square_rank t =? square_rank a)
   && (Z.min (square_file a) (square_file b) <? square_file t)
   && (square_file t <? Z.max (square_file a) (square_file b)))
  || ((square_file a =? square_file b) && (square_file t =? square_file a)
      && (Z.min (square_rank a) (square_rank b) <? square_rank t)
      && (square_rank t <? Z.max (square_rank a) (square_rank b))).

(** The piece [p] standing on [s] attacks [t]. *)
Definition attacks (pl : list (Square * Piece)) (s : Square) (p : Piece)
    (t : Square) : bool :=
  match piece_type p with
  | KING => square_distance s t =? 1
  | ROOK =>
      if negb (s =? t)
         && ((square_file s =? square_file t)
             || (square_rank s =? square_rank t))
      then forallb (fun e => negb (strictly_between s (fst e) t)) pl
      else false
  | _ => false
  end.

(** [board.is_attacked_by(c, sq)]. *)
Definition is_attacked_by (pl : list (Square * Piece)) (c : Color)
    (sq : Square) : bool :=
  existsb (fun e => if color_eqb (color (snd e)) c
                    then attacks pl (fst e) (snd e) sq else false) pl.

(** [board.king(c)]; square 0 stands in for [None], which no position
    used below gives. *)
Definition king_square (pl : list (Square * Piece)) (c : Color) : Square :=
  match List.find (fun e => piece_eqb (snd e) (mkPiece KING c)) pl with
  | Some e => fst e
  | None => 0
  end.

Definition in_check (pl : list (Square * Piece)) (c : Color) : bool :=
  is_attacked_by pl (other c) (king_square pl c).

(** The placement after the piece on [from_square] has gone to
    [dest_square], taking what stood there. *)
Definition moved (pl : list (Square * Piece)) (m : Mv)
  : list (Square * Piece) :=
  match at_square pl (from_square m) with
  | Some p =>
      (dest_square m, p)
        :: List.filter (fun e => negb (fst e =? from_square m)
                                 && negb (fst e =? dest_square m)) pl
  | None => pl
  end.

Definition descending : list Square := rev SQUARES.

(** The moves of the piece on [s], to-squares from high to low, own
    pieces excluded. *)
Definition piece_moves (pl : list (Square * Piece)) (c : Color) (s : Square)
  : list Mv :=
  match at_square pl s with
  | Some p =>
      map (mkMv s)
          (List.filter (fun t => if attacks pl s p t
                                 then negb (occupied_by pl c t) else false)
                       descending)
  | None => []
  end.

Definition safe (pl : list (Square * Piece)) (c : Color) (m : Mv) : bool :=
  negb (in_check (moved pl m) c).

Definition is_king_at (pl : list (Square * Piece)) (s : Square) : bool :=
  match at_square pl s with
  | Some p => piece_type_eqb (piece_type p) KING
  | None => false
  end.

(** [list(board.legal_moves)]. *)
Definition legal (p : Position) : list Mv :=
  let pl := placement p in
  let c := side p in
  let ours := List.filter (occupied_by pl c) descending in
  if in_check pl c then
    let kings := List.filter (is_king_at pl) ours in
    let others := List.filter (fun s => negb (is_king_at pl s)) ours in
    List.filter (safe pl c) (flat_map (piece_moves pl c) kings)
    ++ List.filter (safe pl c) (flat_map (piece_moves pl c) others)
  else List.filter (safe pl c) (flat_map (piece_moves pl c) ours).

Definition no_moves (p : Position) : bool :=
  match legal p with [] => true | _ => false end.

Definition checkmate (p : Position) : bool :=
  if in_check (placement p) (side p) then no_moves p else false.

Definition stalemate (p : Position) : bool :=
  if in_check (placement p) (side p) then false else no_moves p.

(** With kings and rooks only, material is insufficient exactly when no
    rook is left. *)
Definition insufficient_material (p : Position) : bool :=
  forallb (fun e => negb (piece_type_eqb (piece_type (snd e)) ROOK))
          (placement p).

(** [board.is_zeroing(move)] without pawns: a capture. *)
Definition zeroing (p : Position) (m : Mv) : bool :=
  occupied_by (placement p) (other (side p)) (from_square m)
  || occupied_by (placement p) (other (side p)) (dest_square m).

(** The state after [board.push(move)]. *)
Definition after (p : Position) (m : Mv) : Position :=
  mkPosition (moved (placement p) m) (other (side p))
             (if zeroing p m then 0 else halfmove_clock p + 1)
             (if color_eqb (side p) BLACK then fullmove_number p + 1
              else fullmove_number p).

Definition piece_opt_eqb (a b : option Piece) : bool :=
  match a, b with
  | Some p, Some q => piece_eqb p q
  | None, None => true
  | _, _ => false
  end.

(** Equal transposition keys: same pieces on the same squares and same
    side to move (there are no castling rights and no en passant). *)
Definition same_key (p q : Position) : bool :=
  if color_eqb (side p) (side q)
  then forallb (fun sq => piece_opt_eqb (at_square (placement p) sq)
                                        (at_square (placement q) sq)) SQUARES
  else false.

(** How often the key of [p] occurs in [p] and the saved states. *)
Definition occurrences (p : Position) (saved : list Position) : nat :=
  S (length (List.filter (same_key p) saved)).

Definition halfmoves_reached (n : Z) (p : Position) : bool :=
  if n <=? halfmove_clock p then negb (no_moves p) else false.

Definition KR_push (b : Bd) (m : Mv) : Bd :=
  mkBd (after (now b) m) (now b :: stack b).

(** [board.pop()]; on an empty stack Python raises, and no code here pops
    an empty stack. *)
Definition KR_pop (b : Bd) : Bd :=
  match stack b with
  | p :: rest => mkBd p rest
  | [] => b
  end.

(** [board.is_game_over()]: checkmate, insufficient material, stalemate,
    the seventy-five-move rule or fivefold repetition. *)
Definition game_over (b : Bd) : bool :=
  if no_moves (now b) then true
  else if insufficient_material (now b) then true
  else if halfmoves_reached 150 (now b) then true
  else (5 <=? occurrences (now b) (stack b))%nat.

(** [board.can_claim_draw()]: the fifty-move rule or threefold
    repetition, now or after one more legal move. *)
Definition claim_draw (b : Bd) : bool :=
  if halfmoves_reached 100 (now b) then true
  else if (if 99 <=? halfmove_clock (now b)
           then existsb (fun m => if zeroing (now b) m then false
                                  else halfmoves_reached 100 (after (now b) m))
                        (legal (now b))
           else false) then true
  else if (3 <=? occurrences (now b) (stack b))%nat then true
  else existsb (fun m => (3 <=? occurrences (after (now b) m)
                                            (now b :: stack b))%nat)
               (legal (now b)).

(** [board.is_capture(move)]: one of the two squares of the move holds a
    piece of the side that is not to move. *)
Definition capture (b : Bd) (m : Mv) : bool := zeroing (now b) m.

(** [board.is_castling(move)]: a king stands on the from-square and moves
    more than one file, or onto a rook of the side to move. *)
Definition castling (b : Bd) (m : Mv) : bool :=
  let pl := placement (now b) in
  if is_king_at pl (from_square m) then
    (1 <? Z.abs (square_file (from_square m) - square_file (dest_square m)))
    || piece_opt_eqb (at_square pl (dest_square m))
                     (Some (mkPiece ROOK (side (now b))))
  else false.

Definition symbol (p : Piece) : string :=
  match piece_type p, color p with
  | PAWN, WHITE => "P" | KNIGHT, WHITE => "N" | BISHOP, WHITE => "B"
  | ROOK, WHITE => "R" | QUEEN, WHITE => "Q" | KING, WHITE => "K"
  | PAWN, BLACK => "p" | KNIGHT, BLACK => "n" | BISHOP, BLACK => "b"
  | ROOK, BLACK => "r" | QUEEN, BLACK => "q" | KING, BLACK => "k"
  end.

(** One rank of [board.board_fen()], files a to h, [empty] counting the
    empty squares not yet written. *)
Fixpoint rank_fen (pl : list (Square * Piece)) (rank : Z) (files : list Z)
    (empty : Z) : string :=
  match files with
  | [] => if 0 <? empty then pretty empty else ""
  | f :: rest =>
      match at_square pl (rank * 8 + f) with
      | Some p =>
          String.append (if 0 <? empty then pretty empty else "")
            (String.append (symbol p) (rank_fen pl rank rest 0))
      | None => rank_fen pl rank rest (empty + 1)
      end
  end.

Definition eight : list Z := [0; 1; 2; 3; 4; 5; 6; 7].

Definition board_fen (pl : list (Square * Piece)) : string :=
  String.concat "/" (map (fun r => rank_fen pl r eight 0) (rev eight)).

(** [board.fen()]. *)
Definition KR_fen (b : Bd) : string :=
  String.concat " "
    [ board_fen (placement (now b));
      match side (now b) with WHITE => "w" | BLACK => "b" end;
      "-"; "-";
      pretty (halfmove_clock (now b));
      pretty (fullmove_number (now b)) ].

Definition rules : Rules := {|
  Board := Bd;
  Move := Mv;
  turn := fun b => side (now b);
  legal_moves := fun b => legal (now b);
  push := KR_push;
  pop := KR_pop;
  is_checkmate := fun b => checkmate (now b);
  is_stalemate := fun b => stalemate (now b);
  is_insufficient_material := fun b => insufficient_material (now b);
  can_claim_draw := claim_draw;
  is_game_over := game_over;
  is_check := fun b => in_check (placement (now b)) (side (now b));
  is_capture := capture;
  is_castling := castling;
  piece_at := fun b sq => at_square (placement (now b)) sq;
  king := fun b c => king_square (placement (now b)) c;
  to_square := dest_square;
  fen := KR_fen
|}.

(** A fresh board: the given pieces, the side to move, clocks at 0 and 1,
    nothing on the stack. *)
Definition setup (pl : list (Square * Piece)) (c : Color) : Bd :=
  mkBd (mkPosition pl c 0 1) [].

Definition wK := mkPiece KING WHITE.
Definition wR := mkPiece ROOK WHITE.
Definition bK := mkPiece KING BLACK.
Definition bR := mkPiece ROOK BLACK.

(** Squares by name: [sq file rank] with file a = 0 and rank 1 = 0. *)
Definition sq (file rank : Z) : Square := rank * 8 + file.

End KR.

(** ** Positions used in concrete runs *)

Module Scenes.
Import KR.

(** 7r/8/5k2/8/8/8/3K4/8 b - - 0 1: the first program's material, Black
    (the engine) to move. *)
Definition rook_hunt : Bd :=
  setup [(sq 3 1, wK); (sq 5 5, bK); (sq 7 7, bR)] BLACK.

(** 8/8/5k2/8/8/8/3K4/8 b - - 0 1: the rook has been captured; Black to
    move with legal king moves, and the game is over by insufficient
    material. *)
Definition bare_kings : Bd :=
  setup [(sq 3 1, wK); (sq 5 5, bK)] BLACK.

(** 1r6/8/8/4k3/8/8/r7/7K b - - 0 1: Black mates at once with Rb1, and
    also mates in two after a quiet rook move. *)
Definition two_rooks : Bd :=
  setup [(sq 7 0, wK); (sq 4 4, bK); (sq 0 1, bR); (sq 1 7, bR)] BLACK.

(** k7/1R6/1K6/8/8/8/8/8 b - - 0 1: Black is stalemated. *)
Definition stalemated : Bd :=
  setup [(sq 0 7, bK); (sq 1 5, wK); (sq 1 6, wR)] BLACK.

(** 7r/8/5k2/8/8/8/3K4/8 w - - 0 1: no white rook on the board, White to
    move, nothing decided. *)
Definition rook_lost : Bd :=
  setup [(sq 3 1, wK); (sq 5 5, bK); (sq 7 7, bR)] WHITE.

(** 3r4/8/5k2/8/8/2K5/8/8 b - - 0 1: no white rook either. *)
Definition rook_gone : Bd :=
  setup [(sq 2 2, wK); (sq 5 5, bK); (sq 3 7, bR)] BLACK.

(** 4k3/8/8/8/8/8/8/R3K3 w - - 0 1: the position [run] of the class sets
    up, the white rook on a1. *)
Definition solver_start : Bd :=
  setup [(sq 4 0, wK); (sq 0 0, wR); (sq 4 7, bK)] WHITE.

(** 4k3/7R/8/8/8/2K5/8/8 w - - 0 1. *)
Definition rook_on_seventh : Bd :=
  setup [(sq 2 2, wK); (sq 7 6, wR); (sq 4 7, bK)] WHITE.

(** 8/8/8/4k3/8/8/1R6/2K5 b - - 0 1: White has king and rook, nothing
    decided. *)
Definition rook_kept : Bd :=
  setup [(sq 2 0, wK); (sq 1 1, wR); (sq 4 4, bK)] BLACK.

(** rr6/8/8/8/8/6k1/8/7K b - - 0 1: Black mates at once with Ra1 and
    with Rb1. *)
Definition two_mates : Bd :=
  setup [(sq 7 0, wK); (sq 6 2, bK); (sq 0 7, bR); (sq 1 7, bR)] BLACK.

(** 7k/8/6K1/8/8/8/R7/8 w - - 0 1: White mates at once with Ra8. *)
Definition rook_mates : Bd :=
  setup [(sq 6 5, wK); (sq 0 1, wR); (sq 7 7, bK)] WHITE.

(** The board after [moves] have been pushed one after the other. *)
Definition plays (b : Bd) (moves : list Mv) : Bd :=
  fold_left KR_push moves b.

(** From [rook_hunt]: the rook goes from h8 to [square] and back while
    the white king goes from d2 to d3 and back. *)
Definition shuffle_via (square : Square) : list Mv :=
  [mkMv 63 square; mkMv 11 19; mkMv square 63; mkMv 19 11].

(** Two games that reach the position of [rook_hunt] again after eight
    moves, through the same positions in another order. *)
Definition g8_then_f8 : Bd :=
  plays rook_hunt (shuffle_via 62 ++ shuffle_via 61).
Definition f8_then_g8 : Bd :=
  plays rook_hunt (shuffle_via 61 ++ shuffle_via 62).

(** 7r/8/5k2/8/8/8/3K4/8 b - - 16 9, reached for the fifth time. *)
Definition five_times : Bd :=
  plays rook_hunt
    (shuffle_via 62 ++ shuffle_via 62 ++ shuffle_via 62 ++ shuffle_via 62).

(** A board set up in the state of [b], with no history:
    [chess.Board(b.fen())]. *)
Definition set_up_anew (b : Bd) : Bd := mkBd (now b) [].

(** A clock that never advances, and one that jumps three seconds at
    every reading. *)
Definition still_clock : nat -> Q := fun _ => 0%Q.
Definition fast_clock : nat -> Q := fun k => inject_Z (3 * Z.of_nat k).

(** A solver that has not searched yet. *)
Definition fresh (b : Bd) : Solver.Self rules :=
  Solver.mkSelf (R:=rules) b ∅ 0.

End Scenes.

(** ** Boards on the screen

    What the programs draw is modelled by the calls they make on the
    screen, in order.  [chess.square(file, rank)] is [rank * 8 + file];
    [piece.symbol()] is [KR.symbol]. *)

(** [chess.square(file_index, rank_index)]. *)
Definition chess_square (file_index rank_index : Z) : Square :=
  rank_index * 8 + file_index.

(** [screen.blit(PIECES[symbol], (x, y))]. *)
Record Blit : Type := mkBlit { blit_symbol : string; blit_x : Z; blit_y : Z }.

(** First program, lines 6-7, 16-37, 54-61 and 82-88. *)
Module BlackRookScreen.

Definition WIDTH : Z := 600.
Definition HEIGHT : Z := 600.
Definition SQUARE_SIZE : Z := WIDTH / 8.

(** The keys [load_images] puts into [PIECES]: each gets the image of its
    file or, failing that, a surface with the letter. *)
Definition PIECES : list string := ["K"; "k"; "r"].

(** [draw_pieces(screen, board)] over the squares still to visit: the
    blits made, and the symbol that raised [KeyError], if one did. *)
Fixpoint draw_squares {R : Rules} (board : Board R) (squares : list Square)
  : list Blit * option string :=
  match squares with
  | [] => ([], None)
  | square :: rest =>
      match piece_at board square with
      | Some piece =>
          let piece_str := KR.symbol piece in
          let col := square_file square in
          let row := 7 - square_rank square in
          if existsb (String.eqb piece_str) PIECES
          then
            let (blits, raised) := draw_squares board rest in
            (mkBlit piece_str (col * SQUARE_SIZE) (row * SQUARE_SIZE) :: blits,
             raised)
          else ([], Some piece_str)
      | None => draw_squares board rest
      end
  end.

Definition draw_pieces {R : Rules} (board : Board R)
  : list Blit * option string :=
  draw_squares board SQUARES.

(** [get_square_under_mouse(pos)], lines 82-88. *)
Definition get_square_under_mouse (pos : Z * Z) : option Square :=
  let (x, y) := pos in
  if (0 <=? x) && (x <? WIDTH) && (0 <=? y) && (y <? HEIGHT) then
    let col := x / SQUARE_SIZE in
    let row := y / SQUARE_SIZE in
    Some (chess_square col (7 - row))
  else None.

End BlackRookScreen.

(** Third program, lines 610-611, 650-656 and 680-684. *)
Module WhiteRookScreen.

Definition WIDTH : Z := 480.
Definition HEIGHT : Z := 480.
Definition SQUARE_SIZE : Z := WIDTH / 8.

Definition PIECES : list string := ["K"; "R"; "k"].

Fixpoint draw_squares {R : Rules} (board : Board R) (squares : list Square)
  : list Blit * option string :=
  match squares with
  | [] => ([], None)
  | square :: rest =>
      match piece_at board square with
      | Some piece =>
          let piece_str := KR.symbol piece in
          let row := 7 - square / 8 in
          let col := square mod 8 in
          if existsb (String.eqb piece_str) PIECES
          then
            let (blits, raised) := draw_squares board rest in
            (mkBlit piece_str (col * SQUARE_SIZE) (row * SQUARE_SIZE) :: blits,
             raised)
          else ([], Some piece_str)
      | None => draw_squares board rest
      end
  end.

Definition draw_pieces {R : Rules} (board : Board R)
  : list Blit * option string :=
  draw_squares board SQUARES.

(** [get_square_under_mouse(pos)], lines 680-684: no test of the
    window. *)
Definition get_square_under_mouse (pos : Z * Z) : Square :=
  let (x, y) := pos in
  let row := 7 - y / SQUARE_SIZE in
  let col := x / SQUARE_SIZE in
  chess_square col row.

End WhiteRookScreen.

(** ** The clicks of the class (lines 327-331 and 520-549) *)

(** What [handle_click] needs of moves beyond [Rules]: [chess.Move(a, b)],
    [move.from_square] and [move in board.legal_moves]. *)
Record MoveOps (R : Rules) : Type := {
  chess_Move : Square -> Square -> Move R;
  from_square : Move R -> Square;
  is_legal : Board R -> Move R -> bool
}.

Arguments chess_Move {_} _ _ _.
Arguments from_square {_} _ _.
Arguments is_legal {_} _ _ _.

(** [move in board.legal_moves] holds exactly of the legal moves. *)
Definition legal_membership {R : Rules} (O : MoveOps R) : Prop :=
  forall (b : Board R) (m : Move R),
    is_legal O b m = true <-> In m (legal_moves b).

Module SolverScreen.

Definition WIDTH : Z := 640.
Definition HEIGHT : Z := 680.
Definition BOARD_SIZE : Z := 600.
Definition SQUARE_SIZE : Z := BOARD_SIZE / 8.
Definition MARGIN : Z := (WIDTH - BOARD_SIZE) / 2.

Section SolverScreen.

Context {R : Rules}.
Variable O : MoveOps R.

(** The fields of [self] that [handle_click] reads and writes, and the
    count of clock readings. *)
Record Game : Type := mkGame {
  g_board : Board R;
  selected_square : option Square;
  possible_moves : list (Move R);
  message : string;
  message_time : Q;
  g_ticks : nat
}.

(** [handle_click(self, pos)], lines 520-549. *)
Definition handle_click (clock : nat -> Q) (pos : Z * Z) (g : Game)
  : bool * Game :=
  let (x, y) := pos in
  if (MARGIN <=? x) && (x <? MARGIN + BOARD_SIZE)
     && (MARGIN <=? y) && (y <? MARGIN + BOARD_SIZE)
  then
    let col := (x - MARGIN) / SQUARE_SIZE in
    let row := (y - MARGIN) / SQUARE_SIZE in
    let square := chess_square col (7 - row) in
    if color_eqb (turn (g_board g)) BLACK then
      let piece := piece_at (g_board g) square in
      if match piece with
         | Some p => color_eqb (color p) BLACK
         | None => false
         end
      then
        (false,
         mkGame (g_board g) (Some square)
                (List.filter (fun m => from_square O m =? square)
                             (legal_moves (g_board g)))
                (message g) (message_time g) (g_ticks g))
      else
        match selected_square g with
        | Some selected =>
            if py_not (selected_square g) then (false, g)
            else
              let move := chess_Move O selected square in
              if is_legal O (g_board g) move then
                (true,
                 mkGame (push (g_board g) move) None [] ""
                        (message_time g) (g_ticks g))
              else
                (false,
                 mkGame (g_board g) (selected_square g) (possible_moves g)
                        "Invalid move!" (clock (g_ticks g)) (S (g_ticks g)))
        | None => (false, g)
        end
    else
      (false,
       mkGame (g_board g) (selected_square g) (possible_moves g)
              "Wait for computer to move" (clock (g_ticks g)) (S (g_ticks g)))
  else (false, g).

End SolverScreen.

Arguments Game : clear implicits.
Arguments mkGame {_} _ _ _ _ _ _.

End SolverScreen.

(** The moves of [KR] for [handle_click]. *)
Module KRMoves.

Definition mv_eqb (a b : KR.Mv) : bool :=
  (KR.from_square a =? KR.from_square b)
  && (KR.dest_square a =? KR.dest_square b).

Definition ops : MoveOps KR.rules :=
  Build_MoveOps KR.rules KR.mkMv KR.from_square
    (fun b m => existsb (mv_eqb m) (KR.legal (KR.now b))).

(** 8/8/8/8/8/2K5/7R/k7 b - - 0 1: the black king stands on a1. *)
Definition king_in_corner : KR.Bd :=
  KR.setup [(KR.sq 0 0, KR.bK); (KR.sq 2 2, KR.wK); (KR.sq 7 1, KR.wR)] BLACK.

End KRMoves.

(** ** Relations between the states of a solver *)

(** [s'] keeps what [s] had stored: every key of the table of [s] is still
    a key, with the same entry or one of strictly greater depth, and the
    node count has not gone down. *)
Definition table_kept {R : Rules} (s s' : Solver.Self R) : Prop :=
  (forall key e,
      Solver.transposition_table s !! key = Some e ->
      exists e', Solver.transposition_table s' !! key = Some e'
                 /\ (e' = e
                     \/ (Solver.entry_depth e < Solver.entry_depth e')%nat))
  /\ Solver.nodes_evaluated s <= Solver.nodes_evaluated s'.

(** A computation of the class always ends in a state that keeps what was
    stored. *)
Definition keeps_table {R : Rules} {A} (c : Solver.C R A) : Prop :=
  forall s, table_kept s (snd (c s)).

(** A computation of the class hands the board back. *)
Definition keeps_board {R : Rules} {A} (c : Solver.C R A) : Prop :=
  forall s, Solver.s_board (snd (c s)) = Solver.s_board s.

(** ** Boards that differ and search alike *)

(** Boards the rules engine answers alike: every question the search asks
    has the same answer on both, now and after any move. *)
Record alike_to_the_engine {R : Rules} (same : Board R -> Board R -> Prop)
: Prop := {
  same_turn : forall b1 b2, same b1 b2 -> turn b1 = turn b2;
  same_legal_moves : forall b1 b2, same b1 b2 ->
    legal_moves b1 = legal_moves b2;
  same_is_checkmate : forall b1 b2, same b1 b2 ->
    is_checkmate b1 = is_checkmate b2;
  same_is_stalemate : forall b1 b2, same b1 b2 ->
    is_stalemate b1 = is_stalemate b2;
  same_is_game_over : forall b1 b2, same b1 b2 ->
    is_game_over b1 = is_game_over b2;
  same_is_check : forall b1 b2, same b1 b2 -> is_check b1 = is_check b2;
  same_is_capture : forall b1 b2 m, same b1 b2 ->
    is_capture b1 m = is_capture b2 m;
  same_is_castling : forall b1 b2 m, same b1 b2 ->
    is_castling b1 m = is_castling b2 m;
  same_piece_at : forall b1 b2 sq, same b1 b2 ->
    piece_at b1 sq = piece_at b2 sq;
  same_king : forall b1 b2 c, same b1 b2 -> king b1 c = king b2 c;
  same_push : forall b1 b2 m, same b1 b2 -> same (push b1 m) (push b2 m)
}.

(** The part of a saved state that a repetition compares: the pieces and
    the side to move. *)
Definition without_clocks (p : KR.Position) : KR.Position :=
  KR.mkPosition (KR.placement p) (KR.side p) 0 1.

(** Two boards of the engine for kings and rooks in the same state, whose
    histories hold every position equally often. *)
Definition same_position_and_repetitions (b1 b2 : KR.Bd) : Prop :=
  KR.now b1 = KR.now b2
  /\ forall p, KR.occurrences p (KR.stack b1) = KR.occurrences p (KR.stack b2).

(** ** What a search can reach, and two more laws of the engine *)

(** A position that is checkmate or stalemate is over. *)
Definition decided_is_over (R : Rules) : Prop :=
  forall b : Board R,
    is_checkmate b || is_stalemate b = true -> is_game_over b = true.

(** A move hands the turn to the other side. *)
Definition push_passes_turn (R : Rules) : Prop :=
  forall (b : Board R) (m : Move R), turn (push b m) = other (turn b).

(** The positions a search of [depth] plies visits from [board]: the
    board itself and what legal moves lead to, [depth] moves deep. *)
Fixpoint positions_within {R : Rules} (depth : nat) (board : Board R)
: list (Board R) :=
board :: match depth with
         | O => []
         | S depth' =>
             flat_map (fun move => positions_within depth' (push board move))
                      (legal_moves board)
         end.

(** * Facts *)

(** ** The engine for kings and rooks meets the interface's laws *)

Lemma KR_pop_restores : pop_restores KR.rules.
Proof. intros [p s] m. reflexivity. Qed.

Lemma KR_live_has_moves : live_has_moves KR.rules.
Proof.
  intros b H. simpl in *. unfold KR.game_over, KR.no_moves in H.
  destruct (KR.legal (KR.now b)); [discriminate | discriminate].
Qed.

(** ** Running stateful code *)

Section Running.

Context {R : Rules}.

Lemma world_eta (w : World R) : mkWorld (w_board w) (w_ticks w) = w.
Proof. destruct w; reflexivity. Qed.

Lemma pure_on_ret {A} (a : A) : pure_on (ret a : M R A) (fun _ => a).
Proof. intros w; reflexivity. Qed.

Lemma pure_on_bind {A B} (c : M R A) (k : A -> M R B) f g :
  pure_on c f -> (forall a, pure_on (k a) (g a)) ->
  pure_on (bind c k) (fun b => g (f b) b).
Proof.
  intros Hc Hk w. unfold bind. rewrite Hc. apply Hk.
Qed.

(** A move is tried and taken back around a pure computation. *)
Lemma pure_on_probe {A} (Hpop : pop_restores R) (c : M R A) f (m : Move R) :
  pure_on c f ->
  forall w, (board_push m ;; let* a := c in board_pop ;; ret a) w
            = (f (push (w_board w) m), w).
Proof.
  intros Hc w. unfold bind, board_push, board_pop, ret.
  rewrite Hc. simpl. rewrite Hpop, world_eta. reflexivity.
Qed.

Lemma reads_only_board_ret {A} (a : A) : reads_only_board (ret a : M R A).
Proof. intros w1 w2 H; auto. Qed.

Lemma reads_only_board_bind {A B} (c : M R A) (k : A -> M R B) :
  reads_only_board c -> (forall a, reads_only_board (k a)) ->
  reads_only_board (bind c k).
Proof.
  intros Hc Hk w1 w2 H. unfold bind.
  destruct (Hc w1 w2 H) as [Hv Hb].
  destruct (c w1) as [a1 w1'], (c w2) as [a2 w2']. simpl in *. subst a2.
  apply Hk, Hb.
Qed.

Lemma reads_only_board_the_board : reads_only_board (@the_board R).
Proof. intros w1 w2 H; simpl; auto. Qed.

Lemma reads_only_board_push (m : Move R) : reads_only_board (board_push m).
Proof. intros w1 w2 H; simpl; split; congruence. Qed.

Lemma reads_only_board_pop : reads_only_board (@board_pop R).
Proof. intros w1 w2 H; simpl; split; congruence. Qed.

Lemma leaves_clock_ret {A} (a : A) : leaves_clock (ret a : M R A).
Proof. intros w; reflexivity. Qed.

Lemma leaves_clock_bind {A B} (c : M R A) (k : A -> M R B) :
  leaves_clock c -> (forall a, leaves_clock (k a)) -> leaves_clock (bind c k).
Proof.
  intros Hc Hk w. unfold bind. specialize (Hc w).
  destruct (c w) as [a w']. simpl in *. rewrite Hk. exact Hc.
Qed.

Lemma leaves_clock_the_board : leaves_clock (@the_board R).
Proof. intros w; reflexivity. Qed.

Lemma leaves_clock_push (m : Move R) : leaves_clock (board_push m).
Proof. intros w; reflexivity. Qed.

Lemma leaves_clock_pop : leaves_clock (@board_pop R).
Proof. intros w; reflexivity. Qed.

Lemma reads_only_board_for_each {A B} (f : A -> M R B) (xs : list A) :
  (forall x, reads_only_board (f x)) -> reads_only_board (for_each f xs).
Proof.
  intros Hf. induction xs as [|x xs IH]; simpl.
  - apply reads_only_board_ret.
  - apply reads_only_board_bind; [apply Hf|]. intros y.
    apply reads_only_board_bind; [apply IH|]. intros ys.
    apply reads_only_board_ret.
Qed.

Lemma leaves_clock_for_each {A B} (f : A -> M R B) (xs : list A) :
  (forall x, leaves_clock (f x)) -> leaves_clock (for_each f xs).
Proof.
  intros Hf. induction xs as [|x xs IH]; simpl.
  - apply leaves_clock_ret.
  - apply leaves_clock_bind; [apply Hf|]. intros y.
    apply leaves_clock_bind; [apply IH|]. intros ys.
    apply leaves_clock_ret.
Qed.

Lemma pure_on_for_each {A B} (f : A -> M R B) (g : Board R -> A -> B)
    (xs : list A) :
  (forall x, pure_on (f x) (fun b => g b x)) ->
  pure_on (for_each f xs) (fun b => map (g b) xs).
Proof.
  intros Hf. induction xs as [|x xs IH]; intros w; simpl.
  - reflexivity.
  - unfold bind. rewrite Hf, IH. reflexivity.
Qed.

End Running.

Create HintDb search.

#[local] Hint Resolve reads_only_board_ret reads_only_board_the_board
  reads_only_board_push reads_only_board_pop leaves_clock_ret
  leaves_clock_the_board leaves_clock_push leaves_clock_pop : search.

(** ** The search runs as a function of the position *)

Section SearchRuns.

Context {R : Rules}.
Variable evaluate_board : Board R -> Score.
Variable evaluate_move : Move R -> M R Q.

Abbreviation minimax := (Search.minimax evaluate_board evaluate_move).
Abbreviation Result := (@Search.Result R).

(** *** Without any law on the engine: no clock, no hidden input *)

Hypothesis probe_reads_only_board : forall m, reads_only_board (evaluate_move m).
Hypothesis probe_leaves_clock : forall m, leaves_clock (evaluate_move m).

Lemma sorted_moves_reads_only_board mx :
  reads_only_board (Search.sorted_moves evaluate_move mx).
Proof.
  unfold Search.sorted_moves.
  apply reads_only_board_bind; auto with search. intros b.
  apply reads_only_board_bind; auto with search.
  apply reads_only_board_for_each. intros m.
  apply reads_only_board_bind; auto with search.
Qed.

Lemma sorted_moves_leaves_clock mx :
  leaves_clock (Search.sorted_moves evaluate_move mx).
Proof.
  unfold Search.sorted_moves.
  apply leaves_clock_bind; auto with search. intros b.
  apply leaves_clock_bind; auto with search.
  apply leaves_clock_for_each. intros m.
  apply leaves_clock_bind; auto with search.
Qed.

Lemma max_loop_reads_only_board (recur : Score -> Score -> bool -> M R Result) :
  (forall a b mx, reads_only_board (recur a b mx)) ->
  forall moves best bm alpha beta,
    reads_only_board (Search.max_loop recur moves best bm alpha beta).
Proof.
  intros Hrec. induction moves as [|m rest IH]; intros; simpl.
  - auto with search.
  - apply reads_only_board_bind; auto with search. intros _.
    apply reads_only_board_bind; auto. intros [eval o].
    apply reads_only_board_bind; auto with search. intros _.
    destruct (Sc.gtb eval best); destruct (Sc.leb _ _); auto with search.
Qed.

Lemma min_loop_reads_only_board (recur : Score -> Score -> bool -> M R Result) :
  (forall a b mx, reads_only_board (recur a b mx)) ->
  forall moves best bm alpha beta,
    reads_only_board (Search.min_loop recur moves best bm alpha beta).
Proof.
  intros Hrec. induction moves as [|m rest IH]; intros; simpl.
  - auto with search.
  - apply reads_only_board_bind; auto with search. intros _.
    apply reads_only_board_bind; auto. intros [eval o].
    apply reads_only_board_bind; auto with search. intros _.
    destruct (Sc.ltb eval best); destruct (Sc.leb _ _); auto with search.
Qed.

Lemma minimax_reads_only_board depth :
  forall alpha beta mx, reads_only_board (minimax depth alpha beta mx).
Proof.
  induction depth as [|d IH]; intros; simpl.
  - apply reads_only_board_bind; auto with search.
  - apply reads_only_board_bind; auto with search. intros b.
    destruct (is_game_over b); auto with search.
    apply reads_only_board_bind;
      [apply sorted_moves_reads_only_board|]. intros moves.
    destruct mx.
    + apply max_loop_reads_only_board, IH.
    + apply min_loop_reads_only_board, IH.
Qed.

Lemma max_loop_leaves_clock (recur : Score -> Score -> bool -> M R Result) :
  (forall a b mx, leaves_clock (recur a b mx)) ->
  forall moves best bm alpha beta,
    leaves_clock (Search.max_loop recur moves best bm alpha beta).
Proof.
  intros Hrec. induction moves as [|m rest IH]; intros; simpl.
  - auto with search.
  - apply leaves_clock_bind; auto with search. intros _.
    apply leaves_clock_bind; auto. intros [eval o].
    apply leaves_clock_bind; auto with search. intros _.
    destruct (Sc.gtb eval best); destruct (Sc.leb _ _); auto with search.
Qed.

Lemma min_loop_leaves_clock (recur : Score -> Score -> bool -> M R Result) :
  (forall a b mx, leaves_clock (recur a b mx)) ->
  forall moves best bm alpha beta,
    leaves_clock (Search.min_loop recur moves best bm alpha beta).
Proof.
  intros Hrec. induction moves as [|m rest IH]; intros; simpl.
  - auto with search.
  - apply leaves_clock_bind; auto with search. intros _.
    apply leaves_clock_bind; auto. intros [eval o].
    apply leaves_clock_bind; auto with search. intros _.
    destruct (Sc.ltb eval best); destruct (Sc.leb _ _); auto with search.
Qed.

Lemma minimax_leaves_clock depth :
  forall alpha beta mx, leaves_clock (minimax depth alpha beta mx).
Proof.
  induction depth as [|d IH]; intros; simpl.
  - apply leaves_clock_bind; auto with search.
  - apply leaves_clock_bind; auto with search. intros b.
    destruct (is_game_over b); auto with search.
    apply leaves_clock_bind; [apply sorted_moves_leaves_clock|]. intros moves.
    destruct mx.
    + apply max_loop_leaves_clock, IH.
    + apply min_loop_leaves_clock, IH.
Qed.

(** *** With [pop] undoing [push]: the position is handed back *)

Variable move_key : Board R -> Move R -> Q.
Hypothesis Hpop : pop_restores R.
Hypothesis probe_pure : forall m, pure_on (evaluate_move m) (fun b => move_key b m).

Abbreviation alphabeta := (Search.alphabeta evaluate_board move_key).

Lemma sorted_moves_pure mx :
  pure_on (Search.sorted_moves evaluate_move mx)
          (fun b => Search.ordered_moves move_key b mx).
Proof.
  intros w. unfold Search.sorted_moves, Search.ordered_moves, bind, the_board.
  rewrite (pure_on_for_each _ (fun b m => (move_key b m, m))).
  - reflexivity.
  - intros m w'. unfold bind. rewrite probe_pure. reflexivity.
Qed.

Lemma max_loop_pure (recur : Score -> Score -> bool -> M R Result)
    (recur' : Board R -> Score -> Score -> bool -> Result) :
  (forall a b mx, pure_on (recur a b mx) (fun bd => recur' bd a b mx)) ->
  forall moves best bm alpha beta,
    pure_on (Search.max_loop recur moves best bm alpha beta)
            (fun bd => Search.ab_max_loop recur' bd moves best bm alpha beta).
Proof.
  intros Hrec. induction moves as [|m rest IH]; intros best bm alpha beta w.
  - reflexivity.
  - destruct w as [b t]. simpl. unfold bind at 1 2 3.
    unfold board_push, board_pop. simpl. rewrite Hrec. simpl.
    destruct (recur' (push b m) alpha beta false) as [eval o]. simpl.
    rewrite Hpop.
    destruct (Sc.gtb eval best); destruct (Sc.leb _ _);
      try reflexivity; apply IH.
Qed.

Lemma min_loop_pure (recur : Score -> Score -> bool -> M R Result)
    (recur' : Board R -> Score -> Score -> bool -> Result) :
  (forall a b mx, pure_on (recur a b mx) (fun bd => recur' bd a b mx)) ->
  forall moves best bm alpha beta,
    pure_on (Search.min_loop recur moves best bm alpha beta)
            (fun bd => Search.ab_min_loop recur' bd moves best bm alpha beta).
Proof.
  intros Hrec. induction moves as [|m rest IH]; intros best bm alpha beta w.
  - reflexivity.
  - destruct w as [b t]. simpl. unfold bind at 1 2 3.
    unfold board_push, board_pop. simpl. rewrite Hrec. simpl.
    destruct (recur' (push b m) alpha beta true) as [eval o]. simpl.
    rewrite Hpop.
    destruct (Sc.ltb eval best); destruct (Sc.leb _ _);
      try reflexivity; apply IH.
Qed.

(** The search of the source, run on a world, is [alphabeta] of the
    board, and the world comes back unchanged. *)
Lemma minimax_pure depth :
  forall alpha beta mx,
    pure_on (minimax depth alpha beta mx)
            (fun b => alphabeta depth b alpha beta mx).
Proof.
  induction depth as [|d IH]; intros alpha beta mx w.
  - reflexivity.
  - simpl. unfold bind at 1. unfold the_board at 1.
    destruct (is_game_over (w_board w)); [reflexivity|].
    unfold bind. rewrite sorted_moves_pure.
    destruct mx.
    + apply (max_loop_pure _ (fun bd a b mx => alphabeta d bd a b mx)).
      intros; apply IH.
    + apply (min_loop_pure _ (fun bd a b mx => alphabeta d bd a b mx)).
      intros; apply IH.
Qed.

End SearchRuns.

(** ** Pruning does not change the result *)

Section Scores.

Lemma score_trichotomy (alpha beta v : Score) :
  Sc.le v alpha \/ (Sc.lt alpha v /\ Sc.lt v beta) \/ Sc.le beta v.
Proof. score_solve. Qed.

Lemma within_leaf (alpha beta v : Score) : within alpha beta v v.
Proof. score_solve. Qed.

Lemma within_start (alpha beta p a : Score) :
  Sc.lt alpha beta -> Sc.le p a -> Sc.le a alpha -> within alpha beta p a.
Proof. score_solve. Qed.

Lemma within_raise (alpha beta v pf raf : Score) :
  Sc.lt alpha v -> Sc.le v pf -> within v beta pf raf ->
  within alpha beta pf raf.
Proof. score_solve. Qed.

Lemma within_cut_high (alpha beta v r pf : Score) :
  Sc.lt alpha beta -> Sc.le beta r -> Sc.le r v -> Sc.le v pf ->
  within alpha beta pf r.
Proof. score_solve. Qed.

Lemma within_lower (alpha beta v pf raf : Score) :
  Sc.lt v beta -> Sc.le pf v -> within alpha v pf raf ->
  within alpha beta pf raf.
Proof. score_solve. Qed.

Lemma within_cut_low (alpha beta v r pf : Score) :
  Sc.lt alpha beta -> Sc.le r alpha -> Sc.le v r -> Sc.le pf v ->
  within alpha beta pf r.
Proof. score_solve. Qed.

End Scores.

Section Pruning.

Context {R : Rules}.
Variable evaluate_board : Board R -> Score.
Variable move_key : Board R -> Move R -> Q.

Abbreviation alphabeta := (Search.alphabeta evaluate_board move_key).
Abbreviation unpruned := (Search.unpruned_minimax evaluate_board move_key).
Abbreviation Result := (@Search.Result R).

(** The unpruned loops never lose what they hold. *)
Lemma unpruned_max_loop_ge (value : Board R -> Score) board moves :
  forall best bm,
    Sc.le best (fst (Search.unpruned_max_loop value board moves best bm)).
Proof.
  induction moves as [|m rest IH]; intros best bm; simpl.
  - score_solve.
  - destruct (Sc.gtb (value (push board m)) best) eqn:E.
    + specialize (IH (value (push board m)) (Some m)).
      revert IH E.
      generalize (fst (Search.unpruned_max_loop value board rest
                         (value (push board m)) (Some m))).
      generalize (value (push board m)).
      score_solve.
    + apply IH.
Qed.

Lemma unpruned_min_loop_le (value : Board R -> Score) board moves :
  forall best bm,
    Sc.le (fst (Search.unpruned_min_loop value board moves best bm)) best.
Proof.
  induction moves as [|m rest IH]; intros best bm; simpl.
  - score_solve.
  - destruct (Sc.ltb (value (push board m)) best) eqn:E.
    + specialize (IH (value (push board m)) (Some m)).
      revert IH E.
      generalize (fst (Search.unpruned_min_loop value board rest
                         (value (push board m)) (Some m))).
      generalize (value (push board m)).
      score_solve.
    + apply IH.
Qed.

(** Once the best value is the top one, nothing replaces it. *)
Lemma unpruned_max_loop_top (value : Board R -> Score) board moves bm :
  Search.unpruned_max_loop value board moves PosInf bm = (PosInf, bm).
Proof.
  induction moves as [|m rest IH]; simpl; [reflexivity|].
  destruct (value (push board m)); simpl; apply IH.
Qed.

Lemma unpruned_min_loop_bottom (value : Board R -> Score) board moves bm :
  Search.unpruned_min_loop value board moves NegInf bm = (NegInf, bm).
Proof.
  induction moves as [|m rest IH]; simpl; [reflexivity|].
  destruct (value (push board m)); simpl; apply IH.
Qed.

(** The maximizing loop with pruning against the loop without: [p] is
    what the unpruned loop holds, [a] what the pruned one holds. *)
Lemma ab_max_loop_within
    (recur : Board R -> Score -> Score -> bool -> Result)
    (value : Board R -> Score) board :
  (forall b alpha beta, Sc.lt alpha beta ->
     within alpha beta (value b) (fst (recur b alpha beta false))) ->
  forall moves p bmp a bma alpha beta,
    Sc.lt alpha beta -> Sc.le p a -> Sc.le a alpha ->
    within alpha beta
      (fst (Search.unpruned_max_loop value board moves p bmp))
      (fst (Search.ab_max_loop recur board moves a bma alpha beta)).
Proof.
  intros Hrec.
  induction moves as [|m rest IH]; intros p bmp a bma alpha beta Hab Hpa Haa.
  - simpl. apply within_start; assumption.
  - simpl.
    pose proof (Hrec (push board m) alpha beta Hab) as Hw.
    pose proof (unpruned_max_loop_ge value board rest) as Hge.
    set (v := value (push board m)) in *.
    set (r := fst (recur (push board m) alpha beta false)) in *.
    clearbody v r.
    destruct (score_trichotomy alpha beta v) as [Hlow | [[Hin1 Hin2] | Hhigh]].
    + assert (Hr : Sc.le v r /\ Sc.le r alpha) by (apply Hw; exact Hlow).
      destruct Hr as [Hvr Hra].
      assert (E1 : Sc.max alpha r = alpha)
        by (clear - Hra; score_solve).
      assert (E2 : Sc.leb beta alpha = false)
        by (clear - Hab; score_solve).
      rewrite E1, E2.
      destruct (Sc.gtb v p) eqn:Evp; destruct (Sc.gtb r a) eqn:Era;
        apply IH; try assumption;
        clear - Hvr Hra Hpa Haa Evp Era; score_solve.
    + assert (Hr : r = v) by (apply Hw; assumption). subst r.
      assert (E1 : Sc.gtb v a = true)
        by (clear - Hin1 Haa; score_solve).
      assert (E2 : Sc.gtb v p = true)
        by (clear - Hin1 Haa Hpa; score_solve).
      assert (E3 : Sc.max alpha v = v)
        by (clear - Hin1; score_solve).
      assert (E4 : Sc.leb beta v = false)
        by (clear - Hin2; score_solve).
      rewrite E1, E2, E3, E4.
      apply within_raise with (v := v); [assumption | apply Hge |].
      apply IH; [assumption | |]; clear; score_solve.
    + assert (Hr : Sc.le beta r /\ Sc.le r v) by (apply Hw; exact Hhigh).
      destruct Hr as [Hbr Hrv].
      assert (E1 : Sc.gtb r a = true)
        by (clear - Hbr Hab Haa; score_solve).
      assert (E2 : Sc.leb beta (Sc.max alpha r) = true)
        by (clear - Hbr Hab; score_solve).
      rewrite E1, E2. simpl.
      apply within_cut_high with (v := v); try assumption.
      destruct (Sc.gtb v p) eqn:Evp; [apply Hge|].
      specialize (Hge p bmp). revert Hge.
      generalize (fst (Search.unpruned_max_loop value board rest p bmp)).
      clear - Evp. score_solve.
Qed.

(** The minimizing loop, in mirror image. *)
Lemma ab_min_loop_within
    (recur : Board R -> Score -> Score -> bool -> Result)
    (value : Board R -> Score) board :
  (forall b alpha beta, Sc.lt alpha beta ->
     within alpha beta (value b) (fst (recur b alpha beta true))) ->
  forall moves p bmp a bma alpha beta,
    Sc.lt alpha beta -> Sc.le a p -> Sc.le beta a ->
    within alpha beta
      (fst (Search.unpruned_min_loop value board moves p bmp))
      (fst (Search.ab_min_loop recur board moves a bma alpha beta)).
Proof.
  intros Hrec.
  induction moves as [|m rest IH]; intros p bmp a bma alpha beta Hab Hpa Haa.
  - simpl. clear - Hab Hpa Haa. score_solve.
  - simpl.
    pose proof (Hrec (push board m) alpha beta Hab) as Hw.
    pose proof (unpruned_min_loop_le value board rest) as Hge.
    set (v := value (push board m)) in *.
    set (r := fst (recur (push board m) alpha beta true)) in *.
    clearbody v r.
    destruct (score_trichotomy alpha beta v) as [Hlow | [[Hin1 Hin2] | Hhigh]].
    + assert (Hr : Sc.le v r /\ Sc.le r alpha) by (apply Hw; exact Hlow).
      destruct Hr as [Hvr Hra].
      assert (E1 : Sc.ltb r a = true)
        by (clear - Hra Hab Haa; score_solve).
      assert (E2 : Sc.leb (Sc.min beta r) alpha = true)
        by (clear - Hra Hab; score_solve).
      rewrite E1, E2. simpl.
      apply within_cut_low with (v := v); try assumption.
      destruct (Sc.ltb v p) eqn:Evp; [apply Hge|].
      specialize (Hge p bmp). revert Hge.
      generalize (fst (Search.unpruned_min_loop value board rest p bmp)).
      clear - Evp. score_solve.
    + assert (Hr : r = v) by (apply Hw; assumption). subst r.
      assert (E1 : Sc.ltb v a = true)
        by (clear - Hin2 Haa; score_solve).
      assert (E2 : Sc.ltb v p = true)
        by (clear - Hin2 Haa Hpa; score_solve).
      assert (E3 : Sc.min beta v = v)
        by (clear - Hin2; score_solve).
      assert (E4 : Sc.leb v alpha = false)
        by (clear - Hin1; score_solve).
      rewrite E1, E2, E3, E4.
      apply within_lower with (v := v); [assumption | apply Hge |].
      apply IH; [assumption | |]; clear; score_solve.
    + assert (Hr : Sc.le beta r /\ Sc.le r v) by (apply Hw; exact Hhigh).
      destruct Hr as [Hbr Hrv].
      assert (E1 : Sc.min beta r = beta)
        by (clear - Hbr; score_solve).
      assert (E2 : Sc.leb beta alpha = false)
        by (clear - Hab; score_solve).
      rewrite E1, E2.
      destruct (Sc.ltb v p) eqn:Evp; destruct (Sc.ltb r a) eqn:Era;
        apply IH; try assumption;
        clear - Hbr Hrv Hpa Haa Evp Era; score_solve.
Qed.

(** A node searched with window [(alpha, beta)], against its value. *)
Lemma alphabeta_within depth :
  forall board alpha beta mx,
    Sc.lt alpha beta ->
    within alpha beta (fst (unpruned depth board mx))
                      (fst (alphabeta depth board alpha beta mx)).
Proof.
  induction depth as [|d IH]; intros board alpha beta mx Hab.
  - simpl. apply within_leaf.
  - simpl. destruct (is_game_over board); [apply within_leaf|].
    destruct mx.
    + apply (ab_max_loop_within (alphabeta d)
               (fun b => fst (unpruned d b false))).
      * intros; apply IH; assumption.
      * assumption.
      * clear; score_solve.
      * clear; score_solve.
    + apply (ab_min_loop_within (alphabeta d)
               (fun b => fst (unpruned d b true))).
      * intros; apply IH; assumption.
      * assumption.
      * clear; score_solve.
      * clear; score_solve.
Qed.

(** At the root the window is full: [alpha] is the best value so far,
    and the pruned loop keeps value and move of the unpruned one. *)
Lemma ab_max_loop_root
    (recur : Board R -> Score -> Score -> bool -> Result)
    (value : Board R -> Score) board :
  (forall b alpha beta, Sc.lt alpha beta ->
     within alpha beta (value b) (fst (recur b alpha beta false))) ->
  forall moves a bm,
    Sc.lt a PosInf ->
    Search.ab_max_loop recur board moves a bm a PosInf
    = Search.unpruned_max_loop value board moves a bm.
Proof.
  intros Hrec. induction moves as [|m rest IH]; intros a bm Ha.
  - reflexivity.
  - cbn [Search.ab_max_loop Search.unpruned_max_loop].
    pose proof (Hrec (push board m) a PosInf Ha) as Hw.
    set (v := value (push board m)) in *.
    set (r := fst (recur (push board m) a PosInf false)) in *.
    clearbody v r.
    destruct (score_trichotomy a PosInf v) as [Hlow | [[Hin1 Hin2] | Hhigh]].
    + assert (Hr : Sc.le v r /\ Sc.le r a) by (apply Hw; exact Hlow).
      destruct Hr as [Hvr Hra].
      assert (E1 : Sc.gtb r a = false) by (clear - Hra; score_solve).
      assert (E2 : Sc.gtb v a = false) by (clear - Hlow; score_solve).
      assert (E3 : Sc.max a r = a) by (clear - Hra; score_solve).
      assert (E4 : Sc.leb PosInf a = false) by (clear - Ha; score_solve).
      rewrite E1, E2, E3, E4. apply IH, Ha.
    + assert (Hr : r = v) by (apply Hw; assumption). subst r.
      assert (E1 : Sc.gtb v a = true) by (clear - Hin1; score_solve).
      assert (E3 : Sc.max a v = v) by (clear - Hin1; score_solve).
      assert (E4 : Sc.leb PosInf v = false) by (clear - Hin2; score_solve).
      rewrite E1, E3, E4. apply IH, Hin2.
    + assert (Hr : Sc.le PosInf r /\ Sc.le r v) by (apply Hw; exact Hhigh).
      destruct Hr as [Hbr Hrv].
      assert (Er : r = PosInf) by (clear - Hbr; score_solve).
      assert (Ev : v = PosInf) by (clear - Hhigh; score_solve).
      subst r v.
      assert (E1 : Sc.gtb PosInf a = true) by (clear - Ha; score_solve).
      assert (E3 : Sc.max a PosInf = PosInf) by (clear - Ha; score_solve).
      rewrite E1, E3. simpl.
      rewrite unpruned_max_loop_top. reflexivity.
Qed.

Lemma ab_min_loop_root
    (recur : Board R -> Score -> Score -> bool -> Result)
    (value : Board R -> Score) board :
  (forall b alpha beta, Sc.lt alpha beta ->
     within alpha beta (value b) (fst (recur b alpha beta true))) ->
  forall moves a bm,
    Sc.lt NegInf a ->
    Search.ab_min_loop recur board moves a bm NegInf a
    = Search.unpruned_min_loop value board moves a bm.
Proof.
  intros Hrec. induction moves as [|m rest IH]; intros a bm Ha.
  - reflexivity.
  - cbn [Search.ab_min_loop Search.unpruned_min_loop].
    pose proof (Hrec (push board m) NegInf a Ha) as Hw.
    set (v := value (push board m)) in *.
    set (r := fst (recur (push board m) NegInf a true)) in *.
    clearbody v r.
    destruct (score_trichotomy NegInf a v) as [Hlow | [[Hin1 Hin2] | Hhigh]].
    + assert (Hr : Sc.le v r /\ Sc.le r NegInf) by (apply Hw; exact Hlow).
      destruct Hr as [Hvr Hra].
      assert (Er : r = NegInf) by (clear - Hra; score_solve).
      assert (Ev : v = NegInf) by (clear - Hlow; score_solve).
      subst r v.
      assert (E1 : Sc.ltb NegInf a = true) by (clear - Ha; score_solve).
      assert (E3 : Sc.min a NegInf = NegInf) by (clear - Ha; score_solve).
      rewrite E1, E3. simpl.
      rewrite unpruned_min_loop_bottom. reflexivity.
    + assert (Hr : r = v) by (apply Hw; assumption). subst r.
      assert (E1 : Sc.ltb v a = true) by (clear - Hin2; score_solve).
      assert (E3 : Sc.min a v = v) by (clear - Hin2; score_solve).
      assert (E4 : Sc.leb v NegInf = false) by (clear - Hin1; score_solve).
      rewrite E1, E3, E4. apply IH, Hin1.
    + assert (Hr : Sc.le a r /\ Sc.le r v) by (apply Hw; exact Hhigh).
      destruct Hr as [Hbr Hrv].
      assert (E1 : Sc.ltb r a = false) by (clear - Hbr; score_solve).
      assert (E2 : Sc.ltb v a = false) by (clear - Hhigh; score_solve).
      assert (E3 : Sc.min a r = a) by (clear - Hbr; score_solve).
      assert (E4 : Sc.leb a NegInf = false) by (clear - Ha; score_solve).
      rewrite E1, E2, E3, E4. apply IH, Ha.
Qed.

(** With the full window, value and move are those of the unpruned
    search. *)
Lemma alphabeta_full_window depth board mx :
  alphabeta depth board NegInf PosInf mx = unpruned depth board mx.
Proof.
  destruct depth as [|d]; [reflexivity|].
  simpl. destruct (is_game_over board); [reflexivity|].
  destruct mx.
  - apply (ab_max_loop_root (alphabeta d) (fun b => fst (unpruned d b false))).
    + intros; apply alphabeta_within; assumption.
    + reflexivity.
  - apply (ab_min_loop_root (alphabeta d) (fun b => fst (unpruned d b true))).
    + intros; apply alphabeta_within; assumption.
    + reflexivity.
Qed.

End Pruning.

(** ** The first program: probe, search and chooser *)

Section BlackRookFacts.

Context {R : Rules}.

Lemma BlackRook_probe_reads_only_board (m : Move R) :
  reads_only_board (BlackRook.evaluate_move m).
Proof.
  unfold BlackRook.evaluate_move.
  apply reads_only_board_bind; auto with search. intros _.
  apply reads_only_board_bind; auto with search. intros b.
  apply reads_only_board_bind; auto with search.
Qed.

Lemma BlackRook_probe_leaves_clock (m : Move R) :
  leaves_clock (BlackRook.evaluate_move m).
Proof.
  unfold BlackRook.evaluate_move.
  apply leaves_clock_bind; auto with search. intros _.
  apply leaves_clock_bind; auto with search. intros b.
  apply leaves_clock_bind; auto with search.
Qed.

Lemma WhiteRook_probe_reads_only_board (m : Move R) :
  reads_only_board (WhiteRook.evaluate_move m).
Proof.
  unfold WhiteRook.evaluate_move.
  apply reads_only_board_bind; auto with search. intros _.
  apply reads_only_board_bind; auto with search. intros b.
  apply reads_only_board_bind; auto with search.
Qed.

Hypothesis Hpop : pop_restores R.

Lemma BlackRook_probe_pure (m : Move R) :
  pure_on (BlackRook.evaluate_move m) (fun b => BlackRook.move_key b m).
Proof.
  intros [b t]. unfold BlackRook.move_key, BlackRook.evaluate_move.
  unfold bind, board_push, board_pop, the_board, ret. simpl.
  rewrite Hpop. reflexivity.
Qed.

Lemma WhiteRook_probe_pure (m : Move R) :
  pure_on (WhiteRook.evaluate_move m) (fun b => WhiteRook.move_key b m).
Proof.
  intros [b t]. unfold WhiteRook.move_key, WhiteRook.evaluate_move.
  unfold bind, board_push, board_pop, the_board, ret. simpl.
  rewrite Hpop. reflexivity.
Qed.

Lemma BlackRook_minimax_pure depth alpha beta mx :
  pure_on (BlackRook.minimax (R:=R) depth alpha beta mx)
          (fun b => Search.alphabeta BlackRook.evaluate_board
                      BlackRook.move_key depth b alpha beta mx).
Proof.
  apply minimax_pure; [exact Hpop | exact BlackRook_probe_pure].
Qed.

Lemma WhiteRook_minimax_pure depth alpha beta mx :
  pure_on (WhiteRook.minimax (R:=R) depth alpha beta mx)
          (fun b => Search.alphabeta WhiteRook.evaluate_board
                      WhiteRook.move_key depth b alpha beta mx).
Proof.
  apply minimax_pure; [exact Hpop | exact WhiteRook_probe_pure].
Qed.

(** The scan for a mate in one hands the board back and returns the
    first legal move that mates. *)
Lemma mate_scan_pure (moves : list (Move R)) :
  pure_on (BlackRook.mate_scan moves)
          (fun b => List.find (BlackRook.mates_at_once b) moves).
Proof.
  induction moves as [|m rest IH]; intros [b t].
  - reflexivity.
  - simpl. unfold bind at 1 2. unfold board_push, the_board. simpl.
    unfold BlackRook.mates_at_once at 1.
    destruct (is_checkmate (push b m)).
    + unfold bind, board_pop, ret. simpl. rewrite Hpop. reflexivity.
    + unfold bind at 1. unfold board_pop. simpl. rewrite Hpop. apply IH.
Qed.

End BlackRookFacts.

Section BlackRookChooser.

Context {R : Rules}.
Hypothesis Hpop : pop_restores R.

Abbreviation search_at d b :=
  (Search.alphabeta (R:=R) BlackRook.evaluate_board BlackRook.move_key d b
     NegInf PosInf (color_eqb (turn b) BLACK)).

(** One round of the deepening loop: a whole search, then the tests. *)
Lemma deepening_step clock start_time rounds cd bm (w : World R) :
  BlackRook.deepening clock start_time (S rounds) cd bm w
  = let b := w_board w in
    let found := snd (search_at cd b) in
    if is_checkmate b || is_stalemate b then (found, w)
    else if Qltb 2 (clock (w_ticks w) - start_time)
         then (found, mkWorld b (S (w_ticks w)))
         else BlackRook.deepening clock start_time rounds (S cd) found
                (mkWorld b (S (w_ticks w))).
Proof.
  cbv zeta. cbn [BlackRook.deepening]. unfold bind at 1.
  unfold the_board at 1. unfold bind at 1.
  rewrite (BlackRook_minimax_pure Hpop).
  destruct (Search.alphabeta _ _ _ _ _ _ _) as [v found].
  cbn [snd]. unfold bind at 1. unfold the_board at 1. cbn [w_board].
  destruct (is_checkmate (w_board w) || is_stalemate (w_board w));
    [reflexivity|].
  unfold bind at 1. unfold time_time at 1.
  destruct (Qltb 2 (clock (w_ticks w) - start_time)); reflexivity.
Qed.

Lemma deepening_board clock start_time rounds :
  forall cd bm (w : World R),
    w_board (snd (BlackRook.deepening clock start_time rounds cd bm w))
    = w_board w.
Proof.
  induction rounds as [|r IH]; intros cd bm w; [reflexivity|].
  rewrite deepening_step. cbv zeta.
  destruct (is_checkmate (w_board w) || is_stalemate (w_board w));
    [reflexivity|].
  destruct (Qltb _ _); [reflexivity|].
  rewrite IH. reflexivity.
Qed.

(** The loop returns the move of a search that ran to its end, at one of
    the depths it was asked to try, and reads the clock at most once per
    depth tried. *)
Lemma deepening_runs clock start_time rounds :
  forall cd bm (w : World R),
    (1 <= rounds)%nat ->
    exists d,
      (cd <= d < cd + rounds)%nat
      /\ fst (BlackRook.deepening clock start_time rounds cd bm w)
         = snd (search_at d (w_board w))
      /\ (w_ticks w
          <= w_ticks (snd (BlackRook.deepening clock start_time rounds cd bm w))
          <= w_ticks w + (d - cd) + 1)%nat.
Proof.
  induction rounds as [|r IH]; intros cd bm w Hr; [lia|].
  rewrite deepening_step. cbv zeta.
  destruct (is_checkmate (w_board w) || is_stalemate (w_board w)).
  { exists cd. simpl. repeat split; lia. }
  destruct (Qltb _ _).
  { exists cd. simpl. repeat split; lia. }
  destruct r as [|r'].
  { exists cd. simpl. repeat split; lia. }
  destruct (IH (S cd) (snd (search_at cd (w_board w)))
               (mkWorld (w_board w) (S (w_ticks w)))) as (d & Hd & Hm & Ht);
    [lia|].
  exists d. cbn [w_board w_ticks] in *. repeat split; try lia.
  exact Hm.
Qed.

Lemma get_ai_move_run clock depth (w : World R) :
  BlackRook.get_ai_move clock depth w
  = let b := w_board w in
    let w' := mkWorld b (S (w_ticks w)) in
    match List.find (BlackRook.mates_at_once b) (legal_moves b) with
    | Some move => (Some move, w')
    | None => BlackRook.deepening clock (clock (w_ticks w)) depth 1 None w'
    end.
Proof.
  unfold BlackRook.get_ai_move. unfold bind at 1. unfold time_time at 1.
  unfold bind at 1. unfold the_board at 1. cbn [w_board].
  unfold bind at 1. rewrite (mate_scan_pure Hpop). cbn [w_board].
  cbv zeta. destruct (List.find _ _); reflexivity.
Qed.

Lemma get_ai_move_board clock depth (w : World R) :
  w_board (snd (BlackRook.get_ai_move clock depth w)) = w_board w.
Proof.
  rewrite get_ai_move_run. cbv zeta.
  destruct (List.find _ _); [reflexivity|].
  rewrite deepening_board. reflexivity.
Qed.

End BlackRookChooser.

(** ** When the search names a move *)

(** The sort is stable in both directions. *)
Example sort_ascending_is_stable :
  sort_keyed false [(2%Q, "a"); (1%Q, "b"); (2%Q, "c"); (1%Q, "d")]
  = ["b"; "d"; "a"; "c"].
Proof. reflexivity. Qed.

Example sort_descending_is_stable :
  sort_keyed true [(2%Q, "a"); (1%Q, "b"); (2%Q, "c"); (1%Q, "d")]
  = ["a"; "c"; "b"; "d"].
Proof. reflexivity. Qed.

Section SortFacts.

Context {A : Type}.

Lemma insert_keyed_length reverse (x : Q * A) l :
  length (insert_keyed reverse x l) = S (length l).
Proof.
  induction l as [|y rest IH]; simpl; [reflexivity|].
  destruct (stays_in_front reverse (fst x) (fst y)); simpl; congruence.
Qed.

Lemma sort_keyed_length reverse (l : list (Q * A)) :
  length (sort_keyed reverse l) = length l.
Proof.
  unfold sort_keyed. rewrite length_map.
  induction l as [|x rest IH]; simpl; [reflexivity|].
  rewrite insert_keyed_length, IH. reflexivity.
Qed.

End SortFacts.

Section MoveNamed.

Context {R : Rules}.
Variable evaluate_board : Board R -> Score.
Variable move_key : Board R -> Move R -> Q.

Abbreviation alphabeta := (Search.alphabeta evaluate_board move_key).
Abbreviation Result := (@Search.Result R).

Lemma ordered_moves_nonempty board mx :
  legal_moves board <> [] -> Search.ordered_moves move_key board mx <> [].
Proof.
  intros H E. apply (f_equal (@length _)) in E.
  unfold Search.ordered_moves in E.
  rewrite sort_keyed_length, length_map in E.
  destruct (legal_moves board); [congruence | discriminate].
Qed.

Lemma ab_max_loop_keeps
    (recur : Board R -> Score -> Score -> bool -> Result) board :
  (forall b alpha beta mx, Sc.is_fin (fst (recur b alpha beta mx))) ->
  forall moves best bm alpha beta,
    Sc.is_fin best -> bm <> None ->
    Sc.is_fin (fst (Search.ab_max_loop recur board moves best bm alpha beta))
    /\ snd (Search.ab_max_loop recur board moves best bm alpha beta) <> None.
Proof.
  intros Hrec. induction moves as [|m rest IH]; intros best bm alpha beta Hb Hm.
  - simpl. auto.
  - simpl.
    destruct (Sc.gtb _ best); destruct (Sc.leb beta _); simpl;
      try (apply IH); auto; try discriminate.
Qed.

Lemma ab_min_loop_keeps
    (recur : Board R -> Score -> Score -> bool -> Result) board :
  (forall b alpha beta mx, Sc.is_fin (fst (recur b alpha beta mx))) ->
  forall moves best bm alpha beta,
    Sc.is_fin best -> bm <> None ->
    Sc.is_fin (fst (Search.ab_min_loop recur board moves best bm alpha beta))
    /\ snd (Search.ab_min_loop recur board moves best bm alpha beta) <> None.
Proof.
  intros Hrec. induction moves as [|m rest IH]; intros best bm alpha beta Hb Hm.
  - simpl. auto.
  - simpl.
    destruct (Sc.ltb _ best); destruct (Sc.leb _ alpha); simpl;
      try (apply IH); auto; try discriminate.
Qed.

(** From the start of a loop, the first move is taken at once. *)
Lemma ab_max_loop_first
    (recur : Board R -> Score -> Score -> bool -> Result) board :
  (forall b alpha beta mx, Sc.is_fin (fst (recur b alpha beta mx))) ->
  forall m rest bm alpha beta,
    Sc.is_fin (fst (Search.ab_max_loop recur board (m :: rest) NegInf bm
                      alpha beta))
    /\ snd (Search.ab_max_loop recur board (m :: rest) NegInf bm alpha beta)
       <> None.
Proof.
  intros Hrec m rest bm alpha beta. simpl.
  destruct (Hrec (push board m) alpha beta false) as [z Hz]. rewrite Hz.
  simpl. destruct (Sc.leb beta _); simpl.
  - split; [eexists; reflexivity | discriminate].
  - apply ab_max_loop_keeps;
      [exact Hrec | eexists; reflexivity | discriminate].
Qed.

Lemma ab_min_loop_first
    (recur : Board R -> Score -> Score -> bool -> Result) board :
  (forall b alpha beta mx, Sc.is_fin (fst (recur b alpha beta mx))) ->
  forall m rest bm alpha beta,
    Sc.is_fin (fst (Search.ab_min_loop recur board (m :: rest) PosInf bm
                      alpha beta))
    /\ snd (Search.ab_min_loop recur board (m :: rest) PosInf bm alpha beta)
       <> None.
Proof.
  intros Hrec m rest bm alpha beta. simpl.
  destruct (Hrec (push board m) alpha beta true) as [z Hz]. rewrite Hz.
  simpl. destruct (Sc.leb _ alpha); simpl.
  - split; [eexists; reflexivity | discriminate].
  - apply ab_min_loop_keeps;
      [exact Hrec | eexists; reflexivity | discriminate].
Qed.

Hypothesis Hlive : live_has_moves R.
Hypothesis Hfin : forall b, Sc.is_fin (evaluate_board b).

Lemma alphabeta_fin depth :
  forall board alpha beta mx,
    Sc.is_fin (fst (alphabeta depth board alpha beta mx)).
Proof.
  induction depth as [|d IH]; intros board alpha beta mx; simpl.
  - apply Hfin.
  - destruct (is_game_over board) eqn:E; [apply Hfin|].
    pose proof (ordered_moves_nonempty board mx (Hlive board E)) as Hne.
    destruct (Search.ordered_moves move_key board mx) as [|m rest];
      [congruence|].
    destruct mx.
    + apply ab_max_loop_first. intros; apply IH.
    + apply ab_min_loop_first. intros; apply IH.
Qed.

(** A search of depth 1 or more names a move exactly when the game is
    not over. *)
Lemma alphabeta_names_a_move depth board alpha beta mx :
  is_game_over board = false ->
  snd (alphabeta (S depth) board alpha beta mx) <> None.
Proof.
  intros E. simpl. rewrite E.
  pose proof (ordered_moves_nonempty board mx (Hlive board E)) as Hne.
  destruct (Search.ordered_moves move_key board mx) as [|m rest];
    [congruence|].
  destruct mx.
  - apply ab_max_loop_first. intros; apply alphabeta_fin.
  - apply ab_min_loop_first. intros; apply alphabeta_fin.
Qed.

End MoveNamed.

Section NoMove.

Context {R : Rules}.
Variable evaluate_board : Board R -> Score.
Variable move_key : Board R -> Move R -> Q.

Lemma alphabeta_game_over depth board alpha beta mx :
  is_game_over board = true ->
  snd (Search.alphabeta evaluate_board move_key depth board alpha beta mx)
  = None.
Proof.
  intros E. destruct depth; simpl; [reflexivity|]. rewrite E. reflexivity.
Qed.

Lemma find_none_iff {A} (f : A -> bool) (l : list A) :
  List.find f l = None <-> (forall x, In x l -> f x = false).
Proof.
  split.
  - apply List.find_none.
  - induction l as [|x rest IH]; intros H; simpl; [reflexivity|].
    rewrite (H x (or_introl eq_refl)). apply IH.
    intros y Hy. apply H. right. exact Hy.
Qed.

Lemma BlackRook_evaluate_board_fin (b : Board R) :
  Sc.is_fin (BlackRook.evaluate_board b).
Proof.
  unfold BlackRook.evaluate_board, Sc.is_fin.
  repeat match goal with
         | |- context [if ?c then _ else _] => destruct c
         | |- context [match ?c with Some _ => _ | None => _ end] => destruct c
         end; eexists; reflexivity.
Qed.

End NoMove.

(** * The claims *)

(** ** C1: pruning *)

(** C1.  Called with the full window (alpha = -inf, beta = +inf),
    [minimax] of lines 164-198 returns the value and the move of the
    minimax search without pruning over the same tree: same evaluator, same
    order of the moves, ties kept by the move found first.  The engine is
    any one whose [pop] undoes [push]. *)
Theorem pruning_keeps_value_and_move (R : Rules) (Hpop : pop_restores R)
    (depth : nat) (maximizing_player : bool) (w : World R) :
  fst (BlackRook.minimax depth NegInf PosInf maximizing_player w)
  = Search.unpruned_minimax BlackRook.evaluate_board BlackRook.move_key
      depth (w_board w) maximizing_player.
Proof.
  rewrite (BlackRook_minimax_pure Hpop). cbn [fst].
  apply alphabeta_full_window.
Qed.

Lemma pruning_keeps_value_and_move_witness :
  fst (BlackRook.minimax (R:=KR.rules) 2 NegInf PosInf true
         (mkWorld (R:=KR.rules) Scenes.rook_hunt 0))
  = Search.unpruned_minimax (R:=KR.rules) BlackRook.evaluate_board
      BlackRook.move_key 2 Scenes.rook_hunt true.
Proof.
  apply (pruning_keeps_value_and_move KR.rules).
  intros [p s] m. reflexivity.
Defined.

(** ** C7: the position is handed back *)

(** C7.  [minimax], [evaluate_move] and [get_ai_move] of the first program
    leave the board object as they found it, whatever the depth, the
    window, the cutoffs taken or the early return on a mate in one; the
    search and the probe leave the whole world as it was.  The engine is
    any one whose [pop] undoes [push]. *)
Theorem search_hands_position_back (R : Rules) (Hpop : pop_restores R)
    (depth : nat) (alpha beta : Score) (maximizing_player : bool)
    (move : Move R) (clock : nat -> Q) (max_depth : nat) (w : World R) :
  snd (BlackRook.minimax depth alpha beta maximizing_player w) = w
  /\ snd (BlackRook.evaluate_move move w) = w
  /\ w_board (snd (BlackRook.get_ai_move clock max_depth w)) = w_board w.
Proof.
  split; [|split].
  - rewrite (BlackRook_minimax_pure Hpop). reflexivity.
  - rewrite (BlackRook_probe_pure Hpop). reflexivity.
  - apply get_ai_move_board, Hpop.
Qed.

Lemma search_hands_position_back_witness :
  let w := mkWorld (R:=KR.rules) Scenes.rook_hunt 0 in
  snd (BlackRook.minimax 2 (Fin (-5)) (Fin 40) true w) = w
  /\ snd (BlackRook.evaluate_move (R:=KR.rules) (KR.mkMv 63 7) w) = w
  /\ w_board (snd (BlackRook.get_ai_move Scenes.still_clock 2 w)) = w_board w.
Proof.
  intros w.
  apply (search_hands_position_back KR.rules).
  intros [p s] m. reflexivity.
Defined.

(** ** C10: determinism *)

Section Alike.

Context {R : Rules}.
Variable same : Board R -> Board R -> Prop.
Hypothesis Hsame : alike_to_the_engine same.

Lemma pieces_alike (b1 b2 : Board R) pt c :
  same b1 b2 -> pieces b1 pt c = pieces b2 pt c.
Proof.
  intros H. unfold pieces. apply List.filter_ext. intros sq.
  rewrite (same_piece_at same Hsame b1 b2 sq H). reflexivity.
Qed.

Lemma BlackRook_evaluate_board_alike (b1 b2 : Board R) :
  same b1 b2 -> BlackRook.evaluate_board b1 = BlackRook.evaluate_board b2.
Proof.
  intros H. unfold BlackRook.evaluate_board, find_rook.
  rewrite (same_is_checkmate same Hsame b1 b2 H),
    (same_is_stalemate same Hsame b1 b2 H),
    (same_turn same Hsame b1 b2 H),
    (same_is_check same Hsame b1 b2 H),
    (pieces_alike b1 b2 ROOK BLACK H),
    (same_king same Hsame b1 b2 WHITE H),
    (same_king same Hsame b1 b2 BLACK H).
  reflexivity.
Qed.

Lemma BlackRook_move_key_alike (b1 b2 : Board R) (m : Move R) :
  same b1 b2 -> BlackRook.move_key b1 m = BlackRook.move_key b2 m.
Proof.
  intros H. apply (same_push same Hsame b1 b2 m) in H.
  unfold BlackRook.move_key, BlackRook.evaluate_move.
  unfold bind, board_push, board_pop, the_board, ret.
  cbn [fst snd w_board w_ticks].
  rewrite (same_is_checkmate same Hsame _ _ H),
    (same_is_check same Hsame _ _ H),
    (same_is_capture same Hsame _ _ m H),
    (same_is_castling same Hsame _ _ m H),
    (same_turn same Hsame _ _ H),
    (same_piece_at same Hsame _ _ (to_square m) H).
  reflexivity.
Qed.

Abbreviation first_search :=
  (Search.alphabeta (R:=R) BlackRook.evaluate_board BlackRook.move_key).

Lemma ordered_moves_alike (b1 b2 : Board R) mx :
  same b1 b2 ->
  Search.ordered_moves BlackRook.move_key b1 mx
  = Search.ordered_moves BlackRook.move_key b2 mx.
Proof.
  intros H. unfold Search.ordered_moves.
  rewrite (same_legal_moves same Hsame b1 b2 H). f_equal.
  apply List.map_ext. intros m.
  rewrite (BlackRook_move_key_alike b1 b2 m H). reflexivity.
Qed.

Lemma ab_max_loop_alike
    (recur : Board R -> Score -> Score -> bool -> Search.Result)
    (b1 b2 : Board R) :
  (forall m alpha beta mx,
      recur (push b1 m) alpha beta mx = recur (push b2 m) alpha beta mx) ->
  forall moves best bm alpha beta,
    Search.ab_max_loop recur b1 moves best bm alpha beta
    = Search.ab_max_loop recur b2 moves best bm alpha beta.
Proof.
  intros Hrec. induction moves as [|m rest IH]; intros best bm alpha beta.
  - reflexivity.
  - cbn [Search.ab_max_loop]. rewrite Hrec.
    destruct (Sc.gtb _ best); cbv zeta;
      destruct (Sc.leb beta _); try reflexivity; apply IH.
Qed.

Lemma ab_min_loop_alike
    (recur : Board R -> Score -> Score -> bool -> Search.Result)
    (b1 b2 : Board R) :
  (forall m alpha beta mx,
      recur (push b1 m) alpha beta mx = recur (push b2 m) alpha beta mx) ->
  forall moves best bm alpha beta,
    Search.ab_min_loop recur b1 moves best bm alpha beta
    = Search.ab_min_loop recur b2 moves best bm alpha beta.
Proof.
  intros Hrec. induction moves as [|m rest IH]; intros best bm alpha beta.
  - reflexivity.
  - cbn [Search.ab_min_loop]. rewrite Hrec.
    destruct (Sc.ltb _ best); cbv zeta;
      destruct (Sc.leb _ alpha); try reflexivity; apply IH.
Qed.

Lemma first_search_alike depth :
  forall (b1 b2 : Board R) alpha beta mx,
    same b1 b2 ->
    first_search depth b1 alpha beta mx = first_search depth b2 alpha beta mx.
Proof.
  induction depth as [|d IH]; intros b1 b2 alpha beta mx H.
  - simpl. rewrite (BlackRook_evaluate_board_alike b1 b2 H). reflexivity.
  - cbn [Search.alphabeta].
    rewrite (same_is_game_over same Hsame b1 b2 H),
      (BlackRook_evaluate_board_alike b1 b2 H),
      (ordered_moves_alike b1 b2 mx H).
    destruct (is_game_over b2); [reflexivity|].
    destruct mx.
    + apply ab_max_loop_alike. intros m a b' mx'.
      apply IH, (same_push same Hsame), H.
    + apply ab_min_loop_alike. intros m a b' mx'.
      apply IH, (same_push same Hsame), H.
Qed.

End Alike.

(** C10, as amended.  The result of [minimax] depends on the depth, the
    window, the maximizing flag and on what the rules engine answers about
    the board, now and after any sequence of moves: two boards that the
    engine answers alike (same turn, legal moves in the same order,
    checkmate, stalemate, game over, check, captures, castling, pieces and
    kings, and alike again after every move) give the same score and the
    same move, whatever else differs between the two board objects and
    however many times the clock was read before. *)
Theorem minimax_agrees_on_boards_alike_to_the_engine (R : Rules)
    (Hpop : pop_restores R) (same : Board R -> Board R -> Prop)
    (Hsame : alike_to_the_engine same)
    (depth : nat) (alpha beta : Score) (maximizing_player : bool)
    (w1 w2 : World R) :
  same (w_board w1) (w_board w2) ->
  fst (BlackRook.minimax depth alpha beta maximizing_player w1)
  = fst (BlackRook.minimax depth alpha beta maximizing_player w2).
Proof.
  intros H. rewrite !(BlackRook_minimax_pure Hpop). cbn [fst].
  apply (first_search_alike same Hsame), H.
Qed.

(** The engine for kings and rooks answers alike on boards in the same
    state whose histories hold every position equally often. *)
Lemma KR_alike :
  alike_to_the_engine (R:=KR.rules) same_position_and_repetitions.
Proof.
  split.
  - intros b1 b2 [Hn Hc]; simpl; rewrite Hn; reflexivity.
  - intros b1 b2 [Hn Hc]; simpl; rewrite Hn; reflexivity.
  - intros b1 b2 [Hn Hc]; simpl; rewrite Hn; reflexivity.
  - intros b1 b2 [Hn Hc]; simpl; rewrite Hn; reflexivity.
  - intros b1 b2 [Hn Hc]; simpl. unfold KR.game_over.
    rewrite Hn, (Hc (KR.now b2)). reflexivity.
  - intros b1 b2 [Hn Hc]; simpl; rewrite Hn; reflexivity.
  - intros b1 b2 m [Hn Hc]; simpl. unfold KR.capture.
    rewrite Hn; reflexivity.
  - intros b1 b2 m [Hn Hc]; simpl. unfold KR.castling.
    rewrite Hn; reflexivity.
  - intros b1 b2 sq [Hn Hc]; simpl; rewrite Hn; reflexivity.
  - intros b1 b2 c [Hn Hc]; simpl; rewrite Hn; reflexivity.
  - intros b1 b2 m [Hn Hc]. simpl. unfold KR.KR_push.
    split; simpl; [rewrite Hn; reflexivity|].
    intros p. specialize (Hc p). unfold KR.occurrences in *. simpl.
    rewrite Hn. destruct (KR.same_key p (KR.now b2)); simpl; lia.
Qed.

Lemma occurrences_without_clocks (p : KR.Position) (l : list KR.Position) :
  KR.occurrences p l = KR.occurrences p (map without_clocks l).
Proof.
  unfold KR.occurrences. f_equal.
  induction l as [|q rest IH]; [reflexivity|].
  cbn [map List.filter].
  change (KR.same_key p (without_clocks q)) with (KR.same_key p q).
  destruct (KR.same_key p q); simpl; rewrite IH; reflexivity.
Qed.

Lemma occurrences_blocks_swapped (p : KR.Position)
    (X Y Z W V : list KR.Position) :
  KR.occurrences p (X ++ Y ++ Z ++ W ++ V)
  = KR.occurrences p (X ++ W ++ Z ++ Y ++ V).
Proof.
  unfold KR.occurrences. rewrite !List.filter_app, !List.length_app. lia.
Qed.

Lemma shuffles_alike :
  same_position_and_repetitions Scenes.g8_then_f8 Scenes.f8_then_g8.
Proof.
  split; [vm_compute; reflexivity|].
  intros p.
  rewrite (occurrences_without_clocks p (KR.stack Scenes.g8_then_f8)),
    (occurrences_without_clocks p (KR.stack Scenes.f8_then_g8)).
  set (s := map without_clocks (KR.stack Scenes.g8_then_f8)).
  replace (map without_clocks (KR.stack Scenes.f8_then_g8))
    with (firstn 1 s ++ firstn 2 (skipn 5 s) ++ firstn 2 (skipn 3 s)
          ++ firstn 2 (skipn 1 s) ++ skipn 7 s)
    by (vm_compute; reflexivity).
  replace s
    with (firstn 1 s ++ firstn 2 (skipn 1 s) ++ firstn 2 (skipn 3 s)
          ++ firstn 2 (skipn 5 s) ++ skipn 7 s) at 1
    by (vm_compute; reflexivity).
  apply occurrences_blocks_swapped.
Qed.

Lemma minimax_agrees_on_boards_alike_to_the_engine_witness :
  KR.stack Scenes.g8_then_f8 <> KR.stack Scenes.f8_then_g8
  /\ fst (BlackRook.minimax (R:=KR.rules) 2 NegInf PosInf true
            (mkWorld (R:=KR.rules) Scenes.g8_then_f8 0))
     = fst (BlackRook.minimax (R:=KR.rules) 2 NegInf PosInf true
              (mkWorld (R:=KR.rules) Scenes.f8_then_g8 7)).
Proof.
  split.
  - vm_compute. discriminate.
  - apply (minimax_agrees_on_boards_alike_to_the_engine KR.rules
             KR_pop_restores same_position_and_repetitions KR_alike).
    exact shuffles_alike.
Defined.

(** C10, counterexample.  Equal positions are not enough: after the
    position 7r/8/5k2/8/8/8/3K4/8 b - - 16 9 has come up for the fifth
    time, the board of that game and a board set up anew in the same state
    (same pieces, side to move, clocks and FEN) give different results at
    depth 1, because [is_game_over] counts the repetitions in the move
    stack. *)
Lemma equal_positions_search_differently :
  let b1 := Scenes.five_times in
  let b2 := Scenes.set_up_anew Scenes.five_times in
  KR.now b1 = KR.now b2
  /\ fen (r:=KR.rules) b1 = fen (r:=KR.rules) b2
  /\ fst (BlackRook.minimax (R:=KR.rules) 1 NegInf PosInf true
            (mkWorld (R:=KR.rules) b1 0)) = (Fin 45, None)
  /\ fst (BlackRook.minimax (R:=KR.rules) 1 NegInf PosInf true
            (mkWorld (R:=KR.rules) b2 0)) = (Fin (-45), Some (KR.mkMv 63 59)).
Proof.
  cbv zeta. repeat apply conj; vm_compute; reflexivity.
Qed.

(** ** C8: only whole depths *)

(** C8.  The deepening loop of [get_ai_move], asked for depths 1 to
    [max_depth] with [max_depth >= 1], returns the move of a search that
    ran to its end at some depth [d] with [1 <= d <= max_depth]; it reads
    the clock at most once per depth tried, after that depth's search, and
    the search itself never reads the clock. *)
Theorem deepening_returns_a_completed_depth (R : Rules)
    (Hpop : pop_restores R) (clock : nat -> Q) (start_time : Q)
    (max_depth : nat) (best_move : option (Move R)) (w : World R) :
  (1 <= max_depth)%nat ->
  (exists d,
      (1 <= d <= max_depth)%nat
      /\ fst (BlackRook.deepening clock start_time max_depth 1 best_move w)
         = snd (fst (BlackRook.minimax d NegInf PosInf
                       (color_eqb (turn (w_board w)) BLACK) w))
      /\ (w_ticks (snd (BlackRook.deepening clock start_time max_depth 1
                          best_move w))
          <= w_ticks w + d)%nat)
  /\ (forall d alpha beta mx (w' : World R),
         w_ticks (snd (BlackRook.minimax d alpha beta mx w')) = w_ticks w').
Proof.
  intros Hd. split.
  - destruct (deepening_runs Hpop clock start_time max_depth 1 best_move w Hd)
      as (d & Hr & Hm & Ht).
    exists d. split; [lia|]. split.
    + rewrite Hm, (BlackRook_minimax_pure Hpop). reflexivity.
    + lia.
  - intros d alpha beta mx w'.
    apply (minimax_leaves_clock BlackRook.evaluate_board
             BlackRook.evaluate_move BlackRook_probe_leaves_clock).
Qed.

Lemma deepening_returns_a_completed_depth_witness :
  let w := mkWorld (R:=KR.rules) Scenes.rook_hunt 0 in
  (exists d,
      (1 <= d <= 3)%nat
      /\ fst (BlackRook.deepening Scenes.fast_clock 0 3 1 None w)
         = snd (fst (BlackRook.minimax d NegInf PosInf
                       (color_eqb (turn (w_board w)) BLACK) w))
      /\ (w_ticks (snd (BlackRook.deepening Scenes.fast_clock 0 3 1 None w))
          <= w_ticks w + d)%nat)
  /\ (forall d alpha beta mx (w' : World KR.rules),
         w_ticks (snd (BlackRook.minimax d alpha beta mx w')) = w_ticks w').
Proof.
  intros w.
  apply (deepening_returns_a_completed_depth KR.rules).
  - intros [p s] m. reflexivity.
  - lia.
Defined.

(** ** C2: when the chooser returns no move *)

(** C2, as stated, fails: with bare kings and Black to move the position
    has legal moves, yet [get_ai_move] returns [None], because the game is
    over by insufficient material and [minimax] names no move then. *)
Lemma chooser_none_despite_legal_moves :
  ~ (fst (BlackRook.get_ai_move (R:=KR.rules) Scenes.still_clock 3
            (mkWorld (R:=KR.rules) Scenes.bare_kings 0)) = None
     <-> @legal_moves KR.rules Scenes.bare_kings = []).
Proof.
  intros [H _].
  assert (E : fst (BlackRook.get_ai_move (R:=KR.rules) Scenes.still_clock 3
                     (mkWorld (R:=KR.rules) Scenes.bare_kings 0)) = None)
    by (vm_compute; reflexivity).
  specialize (H E). vm_compute in H. discriminate H.
Qed.

(** C2, amended.  Both choosers return [None] when the position has no
    legal move.  Asked for a depth of 1 or more, [get_ai_move] returns
    [None] exactly when no legal move mates at once and the game is over
    by the engine's [is_game_over] (which holds without legal moves, and
    also by insufficient material, the seventy-five-move rule or fivefold
    repetition); otherwise it returns a move.  The engine is any one whose
    [pop] undoes [push] and whose positions without legal moves are game
    over. *)
Theorem chooser_none_iff_game_over (R : Rules) (Hpop : pop_restores R)
    (Hlive : live_has_moves R) (clock : nat -> Q) (depth : nat)
    (w : World R) (s : Solver.Self R) :
  (legal_moves (w_board w) = [] ->
   fst (BlackRook.get_ai_move clock depth w) = None)
  /\ ((1 <= depth)%nat ->
      (fst (BlackRook.get_ai_move clock depth w) = None
       <-> (forall m, In m (legal_moves (w_board w)) ->
                      is_checkmate (push (w_board w) m) = false)
           /\ is_game_over (w_board w) = true))
  /\ (legal_moves (Solver.s_board s) = [] ->
      fst (Solver.find_best_move depth s) = None).
Proof.
  split; [|split].
  - intros Hnil. rewrite (get_ai_move_run Hpop). cbv zeta. rewrite Hnil.
    cbn [List.find].
    destruct depth as [|n]; [reflexivity|].
    destruct (deepening_runs Hpop clock (clock (w_ticks w)) (S n) 1 None
                (mkWorld (w_board w) (S (w_ticks w)))) as (d & Hd & Hm & _);
      [lia|].
    rewrite Hm. cbn [w_board].
    apply alphabeta_game_over.
    destruct (is_game_over (w_board w)) eqn:E; [reflexivity|].
    exfalso. exact (Hlive _ E Hnil).
  - intros Hdepth. rewrite (get_ai_move_run Hpop). cbv zeta.
    destruct (List.find (BlackRook.mates_at_once (w_board w))
                (legal_moves (w_board w))) as [mv|] eqn:Ef.
    + split; [discriminate|]. intros [Hno _]. exfalso.
      apply List.find_some in Ef. destruct Ef as [Hin Hmate].
      unfold BlackRook.mates_at_once in Hmate.
      rewrite (Hno mv Hin) in Hmate. discriminate.
    + destruct (deepening_runs Hpop clock (clock (w_ticks w)) depth 1 None
                  (mkWorld (w_board w) (S (w_ticks w)))) as (d & Hd & Hm & _);
        [lia|].
      rewrite Hm. cbn [w_board].
      destruct d as [|d']; [lia|].
      split.
      * intros Hnone. split.
        -- intros m Hin. exact (proj1 (find_none_iff _ _) Ef m Hin).
        -- destruct (is_game_over (w_board w)) eqn:E; [reflexivity|].
           exfalso.
           apply (alphabeta_names_a_move BlackRook.evaluate_board
                    BlackRook.move_key Hlive BlackRook_evaluate_board_fin
                    d' (w_board w) NegInf PosInf
                    (color_eqb (turn (w_board w)) BLACK) E).
           exact Hnone.
      * intros [_ Hover]. apply alphabeta_game_over. exact Hover.
  - intros Hnil. unfold Solver.find_best_move, bind, Solver.the_board.
    rewrite Hnil. reflexivity.
Qed.

Lemma chooser_none_iff_game_over_witness :
  let w := mkWorld (R:=KR.rules) Scenes.rook_hunt 0 in
  (legal_moves (w_board w) = [] ->
   fst (BlackRook.get_ai_move Scenes.still_clock 3 w) = None)
  /\ ((1 <= 3)%nat ->
      (fst (BlackRook.get_ai_move Scenes.still_clock 3 w) = None
       <-> (forall m, In m (legal_moves (w_board w)) ->
                      is_checkmate (push (w_board w) m) = false)
           /\ is_game_over (w_board w) = true))
  /\ (legal_moves (Solver.s_board (Scenes.fresh Scenes.stalemated)) = [] ->
      fst (Solver.find_best_move 3 (Scenes.fresh Scenes.stalemated)) = None).
Proof.
  intros w.
  apply (chooser_none_iff_game_over KR.rules).
  - intros [p s] m. reflexivity.
  - intros b H. simpl in *. unfold KR.game_over, KR.no_moves in H.
    destruct (KR.legal (KR.now b)); discriminate.
Defined.

(** ** C3: mate in one *)

(** The first program takes a mate in one whenever there is one, at any
    depth: its scan of the legal moves returns the first that mates. *)
Lemma first_program_takes_mate_in_one (R : Rules) (Hpop : pop_restores R)
    (clock : nat -> Q) (depth : nat) (w : World R) (mate : Move R) :
  In mate (legal_moves (w_board w)) ->
  is_checkmate (push (w_board w) mate) = true ->
  exists m, fst (BlackRook.get_ai_move clock depth w) = Some m
            /\ In m (legal_moves (w_board w))
            /\ is_checkmate (push (w_board w) m) = true.
Proof.
  intros Hin Hmate. rewrite (get_ai_move_run Hpop). cbv zeta.
  destruct (List.find (BlackRook.mates_at_once (w_board w))
              (legal_moves (w_board w))) as [mv|] eqn:Ef.
  - exists mv. apply List.find_some in Ef. destruct Ef as [H1 H2].
    repeat split; assumption.
  - exfalso. pose proof (List.find_none _ _ Ef mate Hin) as H.
    unfold BlackRook.mates_at_once in H. congruence.
Qed.


(** ** Squares *)

Section Squares.

Lemma square_file_range (sq : Square) : 0 <= square_file sq <= 7.
Proof.
  unfold square_file.
  assert (E : Z.land sq 7 = sq mod 8)
    by (change 7 with (Z.ones 3); rewrite Z.land_ones by lia; reflexivity).
  rewrite E. pose proof (Z.mod_pos_bound sq 8 ltac:(lia)). lia.
Qed.

Lemma square_rank_range (sq : Square) :
  0 <= sq < 64 -> 0 <= square_rank sq <= 7.
Proof.
  intros H. unfold square_rank. rewrite Z.shiftr_div_pow2 by lia.
  change (2 ^ 3) with 8.
  pose proof (Z.div_le_mono sq 63 8 ltac:(lia) ltac:(lia)) as Hhi.
  change (63 / 8) with 7 in Hhi.
  pose proof (Z.div_pos sq 8 ltac:(lia) ltac:(lia)). lia.
Qed.

Lemma square_distance_range (a b : Square) :
  0 <= a < 64 -> 0 <= b < 64 -> 0 <= square_distance a b <= 7.
Proof.
  intros Ha Hb. unfold square_distance.
  pose proof (square_file_range a). pose proof (square_file_range b).
  pose proof (square_rank_range a Ha). pose proof (square_rank_range b Hb).
  lia.
Qed.

Lemma SQUARES_range (sq : Square) : In sq SQUARES -> 0 <= sq < 64.
Proof.
  intros H.
  assert (E : forallb (fun s => (0 <=? s) && (s <? 64)) SQUARES = true)
    by (vm_compute; reflexivity).
  rewrite List.forallb_forall in E. specialize (E sq H). lia.
Qed.

Lemma head_In {A} (l : list A) (x : A) : head l = Some x -> In x l.
Proof.
  destruct l as [|y rest]; intros H; [discriminate|].
  injection H as ->. left. reflexivity.
Qed.

Lemma pieces_in_SQUARES {R : Rules} (b : Board R) pt c sq :
  In sq (pieces b pt c) -> In sq SQUARES.
Proof.
  unfold pieces. intros H. apply List.filter_In in H. tauto.
Qed.

Lemma first_piece_range {R : Rules} (b : Board R) pt c sq :
  head (pieces b pt c) = Some sq -> 0 <= sq < 64.
Proof.
  intros H. apply head_In, pieces_in_SQUARES in H. revert H.
  apply SQUARES_range.
Qed.

End Squares.

(** ** The evaluators *)

Section Evaluators.

Context {R : Rules}.

Ltac split_tests :=
  repeat match goal with
         | |- context [if ?c then _ else _] => destruct c
         end.

Lemma BlackRook_score_bound (b : Board R) :
  kings_on_board b -> is_checkmate b = false ->
  exists z, BlackRook.evaluate_board b = Fin z /\ -165 <= z <= 165.
Proof.
  intros Hk Hc. unfold BlackRook.evaluate_board. rewrite Hc.
  destruct (is_stalemate b); [exists 0; split; [reflexivity | lia]|].
  destruct (find_rook b BLACK) as [rook|];
    [|exists 0; split; [reflexivity | lia]].
  destruct (py_not (Some rook)); [exists 0; split; [reflexivity | lia]|].
  pose proof (square_file_range (king b WHITE)) as Hf.
  pose proof (square_rank_range (king b WHITE) (Hk WHITE)) as Hr.
  cbv zeta.
  split_tests; eexists; (split; [reflexivity | lia]).
Qed.

Lemma Solver_score_bound (s : Solver.Self R) (rook_sq : Square) :
  kings_on_board (Solver.s_board s) ->
  is_checkmate (Solver.s_board s) = false ->
  head (pieces (Solver.s_board s) ROOK WHITE) = Some rook_sq ->
  rook_sq <> 0 ->
  exists z, fst (Solver.evaluate_board s) = Fin z /\ 0 <= z <= 114.
Proof.
  destruct s as [b tbl n]. cbn [Solver.s_board].
  intros Hk Hc Hrook Hne.
  unfold Solver.evaluate_board, bind, Solver.count_node,
    Solver.the_board, ret.
  cbn [Solver.s_board fst snd]. rewrite Hc.
  destruct (is_stalemate b || is_insufficient_material b || can_claim_draw b);
    [exists 0; split; [reflexivity | lia]|].
  rewrite Hrook. unfold py_not.
  destruct (Z.eqb_spec rook_sq 0) as [E|_]; [contradiction|].
  pose proof (first_piece_range b ROOK WHITE rook_sq Hrook) as Hrng.
  pose proof (square_distance_range rook_sq (king b BLACK) Hrng (Hk BLACK))
    as Hd1.
  pose proof (square_distance_range (king b WHITE) (king b BLACK)
                (Hk WHITE) (Hk BLACK)) as Hd2.
  pose proof (square_file_range rook_sq) as Hf.
  pose proof (square_rank_range rook_sq Hrng) as Hr.
  cbv zeta.
  split_tests; eexists; (split; [reflexivity | cbn [fst]; lia]).
Qed.

Lemma Solver_score_lost_rook (s : Solver.Self R) :
  is_checkmate (Solver.s_board s) = false ->
  is_stalemate (Solver.s_board s)
  || is_insufficient_material (Solver.s_board s)
  || can_claim_draw (Solver.s_board s) = false ->
  pieces (Solver.s_board s) ROOK WHITE = [] ->
  fst (Solver.evaluate_board s) = NegInf.
Proof.
  destruct s as [b tbl n]. cbn [Solver.s_board].
  intros Hc Hd Hnone.
  unfold Solver.evaluate_board, bind, Solver.count_node,
    Solver.the_board, ret.
  cbn [Solver.s_board fst snd]. rewrite Hc, Hd, Hnone. reflexivity.
Qed.

Lemma Solver_score_draw (s : Solver.Self R) :
  is_checkmate (Solver.s_board s) = false ->
  is_stalemate (Solver.s_board s)
  || is_insufficient_material (Solver.s_board s)
  || can_claim_draw (Solver.s_board s) = true ->
  fst (Solver.evaluate_board s) = Fin 0.
Proof.
  destruct s as [b tbl n]. cbn [Solver.s_board].
  intros Hc Hd.
  unfold Solver.evaluate_board, bind, Solver.count_node,
    Solver.the_board, ret.
  cbn [Solver.s_board fst snd]. rewrite Hc, Hd. reflexivity.
Qed.

End Evaluators.

(** ** C4: the expected rook is absent *)

(** C4, as stated, fails for the class evaluator: in
    7r/8/5k2/8/8/8/3K4/8 with White to move the game is not over, no draw
    can be claimed and White has no rook; the evaluator returns -inf, not
    0. *)
Lemma lost_rook_is_not_scored_zero :
  let b := Scenes.rook_lost in
  @is_game_over KR.rules b = false
  /\ @can_claim_draw KR.rules b = false
  /\ pieces (R:=KR.rules) b ROOK WHITE = []
  /\ fst (Solver.evaluate_board (Scenes.fresh b)) = NegInf
  /\ fst (Solver.evaluate_board (Scenes.fresh b)) <> Fin 0.
Proof.
  cbv zeta. repeat apply conj; try (vm_compute; reflexivity).
  vm_compute. discriminate.
Qed.

(** C4, amended.  In a position that is neither checkmate nor stalemate,
    the function-style evaluators return 0 when the rook they look for
    (black in the first program, white in the third) is absent.  The class
    evaluator returns 0 when the position is a draw by insufficient
    material or by claim, and otherwise returns -inf ("lost the rook") when
    White has no rook. *)
Theorem absent_rook_scores (R : Rules) (b : Board R)
    (table : gmap string Solver.Entry) (nodes : Z) :
  is_checkmate b = false ->
  is_stalemate b = false ->
  (find_rook b BLACK = None -> BlackRook.evaluate_board b = Fin 0)
  /\ (find_rook b WHITE = None -> WhiteRook.evaluate_board b = Fin 0)
  /\ (is_insufficient_material b || can_claim_draw b = true ->
      fst (Solver.evaluate_board (Solver.mkSelf b table nodes)) = Fin 0)
  /\ (is_insufficient_material b || can_claim_draw b = false ->
      pieces b ROOK WHITE = [] ->
      fst (Solver.evaluate_board (Solver.mkSelf b table nodes)) = NegInf).
Proof.
  intros Hc Hs. repeat apply conj.
  - intros H. unfold BlackRook.evaluate_board. rewrite Hc, Hs, H. reflexivity.
  - intros H. unfold WhiteRook.evaluate_board. rewrite Hc, Hs, H. reflexivity.
  - intros H. apply Solver_score_draw; cbn [Solver.s_board]; [exact Hc|].
    rewrite Hs. exact H.
  - intros H Hnone. apply Solver_score_lost_rook; cbn [Solver.s_board];
      [exact Hc | rewrite Hs; exact H | exact Hnone].
Qed.

Lemma absent_rook_scores_witness :
  WhiteRook.evaluate_board (R:=KR.rules) Scenes.rook_lost = Fin 0
  /\ fst (Solver.evaluate_board (Scenes.fresh Scenes.rook_lost)) = NegInf
  /\ fst (Solver.evaluate_board (Scenes.fresh Scenes.bare_kings)) = Fin 0.
Proof.
  assert (Hc : @is_checkmate KR.rules Scenes.rook_lost = false)
    by (vm_compute; reflexivity).
  assert (Hs : @is_stalemate KR.rules Scenes.rook_lost = false)
    by (vm_compute; reflexivity).
  assert (Hc' : @is_checkmate KR.rules Scenes.bare_kings = false)
    by (vm_compute; reflexivity).
  assert (Hs' : @is_stalemate KR.rules Scenes.bare_kings = false)
    by (vm_compute; reflexivity).
  destruct (absent_rook_scores KR.rules Scenes.rook_lost ∅ 0 Hc Hs)
    as (_ & H2 & _ & H4).
  destruct (absent_rook_scores KR.rules Scenes.bare_kings ∅ 0 Hc' Hs')
    as (_ & _ & H3 & _).
  repeat apply conj.
  - apply H2. vm_compute. reflexivity.
  - apply H4; vm_compute; reflexivity.
  - apply H3. vm_compute. reflexivity.
Defined.

(** ** C5: draws *)

(** C5, as stated, fails for the third program: in k7/1R6/1K6/8/8/8/8/8
    with Black to move, Black is stalemated and the evaluator returns -500,
    not 0. *)
Lemma stalemate_is_penalised :
  @is_stalemate KR.rules Scenes.stalemated = true
  /\ WhiteRook.evaluate_board (R:=KR.rules) Scenes.stalemated = Fin (-500)
  /\ WhiteRook.evaluate_board (R:=KR.rules) Scenes.stalemated <> Fin 0.
Proof.
  repeat apply conj; try (vm_compute; reflexivity).
  vm_compute. discriminate.
Qed.

(** C5, amended.  In a stalemate the first program's evaluator returns 0
    and the third program's returns -500; the class evaluator returns 0 in
    a stalemate, with insufficient material and when a draw can be claimed.
    The function-style evaluators test neither insufficient material nor
    claims.  (Checkmate is tested first by all of them; a stalemate is
    never one.) *)
Theorem draw_scores (R : Rules) (b : Board R)
    (table : gmap string Solver.Entry) (nodes : Z) :
  is_checkmate b = false ->
  (is_stalemate b = true -> BlackRook.evaluate_board b = Fin 0)
  /\ (is_stalemate b = true -> WhiteRook.evaluate_board b = Fin (-500))
  /\ (is_stalemate b || is_insufficient_material b || can_claim_draw b = true ->
      fst (Solver.evaluate_board (Solver.mkSelf b table nodes)) = Fin 0).
Proof.
  intros Hc. repeat apply conj.
  - intros H. unfold BlackRook.evaluate_board. rewrite Hc, H. reflexivity.
  - intros H. unfold WhiteRook.evaluate_board. rewrite Hc, H. reflexivity.
  - intros H. apply Solver_score_draw; cbn [Solver.s_board]; assumption.
Qed.

Lemma draw_scores_witness :
  BlackRook.evaluate_board (R:=KR.rules) Scenes.stalemated = Fin 0
  /\ WhiteRook.evaluate_board (R:=KR.rules) Scenes.stalemated = Fin (-500)
  /\ fst (Solver.evaluate_board (Scenes.fresh Scenes.stalemated)) = Fin 0.
Proof.
  assert (Hc : @is_checkmate KR.rules Scenes.stalemated = false)
    by (vm_compute; reflexivity).
  destruct (draw_scores KR.rules Scenes.stalemated ∅ 0 Hc) as (H1 & H2 & H3).
  repeat apply conj.
  - apply H1. vm_compute. reflexivity.
  - apply H2. vm_compute. reflexivity.
  - apply H3. vm_compute. reflexivity.
Defined.

(** ** C6: heuristic scores against the sentinel *)

(** C6, as stated, fails for the class evaluator: in
    3r4/8/5k2/8/8/2K5/8/8 with Black to move nothing is decided, and the
    score is -inf, which is not below any sentinel. *)
Lemma lost_rook_reaches_the_sentinel :
  let b := Scenes.rook_gone in
  @is_game_over KR.rules b = false
  /\ @can_claim_draw KR.rules b = false
  /\ ~ below_sentinel (fst (Solver.evaluate_board (Scenes.fresh b))).
Proof.
  cbv zeta. repeat apply conj; try (vm_compute; reflexivity).
  intros (z & Hz & _). vm_compute in Hz. discriminate Hz.
Qed.

(** The same score comes out of the position the class itself sets up,
    4k3/8/8/8/8/8/8/R3K3: the rook stands on a1, square 0, which
    [if not white_rook] takes for no rook. *)
Lemma rook_on_a1_counts_as_lost :
  pieces (R:=KR.rules) Scenes.solver_start ROOK WHITE = [0]
  /\ fst (Solver.evaluate_board (Scenes.fresh Scenes.solver_start)) = NegInf.
Proof. split; vm_compute; reflexivity. Qed.

(** C6, amended.  In a position that is not checkmate, with both kings on
    the board: the first program's evaluator returns a score of absolute
    value at most 165, below the sentinel 10000; the class evaluator
    returns a score between 0 and 114 when a white rook stands on a square
    other than a1, and returns -inf, its own sentinel, when White has no
    rook and the position is not a draw. *)
Theorem heuristic_scores_and_the_sentinel (R : Rules) (b : Board R)
    (table : gmap string Solver.Entry) (nodes : Z) :
  kings_on_board b ->
  is_checkmate b = false ->
  (exists z, BlackRook.evaluate_board b = Fin z
             /\ Z.abs z <= 165 /\ 165 < MATE)
  /\ (forall rook_sq,
         head (pieces b ROOK WHITE) = Some rook_sq -> rook_sq <> 0 ->
         exists z, fst (Solver.evaluate_board (Solver.mkSelf b table nodes))
                   = Fin z
                   /\ 0 <= z <= 114 /\ 114 < MATE)
  /\ (pieces b ROOK WHITE = [] ->
      is_stalemate b || is_insufficient_material b || can_claim_draw b = false ->
      fst (Solver.evaluate_board (Solver.mkSelf b table nodes)) = NegInf).
Proof.
  intros Hk Hc. repeat apply conj.
  - destruct (BlackRook_score_bound b Hk Hc) as (z & Hz & Hb).
    exists z. unfold MATE. split; [exact Hz | lia].
  - intros rook_sq Hrook Hne.
    destruct (Solver_score_bound (Solver.mkSelf b table nodes) rook_sq
                Hk Hc Hrook Hne) as (z & Hz & Hb).
    exists z. unfold MATE. split; [exact Hz | lia].
  - intros Hnone Hd. apply Solver_score_lost_rook; assumption.
Qed.

Lemma heuristic_scores_and_the_sentinel_witness :
  (exists z, BlackRook.evaluate_board (R:=KR.rules) Scenes.rook_hunt = Fin z
             /\ Z.abs z <= 165 /\ 165 < MATE)
  /\ (exists z, fst (Solver.evaluate_board (Scenes.fresh Scenes.rook_kept))
                = Fin z
                /\ 0 <= z <= 114 /\ 114 < MATE).
Proof.
  assert (Hk1 : kings_on_board (R:=KR.rules) Scenes.rook_hunt)
    by (intros []; vm_compute; split; congruence).
  assert (Hc1 : @is_checkmate KR.rules Scenes.rook_hunt = false)
    by (vm_compute; reflexivity).
  assert (Hk2 : kings_on_board (R:=KR.rules) Scenes.rook_kept)
    by (intros []; vm_compute; split; congruence).
  assert (Hc2 : @is_checkmate KR.rules Scenes.rook_kept = false)
    by (vm_compute; reflexivity).
  split.
  - exact (proj1 (heuristic_scores_and_the_sentinel KR.rules Scenes.rook_hunt
                    ∅ 0 Hk1 Hc1)).
  - apply (proj1 (proj2 (heuristic_scores_and_the_sentinel KR.rules
                           Scenes.rook_kept ∅ 0 Hk2 Hc2)) 9).
    + vm_compute. reflexivity.
    + discriminate.
Defined.

(** ** C9: the transposition table *)

Section Table.

Context {R : Rules}.






End Table.



(** * Further properties of the code *)

(** ** The moves a search tries and the move it returns *)

Section SortedMoves.

Context {A : Type}.

Lemma insert_keyed_perm reverse (x : Q * A) l :
  Permutation (insert_keyed reverse x l) (x :: l).
Proof.
  induction l as [|y rest IH]; simpl; [reflexivity|].
  destruct (stays_in_front reverse (fst x) (fst y)); [|reflexivity].
  rewrite IH. apply perm_swap.
Qed.

(** Sorting loses no move and invents none. *)
Lemma sort_keyed_perm reverse (l : list (Q * A)) :
  Permutation (sort_keyed reverse l) (map snd l).
Proof.
  unfold sort_keyed. apply Permutation_map.
  induction l as [|x rest IH]; simpl; [reflexivity|].
  rewrite insert_keyed_perm. constructor. exact IH.
Qed.

End SortedMoves.

Section MoveReturned.

Context {R : Rules}.
Variable evaluate_board : Board R -> Score.
Variable move_key : Board R -> Move R -> Q.

Abbreviation Result := (@Search.Result R).

Lemma ordered_moves_perm board mx :
  Permutation (Search.ordered_moves move_key board mx) (legal_moves board).
Proof.
  unfold Search.ordered_moves. rewrite sort_keyed_perm, map_map. simpl.
  rewrite map_id. reflexivity.
Qed.

Lemma ab_max_loop_move
    (recur : Board R -> Score -> Score -> bool -> Result) board m :
  forall moves best bm alpha beta,
    snd (Search.ab_max_loop recur board moves best bm alpha beta) = Some m ->
    bm = Some m \/ In m moves.
Proof.
  induction moves as [|x rest IH]; intros best bm alpha beta H; simpl in H.
  - left. exact H.
  - destruct (Sc.gtb _ best); destruct (Sc.leb beta _); simpl in H.
    + injection H as ->. right. left. reflexivity.
    + apply IH in H. destruct H as [H|H].
      * injection H as ->. right. left. reflexivity.
      * right. right. exact H.
    + left. exact H.
    + apply IH in H. destruct H as [H|H]; [left | right; right]; exact H.
Qed.

Lemma ab_min_loop_move
    (recur : Board R -> Score -> Score -> bool -> Result) board m :
  forall moves best bm alpha beta,
    snd (Search.ab_min_loop recur board moves best bm alpha beta) = Some m ->
    bm = Some m \/ In m moves.
Proof.
  induction moves as [|x rest IH]; intros best bm alpha beta H; simpl in H.
  - left. exact H.
  - destruct (Sc.ltb _ best); destruct (Sc.leb _ alpha); simpl in H.
    + injection H as ->. right. left. reflexivity.
    + apply IH in H. destruct H as [H|H].
      * injection H as ->. right. left. reflexivity.
      * right. right. exact H.
    + left. exact H.
    + apply IH in H. destruct H as [H|H]; [left | right; right]; exact H.
Qed.

Lemma alphabeta_move_legal depth board alpha beta mx m :
  snd (Search.alphabeta evaluate_board move_key depth board alpha beta mx)
  = Some m ->
  In m (legal_moves board).
Proof.
  destruct depth as [|d]; simpl; [discriminate|].
  destruct (is_game_over board); [discriminate|].
  intros H.
  apply (Permutation_in m (ordered_moves_perm board mx)).
  destruct mx.
  - apply ab_max_loop_move in H. destruct H as [H|H]; [discriminate | exact H].
  - apply ab_min_loop_move in H. destruct H as [H|H]; [discriminate | exact H].
Qed.

End MoveReturned.

(** X1.  The move [minimax] of the first program returns, when it returns
    one, is a legal move of the position it was called on. *)
Theorem minimax_move_is_legal (R : Rules) (Hpop : pop_restores R)
    (depth : nat) (alpha beta : Score) (maximizing_player : bool)
    (w : World R) (m : Move R) :
  snd (fst (BlackRook.minimax depth alpha beta maximizing_player w)) = Some m ->
  In m (legal_moves (w_board w)).
Proof.
  rewrite (BlackRook_minimax_pure Hpop). cbn [fst].
  apply alphabeta_move_legal.
Qed.

Lemma minimax_move_is_legal_witness :
  In (KR.mkMv 63 23) (@legal_moves KR.rules Scenes.rook_hunt).
Proof.
  apply (minimax_move_is_legal KR.rules KR_pop_restores 2 NegInf PosInf true
           (mkWorld (R:=KR.rules) Scenes.rook_hunt 0)).
  vm_compute. reflexivity.
Defined.

Section ChooserMoves.

Context {R : Rules}.
Hypothesis Hpop : pop_restores R.

Abbreviation root_search d b :=
  (Search.alphabeta (R:=R) BlackRook.evaluate_board BlackRook.move_key d b
     NegInf PosInf (color_eqb (turn b) BLACK)).

Lemma get_ai_move_legal clock depth (w : World R) (m : Move R) :
  fst (BlackRook.get_ai_move clock depth w) = Some m ->
  In m (legal_moves (w_board w)).
Proof.
  rewrite (get_ai_move_run Hpop). cbv zeta.
  destruct (List.find (BlackRook.mates_at_once (w_board w))
              (legal_moves (w_board w))) as [mv|] eqn:Ef.
  - cbn [fst]. intros H. injection H as <-.
    apply List.find_some in Ef. tauto.
  - destruct depth as [|n]; [discriminate|].
    destruct (deepening_runs Hpop clock (clock (w_ticks w)) (S n) 1 None
                (mkWorld (w_board w) (S (w_ticks w)))) as (d & _ & Hm & _);
      [lia|].
    rewrite Hm. cbn [w_board]. apply alphabeta_move_legal.
Qed.

(** While the budget lasts and the root is neither checkmate nor
    stalemate, the loop goes on to the last depth. *)
Lemma deepening_within_budget clock start_time rounds :
  forall cd bm (w : World R),
    is_checkmate (w_board w) || is_stalemate (w_board w) = false ->
    (forall k, (clock k - start_time <= 2)%Q) ->
    fst (BlackRook.deepening clock start_time (S rounds) cd bm w)
    = snd (root_search (cd + rounds)%nat (w_board w)).
Proof.
  induction rounds as [|r IH]; intros cd bm w Hlive Hclock;
    rewrite (deepening_step Hpop); cbv zeta; rewrite Hlive;
    assert (E : Qltb 2 (clock (w_ticks w) - start_time) = false)
      by (unfold Qltb; apply negb_false_iff, Qle_bool_iff, Hclock);
    rewrite E.
  - cbn [BlackRook.deepening]. unfold ret. cbn [fst].
    rewrite Nat.add_0_r. reflexivity.
  - rewrite IH; [|exact Hlive | exact Hclock]. cbn [w_board].
    replace (S cd + r)%nat with (cd + S r)%nat by lia. reflexivity.
Qed.

Lemma deepening_out_of_budget clock start_time rounds cd bm (w : World R) :
  is_checkmate (w_board w) || is_stalemate (w_board w) = false ->
  (2 < clock (w_ticks w) - start_time)%Q ->
  fst (BlackRook.deepening clock start_time (S rounds) cd bm w)
  = snd (root_search cd (w_board w)).
Proof.
  intros Hlive Hover. rewrite (deepening_step Hpop). cbv zeta. rewrite Hlive.
  assert (E : Qltb 2 (clock (w_ticks w) - start_time) = true).
  { unfold Qltb. apply negb_true_iff.
    destruct (Qle_bool (clock (w_ticks w) - start_time) 2) eqn:El;
      [|reflexivity].
    apply Qle_bool_iff in El. exfalso.
    exact (Qlt_not_le _ _ Hover El). }
  rewrite E. reflexivity.
Qed.

End ChooserMoves.

(** X2.  The move [get_ai_move] of the first program returns, when it
    returns one, is a legal move of the position it was called on, whether
    it comes from the scan for a mate in one or from the deepening loop. *)
Theorem get_ai_move_is_legal (R : Rules) (Hpop : pop_restores R)
    (clock : nat -> Q) (depth : nat) (w : World R) (m : Move R) :
  fst (BlackRook.get_ai_move clock depth w) = Some m ->
  In m (legal_moves (w_board w)).
Proof. apply get_ai_move_legal, Hpop. Qed.

Lemma get_ai_move_is_legal_witness :
  In (KR.mkMv 57 1) (@legal_moves KR.rules Scenes.two_rooks).
Proof.
  apply (get_ai_move_is_legal KR.rules KR_pop_restores Scenes.still_clock 3
           (mkWorld (R:=KR.rules) Scenes.two_rooks 0)).
  vm_compute. reflexivity.
Defined.

(** X3.  How far the deepening loop of the first program goes.  With a
    depth of 1 or more, no mate in one and a root that is neither checkmate
    nor stalemate: if every clock reading stays within 2 seconds of the
    first, [get_ai_move] returns the move of the search at the full depth;
    if the reading after the first search is already more than 2 seconds
    later, it returns the move of the search at depth 1. *)
Theorem get_ai_move_and_the_budget (R : Rules) (Hpop : pop_restores R)
    (clock : nat -> Q) (rest : nat) (w : World R) :
  let b := w_board w in
  let start_time := clock (w_ticks w) in
  let found d :=
    snd (fst (BlackRook.minimax d NegInf PosInf
                (color_eqb (turn b) BLACK) w)) in
  (forall m, In m (legal_moves b) -> is_checkmate (push b m) = false) ->
  is_checkmate b = false ->
  is_stalemate b = false ->
  ((forall k, (clock k - start_time <= 2)%Q) ->
   fst (BlackRook.get_ai_move clock (S rest) w) = found (S rest))
  /\ ((2 < clock (S (w_ticks w)) - start_time)%Q ->
      fst (BlackRook.get_ai_move clock (S rest) w) = found 1%nat).
Proof.
  cbv zeta. intros Hnomate Hc Hs.
  assert (Hlive : is_checkmate (w_board w) || is_stalemate (w_board w) = false)
    by (rewrite Hc, Hs; reflexivity).
  assert (Ef : List.find (BlackRook.mates_at_once (w_board w))
                 (legal_moves (w_board w)) = None)
    by (apply find_none_iff; exact Hnomate).
  split; intros Hclock; rewrite (get_ai_move_run Hpop); cbv zeta; rewrite Ef;
    rewrite (BlackRook_minimax_pure Hpop); cbn [fst snd].
  - rewrite (deepening_within_budget Hpop); [reflexivity | exact Hlive |].
    exact Hclock.
  - rewrite (deepening_out_of_budget Hpop); [reflexivity | exact Hlive |].
    exact Hclock.
Qed.

Lemma get_ai_move_and_the_budget_witness :
  let w := mkWorld (R:=KR.rules) Scenes.rook_hunt 0 in
  fst (BlackRook.get_ai_move Scenes.still_clock 2 w)
  = snd (fst (BlackRook.minimax 2 NegInf PosInf true w))
  /\ fst (BlackRook.get_ai_move Scenes.fast_clock 2 w)
     = snd (fst (BlackRook.minimax 1 NegInf PosInf true w)).
Proof.
  intros w.
  assert (Hno : forall m, In m (@legal_moves KR.rules (w_board w)) ->
                          @is_checkmate KR.rules (push (w_board w) m) = false).
  { apply (proj1 (find_none_iff (fun m => @is_checkmate KR.rules
                                            (push (w_board w) m)) _)).
    vm_compute. reflexivity. }
  split.
  - apply (proj1 (get_ai_move_and_the_budget KR.rules KR_pop_restores
                    Scenes.still_clock 1 w Hno eq_refl eq_refl)).
    intros k. vm_compute. discriminate.
  - apply (proj2 (get_ai_move_and_the_budget KR.rules KR_pop_restores
                    Scenes.fast_clock 1 w Hno eq_refl eq_refl)).
    vm_compute. reflexivity.
Defined.

(** ** The class: what a search leaves behind *)

Section SolverStates.

Context {R : Rules}.

Lemma table_kept_refl (s : Solver.Self R) : table_kept s s.
Proof. split; [|lia]. intros key e H. exists e. auto. Qed.

Lemma table_kept_trans (s1 s2 s3 : Solver.Self R) :
  table_kept s1 s2 -> table_kept s2 s3 -> table_kept s1 s3.
Proof.
  intros [H12 N12] [H23 N23]. split; [|lia].
  intros key e H. destruct (H12 key e H) as (e' & H' & Hd').
  destruct (H23 key e' H') as (e'' & H'' & Hd'').
  exists e''. split; [exact H''|].
  destruct Hd' as [->|Hd']; destruct Hd'' as [->|Hd'']; auto.
  right. lia.
Qed.

Lemma keeps_table_ret {A} (a : A) : keeps_table (ret a : Solver.C R A).
Proof. intros s. apply table_kept_refl. Qed.

Lemma keeps_table_bind {A B} (c : Solver.C R A) (k : A -> Solver.C R B) :
  keeps_table c -> (forall a, keeps_table (k a)) -> keeps_table (bind c k).
Proof.
  intros Hc Hk s. unfold bind. specialize (Hc s).
  destruct (c s) as [a s1]. cbn [snd] in Hc.
  apply (table_kept_trans s s1); [exact Hc | apply Hk].
Qed.

Lemma keeps_table_the_board : keeps_table (@Solver.the_board R).
Proof. intros s. apply table_kept_refl. Qed.

Lemma keeps_table_the_table : keeps_table (@Solver.the_table R).
Proof. intros s. apply table_kept_refl. Qed.

Lemma keeps_table_push (m : Move R) : keeps_table (Solver.board_push m).
Proof. intros s. split; [|simpl; lia]. intros key e H. exists e. auto. Qed.

Lemma keeps_table_pop : keeps_table (@Solver.board_pop R).
Proof. intros s. split; [|simpl; lia]. intros key e H. exists e. auto. Qed.

Lemma keeps_table_count : keeps_table (@Solver.count_node R).
Proof. intros s. split; [|simpl; lia]. intros key e H. exists e. auto. Qed.

Lemma keeps_table_evaluate : keeps_table (@Solver.evaluate_board R).
Proof.
  unfold Solver.evaluate_board.
  apply keeps_table_bind; [apply keeps_table_count|]. intros _.
  apply keeps_table_bind; [apply keeps_table_the_board|]. intros b.
  repeat match goal with
         | |- context [if ?c then _ else _] => destruct c
         | |- context [match ?c with Some _ => _ | None => _ end] => destruct c
         end; apply keeps_table_ret.
Qed.

Lemma keeps_table_max_loop (recur : Score -> Score -> bool -> Solver.C R Score) :
  (forall a b mx, keeps_table (recur a b mx)) ->
  forall moves best alpha beta,
    keeps_table (Solver.max_loop recur moves best alpha beta).
Proof.
  intros Hrec. induction moves as [|m rest IH]; intros; simpl.
  - apply keeps_table_ret.
  - apply keeps_table_bind; [apply keeps_table_push|]. intros _.
    apply keeps_table_bind; [apply Hrec|]. intros eval.
    apply keeps_table_bind; [apply keeps_table_pop|]. intros _.
    destruct (Sc.leb _ _); [apply keeps_table_ret | apply IH].
Qed.

Lemma keeps_table_min_loop (recur : Score -> Score -> bool -> Solver.C R Score) :
  (forall a b mx, keeps_table (recur a b mx)) ->
  forall moves best alpha beta,
    keeps_table (Solver.min_loop recur moves best alpha beta).
Proof.
  intros Hrec. induction moves as [|m rest IH]; intros; simpl.
  - apply keeps_table_ret.
  - apply keeps_table_bind; [apply keeps_table_push|]. intros _.
    apply keeps_table_bind; [apply Hrec|]. intros eval.
    apply keeps_table_bind; [apply keeps_table_pop|]. intros _.
    destruct (Sc.leb _ _); [apply keeps_table_ret | apply IH].
Qed.

(** A miss means that whatever is stored under the key is shallower than
    the depth asked for. *)
Lemma table_lookup_miss (table : gmap string Solver.Entry) key depth e :
  Solver.table_lookup table key depth = None ->
  table !! key = Some e -> (Solver.entry_depth e < depth)%nat.
Proof.
  unfold Solver.table_lookup. intros H He. rewrite He in H.
  destruct (Nat.leb_spec depth (Solver.entry_depth e)); [discriminate | lia].
Qed.

(** The store that ends a miss, seen from the state at the call. *)
Lemma store_after_miss {A} (c : Solver.C R A) (s : Solver.Self R) key value depth :
  (forall e, Solver.transposition_table s !! key = Some e ->
             (Solver.entry_depth e < depth)%nat) ->
  table_kept s (snd (c s)) ->
  table_kept s (snd (Solver.table_store key value depth (snd (c s)))).
Proof.
  intros Hmiss [Hk Hn]. split; [|exact Hn].
  intros key' e He. cbn [snd Solver.table_store Solver.transposition_table].
  destruct (decide (key = key')) as [<-|Hne].
  - rewrite lookup_insert_eq. eexists. split; [reflexivity|].
    right. cbn [Solver.entry_depth]. apply Hmiss, He.
  - rewrite lookup_insert_ne by exact Hne. apply Hk, He.
Qed.

Lemma keeps_table_minimax depth :
  forall alpha beta mx, keeps_table (Solver.minimax (R:=R) depth alpha beta mx).
Proof.
  induction depth as [|d IH]; intros alpha beta mx s;
    cbn [Solver.minimax]; unfold bind at 1; unfold Solver.the_board at 1;
    unfold bind at 1; unfold Solver.the_table at 1;
    destruct (Solver.table_lookup (Solver.transposition_table s)
                (fen (Solver.s_board s)) _) as [v|] eqn:El;
    try apply table_kept_refl;
    pose proof (fun e => table_lookup_miss _ _ _ e El) as Hmiss.
  - unfold bind at 1. pose proof (keeps_table_evaluate s) as He.
    destruct (Solver.evaluate_board s) as [v s1]. unfold bind, ret.
    cbn [snd] in *.
    apply (store_after_miss (fun _ => (tt, s1)) s _ v 0%nat Hmiss He).
  - destruct (is_game_over (Solver.s_board s)).
    + unfold bind at 1. pose proof (keeps_table_evaluate s) as He.
      destruct (Solver.evaluate_board s) as [v s1]. unfold bind, ret.
      cbn [snd] in *.
      apply (store_after_miss (fun _ => (tt, s1)) s _ v (S d) Hmiss He).
    + destruct mx.
      * unfold bind at 1.
        pose proof (keeps_table_max_loop (Solver.minimax d) IH
                      (legal_moves (Solver.s_board s)) NegInf alpha beta s)
          as He.
        destruct (Solver.max_loop _ _ _ _ _ s) as [v s1]. unfold bind, ret.
        cbn [snd] in *.
        apply (store_after_miss (fun _ => (tt, s1)) s _ v (S d) Hmiss He).
      * unfold bind at 1.
        pose proof (keeps_table_min_loop (Solver.minimax d) IH
                      (legal_moves (Solver.s_board s)) PosInf alpha beta s)
          as He.
        destruct (Solver.min_loop _ _ _ _ _ s) as [v s1]. unfold bind, ret.
        cbn [snd] in *.
        apply (store_after_miss (fun _ => (tt, s1)) s _ v (S d) Hmiss He).
Qed.

Lemma keeps_table_root_loop depth :
  forall moves best_value best_move,
    keeps_table (Solver.root_loop (R:=R) depth moves best_value best_move).
Proof.
  induction moves as [|m rest IH]; intros; simpl.
  - apply keeps_table_ret.
  - apply keeps_table_bind; [apply keeps_table_push|]. intros _.
    apply keeps_table_bind; [apply keeps_table_the_board|]. intros b.
    apply keeps_table_bind.
    { destruct (color_eqb (turn b) BLACK); apply keeps_table_minimax. }
    intros v.
    apply keeps_table_bind; [apply keeps_table_pop|]. intros _.
    apply keeps_table_bind; [apply keeps_table_the_board|]. intros b'.
    destruct (_ && _); [apply IH|]. destruct (_ && _); apply IH.
Qed.

Lemma keeps_table_find_best_move depth :
  keeps_table (Solver.find_best_move (R:=R) depth).
Proof.
  unfold Solver.find_best_move.
  apply keeps_table_bind; [apply keeps_table_the_board|]. intros b.
  apply keeps_table_root_loop.
Qed.

End SolverStates.

(** X4.  The table of the class never forgets and never gets shallower:
    after [minimax] or [find_best_move], every key stored before is still
    stored, with the entry it had or with one of strictly greater depth,
    and [nodes_evaluated] has not decreased. *)
Theorem table_never_forgets (R : Rules) (depth : nat) (alpha beta : Score)
    (maximizing_player : bool) (s : Solver.Self R) :
  table_kept s (snd (Solver.minimax depth alpha beta maximizing_player s))
  /\ table_kept s (snd (Solver.find_best_move depth s)).
Proof.
  split; [apply keeps_table_minimax | apply keeps_table_find_best_move].
Qed.

Section SolverBoard.

Context {R : Rules}.

Lemma keeps_board_ret {A} (a : A) : keeps_board (ret a : Solver.C R A).
Proof. intros s. reflexivity. Qed.

Lemma keeps_board_bind {A B} (c : Solver.C R A) (k : A -> Solver.C R B) :
  keeps_board c -> (forall a, keeps_board (k a)) -> keeps_board (bind c k).
Proof.
  intros Hc Hk s. unfold bind. specialize (Hc s).
  destruct (c s) as [a s1]. cbn [snd] in Hc. rewrite Hk. exact Hc.
Qed.

Lemma keeps_board_evaluate : keeps_board (@Solver.evaluate_board R).
Proof.
  intros [b tbl n].
  unfold Solver.evaluate_board, bind, Solver.count_node, Solver.the_board, ret.
  cbn [Solver.s_board fst snd].
  repeat match goal with
         | |- context [if ?c then _ else _] => destruct c
         | |- context [match ?c with Some _ => _ | None => _ end] => destruct c
         end; reflexivity.
Qed.

Lemma keeps_board_store key value depth :
  keeps_board (Solver.table_store (R:=R) key value depth).
Proof. intros s. reflexivity. Qed.

Hypothesis Hpop : pop_restores R.

(** A move is tried and taken back around a computation that hands the
    board back. *)
Lemma keeps_board_probe {A B} (c : Solver.C R A) (k : A -> Solver.C R B)
    (m : Move R) :
  keeps_board c -> (forall a, keeps_board (k a)) ->
  keeps_board (Solver.board_push m ;;
               let* a := c in Solver.board_pop ;; k a).
Proof.
  intros Hc Hk s. unfold bind at 1. unfold Solver.board_push at 1.
  unfold bind at 1.
  specialize (Hc (Solver.mkSelf (push (Solver.s_board s) m)
                    (Solver.transposition_table s) (Solver.nodes_evaluated s))).
  destruct (c _) as [a s1]. cbn [snd Solver.s_board] in Hc.
  unfold bind at 1. unfold Solver.board_pop at 1. rewrite Hk.
  cbn [Solver.s_board]. rewrite Hc. apply Hpop.
Qed.

Lemma keeps_board_max_loop (recur : Score -> Score -> bool -> Solver.C R Score) :
  (forall a b mx, keeps_board (recur a b mx)) ->
  forall moves best alpha beta,
    keeps_board (Solver.max_loop recur moves best alpha beta).
Proof.
  intros Hrec. induction moves as [|m rest IH]; intros; simpl.
  - apply keeps_board_ret.
  - apply keeps_board_probe; [apply Hrec|]. intros eval.
    destruct (Sc.leb _ _); [apply keeps_board_ret | apply IH].
Qed.

Lemma keeps_board_min_loop (recur : Score -> Score -> bool -> Solver.C R Score) :
  (forall a b mx, keeps_board (recur a b mx)) ->
  forall moves best alpha beta,
    keeps_board (Solver.min_loop recur moves best alpha beta).
Proof.
  intros Hrec. induction moves as [|m rest IH]; intros; simpl.
  - apply keeps_board_ret.
  - apply keeps_board_probe; [apply Hrec|]. intros eval.
    destruct (Sc.leb _ _); [apply keeps_board_ret | apply IH].
Qed.

Lemma keeps_board_minimax depth :
  forall alpha beta mx, keeps_board (Solver.minimax (R:=R) depth alpha beta mx).
Proof.
  induction depth as [|d IH]; intros alpha beta mx; cbn [Solver.minimax];
    (apply keeps_board_bind; [intros s; reflexivity|]); intros b;
    (apply keeps_board_bind; [intros s; reflexivity|]); intros tbl;
    destruct (Solver.table_lookup tbl (fen b) _); try apply keeps_board_ret.
  - apply keeps_board_bind; [apply keeps_board_evaluate|]. intros v.
    apply keeps_board_bind; [apply keeps_board_store|]. intros _.
    apply keeps_board_ret.
  - destruct (is_game_over b); [|destruct mx].
    + apply keeps_board_bind; [apply keeps_board_evaluate|]. intros v.
      apply keeps_board_bind; [apply keeps_board_store|]. intros _.
      apply keeps_board_ret.
    + apply keeps_board_bind; [apply keeps_board_max_loop, IH|]. intros v.
      apply keeps_board_bind; [apply keeps_board_store|]. intros _.
      apply keeps_board_ret.
    + apply keeps_board_bind; [apply keeps_board_min_loop, IH|]. intros v.
      apply keeps_board_bind; [apply keeps_board_store|]. intros _.
      apply keeps_board_ret.
Qed.

Lemma keeps_board_root_loop depth :
  forall moves best_value best_move,
    keeps_board (Solver.root_loop (R:=R) depth moves best_value best_move).
Proof.
  induction moves as [|m rest IH]; intros bv bm; cbn [Solver.root_loop].
  - apply keeps_board_ret.
  - intros s. unfold bind at 1. unfold Solver.board_push at 1.
    unfold bind at 1. unfold Solver.the_board at 1. cbn [Solver.s_board].
    unfold bind at 1.
    set (s0 := Solver.mkSelf (push (Solver.s_board s) m)
                 (Solver.transposition_table s) (Solver.nodes_evaluated s)).
    assert (Hs : forall mx,
               Solver.s_board (snd (Solver.minimax (depth - 1) NegInf PosInf
                                      mx s0))
               = push (Solver.s_board s) m)
      by (intros mx; rewrite keeps_board_minimax; reflexivity).
    destruct (color_eqb (turn (push (Solver.s_board s) m)) BLACK);
      [specialize (Hs true) | specialize (Hs false)];
      destruct (Solver.minimax _ _ _ _ s0) as [v s1]; cbn [snd] in Hs;
      unfold bind at 1; unfold Solver.board_pop at 1;
      unfold bind at 1; unfold Solver.the_board at 1; cbn [Solver.s_board];
      rewrite Hs, Hpop;
      (destruct (_ && _); [|destruct (_ && _)]); rewrite IH;
      reflexivity.
Qed.

Lemma keeps_board_find_best_move depth :
  keeps_board (Solver.find_best_move (R:=R) depth).
Proof.
  unfold Solver.find_best_move.
  apply keeps_board_bind; [intros s; reflexivity|]. intros b.
  apply keeps_board_root_loop.
Qed.

End SolverBoard.

Section SolverMove.

Context {R : Rules}.

Lemma root_loop_move depth (m : Move R) :
  forall moves best_value best_move s,
    fst (Solver.root_loop depth moves best_value best_move s) = Some m ->
    best_move = Some m \/ In m moves.
Proof.
  induction moves as [|x rest IH]; intros bv bm s H; cbn [Solver.root_loop] in H.
  - left. exact H.
  - unfold bind at 1 in H. unfold Solver.board_push at 1 in H.
    unfold bind at 1 in H. unfold Solver.the_board at 1 in H.
    unfold bind at 1 in H.
    destruct (if color_eqb _ BLACK then _ else _) as [v s1].
    unfold bind at 1 in H. unfold Solver.board_pop at 1 in H.
    unfold bind at 1 in H. unfold Solver.the_board at 1 in H.
    destruct (_ && _); [|destruct (_ && _)]; apply IH in H;
      destruct H as [H|H]; auto; try (right; right; exact H);
      injection H as ->; right; left; reflexivity.
Qed.

End SolverMove.

(** X5.  [minimax] and [find_best_move] of the class leave the board they
    were handed as they found it, with or without hits in the table, when
    [pop] undoes [push]. *)
Theorem class_search_hands_board_back (R : Rules) (Hpop : pop_restores R)
    (depth : nat) (alpha beta : Score) (maximizing_player : bool)
    (s : Solver.Self R) :
  Solver.s_board (snd (Solver.minimax depth alpha beta maximizing_player s))
  = Solver.s_board s
  /\ Solver.s_board (snd (Solver.find_best_move depth s)) = Solver.s_board s.
Proof.
  split; [apply keeps_board_minimax | apply keeps_board_find_best_move];
    exact Hpop.
Qed.

Lemma class_search_hands_board_back_witness :
  let s := Scenes.fresh Scenes.rook_on_seventh in
  Solver.s_board (snd (Solver.minimax 2 NegInf PosInf false s))
  = Solver.s_board s
  /\ Solver.s_board (snd (Solver.find_best_move 2 s)) = Solver.s_board s.
Proof.
  intros s. apply (class_search_hands_board_back KR.rules KR_pop_restores).
Defined.

(** X6.  The move [find_best_move] returns, when it returns one, is a
    legal move of the position it was called on. *)
Theorem find_best_move_is_legal (R : Rules) (depth : nat)
    (s : Solver.Self R) (m : Move R) :
  fst (Solver.find_best_move depth s) = Some m ->
  In m (legal_moves (Solver.s_board s)).
Proof.
  unfold Solver.find_best_move. unfold bind at 1. unfold Solver.the_board at 1.
  intros H. apply root_loop_move in H.
  destruct H as [H|H]; [discriminate | exact H].
Qed.

Lemma find_best_move_is_legal_witness :
  In (KR.mkMv 55 7) (@legal_moves KR.rules Scenes.rook_on_seventh).
Proof.
  apply (find_best_move_is_legal KR.rules 2
           (Scenes.fresh Scenes.rook_on_seventh)).
  vm_compute. reflexivity.
Defined.

(** ** The third program *)

Section WhiteRookChooser.

Context {R : Rules}.
Hypothesis Hpop : pop_restores R.

Abbreviation third_search d b :=
  (Search.alphabeta (R:=R) WhiteRook.evaluate_board WhiteRook.move_key d b
     NegInf PosInf (color_eqb (turn b) WHITE)).

Lemma third_deepening_step rounds cd bm (w : World R) :
  WhiteRook.deepening (S rounds) cd bm w
  = let b := w_board w in
    let found := snd (third_search cd b) in
    if is_checkmate b || is_stalemate b then (found, w)
    else WhiteRook.deepening rounds (S cd) found w.
Proof.
  cbv zeta. cbn [WhiteRook.deepening]. unfold bind at 1.
  unfold the_board at 1. unfold bind at 1.
  rewrite (WhiteRook_minimax_pure Hpop).
  destruct (Search.alphabeta _ _ _ _ _ _ _) as [v found].
  cbn [snd]. unfold bind at 1. unfold the_board at 1.
  destruct (is_checkmate (w_board w) || is_stalemate (w_board w)); reflexivity.
Qed.

Lemma third_deepening_runs rounds :
  forall cd bm (w : World R),
    WhiteRook.deepening (S rounds) cd bm w
    = (snd (third_search
              (if is_checkmate (w_board w) || is_stalemate (w_board w)
               then cd else (cd + rounds)%nat) (w_board w)), w).
Proof.
  induction rounds as [|r IH]; intros cd bm w; rewrite third_deepening_step;
    cbv zeta.
  - destruct (is_checkmate (w_board w) || is_stalemate (w_board w));
      [reflexivity|].
    cbn [WhiteRook.deepening]. unfold ret. rewrite Nat.add_0_r. reflexivity.
  - destruct (is_checkmate (w_board w) || is_stalemate (w_board w)) eqn:E;
      [reflexivity|].
    rewrite IH, E. replace (S cd + r)%nat with (cd + S r)%nat by lia.
    reflexivity.
Qed.

End WhiteRookChooser.

(** X7.  The deepening loop of the third program never stops early on a
    position still in play: its stop test looks at the root board, which
    the search hands back unchanged.  Called with depth [n >= 1],
    [get_ai_move] returns the move of the search at depth [n], or at depth
    1 when the root is checkmate or stalemate, and leaves the world as it
    was; called with depth 0 it returns [None]. *)
Theorem third_program_searches_to_full_depth (R : Rules)
    (Hpop : pop_restores R) (n : nat) (w : World R) :
  let b := w_board w in
  let found d :=
    snd (fst (WhiteRook.minimax d NegInf PosInf
                (color_eqb (turn b) WHITE) w)) in
  WhiteRook.get_ai_move 0 w = (None, w)
  /\ WhiteRook.get_ai_move (S n) w
     = (found (if is_checkmate b || is_stalemate b then 1%nat else S n), w).
Proof.
  cbv zeta. split; [reflexivity|].
  unfold WhiteRook.get_ai_move. rewrite (third_deepening_runs Hpop).
  rewrite (WhiteRook_minimax_pure Hpop). cbn [fst snd].
  destruct (is_checkmate (w_board w) || is_stalemate (w_board w)); reflexivity.
Qed.

Lemma third_program_searches_to_full_depth_witness :
  let w := mkWorld (R:=KR.rules) Scenes.two_rooks 0 in
  WhiteRook.get_ai_move 0 w = (None, w)
  /\ WhiteRook.get_ai_move 3 w
     = (snd (fst (WhiteRook.minimax 3 NegInf PosInf false w)), w).
Proof.
  intros w.
  apply (third_program_searches_to_full_depth KR.rules KR_pop_restores 2 w).
Defined.

(** X8.  [minimax] of the third program (lines 750-785), called with the
    full window, returns the value and the move of the minimax search
    without pruning over the same tree, with that program's evaluator and
    move order. *)
Theorem third_program_pruning_keeps_result (R : Rules)
    (Hpop : pop_restores R) (depth : nat) (maximizing_player : bool)
    (w : World R) :
  fst (WhiteRook.minimax depth NegInf PosInf maximizing_player w)
  = Search.unpruned_minimax WhiteRook.evaluate_board WhiteRook.move_key
      depth (w_board w) maximizing_player.
Proof.
  rewrite (WhiteRook_minimax_pure Hpop). cbn [fst].
  apply alphabeta_full_window.
Qed.

Lemma third_program_pruning_keeps_result_witness :
  fst (WhiteRook.minimax (R:=KR.rules) 2 NegInf PosInf false
         (mkWorld (R:=KR.rules) Scenes.two_rooks 0))
  = Search.unpruned_minimax (R:=KR.rules) WhiteRook.evaluate_board
      WhiteRook.move_key 2 Scenes.two_rooks false.
Proof.
  apply (third_program_pruning_keeps_result KR.rules KR_pop_restores).
Defined.

Section WhiteRookScores.

Context {R : Rules}.

Lemma WhiteRook_score_bound (b : Board R) :
  kings_on_board b -> is_checkmate b = false ->
  exists z, WhiteRook.evaluate_board b = Fin z /\ -500 <= z <= 135.
Proof.
  intros Hk Hc. unfold WhiteRook.evaluate_board. rewrite Hc.
  destruct (is_stalemate b); [exists (-500); split; [reflexivity | lia]|].
  destruct (find_rook b WHITE) as [rook|];
    [|exists 0; split; [reflexivity | lia]].
  destruct (py_not (Some rook)); [exists 0; split; [reflexivity | lia]|].
  pose proof (square_file_range (king b WHITE)) as Hwf.
  pose proof (square_rank_range (king b WHITE) (Hk WHITE)) as Hwr.
  pose proof (square_file_range (king b BLACK)) as Hbf.
  pose proof (square_rank_range (king b BLACK) (Hk BLACK)) as Hbr.
  pose proof (Hk BLACK) as Hb.
  pose proof (Z.mod_pos_bound (king b BLACK) 8 ltac:(lia)) as Hm.
  assert (Hq : 0 <= king b BLACK / 8 <= 7).
  { pose proof (Z.div_le_mono (king b BLACK) 63 8 ltac:(lia) ltac:(lia)) as Hhi.
    change (63 / 8) with 7 in Hhi.
    pose proof (Z.div_pos (king b BLACK) 8 ltac:(lia) ltac:(lia)). lia. }
  cbv zeta.
  repeat match goal with
         | |- context [if ?c then _ else _] => destruct c
         end; eexists; (split; [reflexivity | lia]).
Qed.

End WhiteRookScores.

(** X9.  In a position that is not checkmate and holds both kings, the
    third program's evaluator returns a score between -500 and 135: the
    stalemate penalty is its lowest score, and the mate scores of plus and
    minus 10000 lie outside the range. *)
Theorem third_program_scores_stay_below_mate (R : Rules) (b : Board R) :
  kings_on_board b ->
  is_checkmate b = false ->
  exists z, WhiteRook.evaluate_board b = Fin z
            /\ -500 <= z <= 135 /\ Z.abs z < MATE.
Proof.
  intros Hk Hc. destruct (WhiteRook_score_bound b Hk Hc) as (z & Hz & Hb).
  exists z. unfold MATE. split; [exact Hz | lia].
Qed.

Lemma third_program_scores_stay_below_mate_witness :
  exists z, WhiteRook.evaluate_board (R:=KR.rules) Scenes.rook_kept = Fin z
            /\ -500 <= z <= 135 /\ Z.abs z < MATE.
Proof.
  apply (third_program_scores_stay_below_mate KR.rules Scenes.rook_kept).
  - intros []; vm_compute; split; congruence.
  - vm_compute. reflexivity.
Defined.

(** ** Squares on the screen *)

Section ScreenSquares.

Lemma square_file_mod (sq : Square) : square_file sq = sq mod 8.
Proof.
  unfold square_file. change 7 with (Z.ones 3).
  rewrite Z.land_ones by lia. reflexivity.
Qed.

Lemma square_rank_div (sq : Square) : square_rank sq = sq / 8.
Proof.
  unfold square_rank. rewrite Z.shiftr_div_pow2 by lia. reflexivity.
Qed.

Lemma chess_square_file (c r : Z) :
  0 <= c < 8 -> square_file (chess_square c r) = c.
Proof.
  intros H. rewrite square_file_mod. unfold chess_square.
  rewrite Z.add_comm, Z.mod_add by lia. apply Z.mod_small. exact H.
Qed.

Lemma chess_square_rank (c r : Z) :
  0 <= c < 8 -> square_rank (chess_square c r) = r.
Proof.
  intros H. rewrite square_rank_div. unfold chess_square.
  rewrite Z.div_add_l by lia. rewrite Z.div_small by exact H. lia.
Qed.

Lemma chess_square_of (sq : Square) :
  chess_square (sq mod 8) (sq / 8) = sq.
Proof.
  unfold chess_square. pose proof (Z.div_mod sq 8 ltac:(lia)). lia.
Qed.

Lemma chess_square_range (c r : Z) :
  0 <= c < 8 -> 0 <= r < 8 -> 0 <= chess_square c r < 64.
Proof. unfold chess_square. lia. Qed.

(** The cell of a pixel: [(a * size + d) // size = a] inside the cell. *)
Lemma cell_of_pixel (a d size : Z) :
  0 <= d < size -> (a * size + d) / size = a.
Proof.
  intros H. rewrite Z.div_add_l by lia. rewrite Z.div_small by exact H. lia.
Qed.

Lemma pixel_cell_range (x size : Z) :
  0 < size -> 0 <= x < 8 * size -> 0 <= x / size < 8.
Proof.
  intros Hs H. split.
  - apply Z.div_pos; lia.
  - apply Z.div_lt_upper_bound; lia.
Qed.

End ScreenSquares.

Section FirstScreen.

Context {R : Rules}.

Lemma first_draw_squares_blit (board : Board R) (blit : Blit) :
  forall squares,
    In blit (fst (BlackRookScreen.draw_squares board squares)) ->
    exists square piece,
      In square squares
      /\ piece_at board square = Some piece
      /\ blit = mkBlit (KR.symbol piece)
                  (square_file square * BlackRookScreen.SQUARE_SIZE)
                  ((7 - square_rank square) * BlackRookScreen.SQUARE_SIZE).
Proof.
  induction squares as [|sq rest IH]; cbn [BlackRookScreen.draw_squares].
  - intros [].
  - destruct (piece_at board sq) as [p|] eqn:Ep.
    + destruct (existsb _ BlackRookScreen.PIECES); [|intros []].
      destruct (BlackRookScreen.draw_squares board rest) as [blits raised].
      cbn [fst] in *. intros [H|H].
      * exists sq, p. split; [left; reflexivity|]. split; [exact Ep|].
        symmetry. exact H.
      * destruct (IH H) as (sq' & p' & Hin & Hp & Hb).
        exists sq', p'. split; [right; exact Hin|]. split; assumption.
    + intros H. destruct (IH H) as (sq' & p' & Hin & Hp & Hb).
      exists sq', p'. split; [right; exact Hin|]. split; assumption.
Qed.

Lemma first_draw_squares_raises (board : Board R) :
  forall squares,
    snd (BlackRookScreen.draw_squares board squares) = None
    <-> (forall square piece,
            In square squares -> piece_at board square = Some piece ->
            In (KR.symbol piece) BlackRookScreen.PIECES).
Proof.
  induction squares as [|sq rest IH]; cbn [BlackRookScreen.draw_squares].
  - split; [intros _ square piece [] | reflexivity].
  - destruct (piece_at board sq) as [p|] eqn:Ep.
    + destruct (existsb (String.eqb (KR.symbol p)) BlackRookScreen.PIECES)
        eqn:Ex.
      * destruct (BlackRookScreen.draw_squares board rest) as [blits raised].
        cbn [snd] in *. rewrite IH. split.
        -- intros H square piece [<-|Hin] Hp.
           ++ rewrite Ep in Hp. injection Hp as <-.
              apply List.existsb_exists in Ex.
              destruct Ex as (k & Hk & Heq).
              apply String.eqb_eq in Heq. subst k. exact Hk.
           ++ exact (H square piece Hin Hp).
        -- intros H square piece Hin Hp. apply (H square piece); auto.
           right. exact Hin.
      * cbn [snd]. split; [discriminate|]. intros H. exfalso.
        specialize (H sq p (or_introl eq_refl) Ep).
        assert (Et : existsb (String.eqb (KR.symbol p))
                       BlackRookScreen.PIECES = true).
        { apply List.existsb_exists. exists (KR.symbol p).
          split; [exact H | apply String.eqb_refl]. }
        congruence.
    + rewrite IH. split.
      * intros H square piece [<-|Hin] Hp; [congruence|].
        exact (H square piece Hin Hp).
      * intros H square piece Hin Hp. apply (H square piece); auto.
        right. exact Hin.
Qed.

Lemma first_draw_pieces_blit (board : Board R) (blit : Blit) :
  In blit (fst (BlackRookScreen.draw_pieces board)) ->
  exists square piece,
    In square SQUARES
    /\ piece_at board square = Some piece
    /\ blit = mkBlit (KR.symbol piece)
                (square_file square * BlackRookScreen.SQUARE_SIZE)
                ((7 - square_rank square) * BlackRookScreen.SQUARE_SIZE).
Proof. unfold BlackRookScreen.draw_pieces. apply first_draw_squares_blit. Qed.

Lemma first_draw_pieces_raises (board : Board R) :
  snd (BlackRookScreen.draw_pieces board) = None
  <-> (forall square piece,
          In square SQUARES -> piece_at board square = Some piece ->
          In (KR.symbol piece) BlackRookScreen.PIECES).
Proof. unfold BlackRookScreen.draw_pieces. apply first_draw_squares_raises. Qed.

End FirstScreen.

(** X10.  [get_square_under_mouse] of the first program returns [None]
    exactly for positions outside the 600 by 600 window; inside, it
    returns a square of the board, in the file and the rank of the cell of
    75 by 75 pixels that holds the position, rank 8 on top. *)
Theorem mouse_square_of_the_first_program (x y : Z) :
  (BlackRookScreen.get_square_under_mouse (x, y) = None
   <-> ~ (0 <= x < 600 /\ 0 <= y < 600))
  /\ (forall sq,
         BlackRookScreen.get_square_under_mouse (x, y) = Some sq ->
         0 <= sq < 64
         /\ square_file sq = x / 75
         /\ square_rank sq = 7 - y / 75).
Proof.
  unfold BlackRookScreen.get_square_under_mouse, BlackRookScreen.WIDTH,
    BlackRookScreen.HEIGHT, BlackRookScreen.SQUARE_SIZE,
    BlackRookScreen.WIDTH.
  change (600 / 8) with 75.
  destruct (Z.leb_spec 0 x); destruct (Z.ltb_spec x 600);
    destruct (Z.leb_spec 0 y); destruct (Z.ltb_spec y 600); cbn [andb];
    (split; [split; [try discriminate; intros _; lia
                    | try reflexivity; intros Hn; exfalso; apply Hn; lia]|]);
    try (intros sq Hsq; discriminate Hsq).
  intros sq Hsq. injection Hsq as <-.
  pose proof (pixel_cell_range x 75 ltac:(lia) ltac:(lia)) as Hc.
  pose proof (pixel_cell_range y 75 ltac:(lia) ltac:(lia)) as Hr.
  split; [apply chess_square_range; lia|].
  split; [apply chess_square_file | apply chess_square_rank]; exact Hc.
Qed.

(** X11.  A click anywhere on a piece drawn by the first program selects
    the square the piece stands on: for every blit of [draw_pieces] and
    every position within 75 pixels right of and below its corner,
    [get_square_under_mouse] returns a square that holds the piece of the
    blit's symbol. *)
Theorem click_on_a_drawn_piece_finds_its_square (R : Rules)
    (board : Board R) (symbol : string) (x y dx dy : Z) :
  In (mkBlit symbol x y) (fst (BlackRookScreen.draw_pieces board)) ->
  0 <= dx < 75 -> 0 <= dy < 75 ->
  exists sq piece,
    BlackRookScreen.get_square_under_mouse (x + dx, y + dy) = Some sq
    /\ piece_at board sq = Some piece
    /\ KR.symbol piece = symbol.
Proof.
  intros Hin Hdx Hdy. apply first_draw_pieces_blit in Hin.
  destruct Hin as (sq & p & Hsq & Hp & Hb).
  injection Hb as -> -> ->.
  apply SQUARES_range in Hsq.
  pose proof (square_file_range sq) as Hf.
  pose proof (square_rank_range sq Hsq) as Hr.
  exists sq, p. split; [|split; [exact Hp | reflexivity]].
  unfold BlackRookScreen.get_square_under_mouse, BlackRookScreen.WIDTH,
    BlackRookScreen.HEIGHT, BlackRookScreen.SQUARE_SIZE,
    BlackRookScreen.WIDTH.
  change (600 / 8) with 75.
  destruct (Z.leb_spec 0 (square_file sq * 75 + dx)); [|lia].
  destruct (Z.ltb_spec (square_file sq * 75 + dx) 600); [|lia].
  destruct (Z.leb_spec 0 ((7 - square_rank sq) * 75 + dy)); [|lia].
  destruct (Z.ltb_spec ((7 - square_rank sq) * 75 + dy) 600); [|lia].
  cbn [andb]. rewrite !cell_of_pixel by assumption.
  replace (7 - (7 - square_rank sq)) with (square_rank sq) by lia.
  rewrite square_file_mod, square_rank_div, chess_square_of. reflexivity.
Qed.

Lemma click_on_a_drawn_piece_finds_its_square_witness :
  exists sq piece,
    BlackRookScreen.get_square_under_mouse (525 + 10, 0 + 74) = Some sq
    /\ @piece_at KR.rules Scenes.rook_hunt sq = Some piece
    /\ KR.symbol piece = "r".
Proof.
  apply (click_on_a_drawn_piece_finds_its_square KR.rules Scenes.rook_hunt
           "r" 525 0 10 74).
  - vm_compute. auto.
  - lia.
  - lia.
Defined.

(** X12.  [draw_pieces] of the first program raises [KeyError] exactly
    when some square holds a piece other than the white king, the black
    king and the black rook, the three symbols [load_images] puts into
    [PIECES]. *)
Theorem first_program_draws_only_its_three_pieces (R : Rules)
    (board : Board R) :
  snd (BlackRookScreen.draw_pieces board) = None
  <-> (forall square piece,
          In square SQUARES -> piece_at board square = Some piece ->
          In (KR.symbol piece) ["K"; "k"; "r"]).
Proof. apply first_draw_pieces_raises. Qed.

Section ThirdScreen.

Context {R : Rules}.

Lemma third_draw_squares_blit (board : Board R) (blit : Blit) :
  forall squares,
    In blit (fst (WhiteRookScreen.draw_squares board squares)) ->
    exists square piece,
      In square squares
      /\ piece_at board square = Some piece
      /\ blit = mkBlit (KR.symbol piece)
                  (square mod 8 * WhiteRookScreen.SQUARE_SIZE)
                  ((7 - square / 8) * WhiteRookScreen.SQUARE_SIZE).
Proof.
  induction squares as [|sq rest IH]; cbn [WhiteRookScreen.draw_squares].
  - intros [].
  - destruct (piece_at board sq) as [p|] eqn:Ep.
    + destruct (existsb _ WhiteRookScreen.PIECES); [|intros []].
      destruct (WhiteRookScreen.draw_squares board rest) as [blits raised].
      cbn [fst] in *. intros [H|H].
      * exists sq, p. split; [left; reflexivity|]. split; [exact Ep|].
        symmetry. exact H.
      * destruct (IH H) as (sq' & p' & Hin & Hp & Hb).
        exists sq', p'. split; [right; exact Hin|]. split; assumption.
    + intros H. destruct (IH H) as (sq' & p' & Hin & Hp & Hb).
      exists sq', p'. split; [right; exact Hin|]. split; assumption.
Qed.

Lemma third_draw_pieces_blit (board : Board R) (blit : Blit) :
  In blit (fst (WhiteRookScreen.draw_pieces board)) ->
  exists square piece,
    In square SQUARES
    /\ piece_at board square = Some piece
    /\ blit = mkBlit (KR.symbol piece)
                (square mod 8 * WhiteRookScreen.SQUARE_SIZE)
                ((7 - square / 8) * WhiteRookScreen.SQUARE_SIZE).
Proof. unfold WhiteRookScreen.draw_pieces. apply third_draw_squares_blit. Qed.

End ThirdScreen.

(** X13.  [get_square_under_mouse] of the third program has no test of
    the window.  For a position inside the 480 by 480 window it returns a
    square of the board, in the file and rank of the 60-pixel cell; a click
    anywhere on a piece drawn by [draw_pieces] gives the square the piece
    stands on; and a position 480 pixels further right gives the number of
    the square one rank up, which is 64 or more from the top rank. *)
Theorem mouse_square_of_the_third_program (R : Rules) (board : Board R)
    (x y : Z) :
  (0 <= x < 480 -> 0 <= y < 480 ->
   let sq := WhiteRookScreen.get_square_under_mouse (x, y) in
   0 <= sq < 64 /\ square_file sq = x / 60 /\ square_rank sq = 7 - y / 60)
  /\ (forall symbol dx dy,
         In (mkBlit symbol x y) (fst (WhiteRookScreen.draw_pieces board)) ->
         0 <= dx < 60 -> 0 <= dy < 60 ->
         exists piece,
           piece_at board
             (WhiteRookScreen.get_square_under_mouse (x + dx, y + dy))
           = Some piece
           /\ KR.symbol piece = symbol)
  /\ WhiteRookScreen.get_square_under_mouse (x + 480, y)
     = WhiteRookScreen.get_square_under_mouse (x, y) + 8.
Proof.
  unfold WhiteRookScreen.get_square_under_mouse, WhiteRookScreen.SQUARE_SIZE,
    WhiteRookScreen.WIDTH.
  change (480 / 8) with 60.
  split; [|split].
  - intros Hx Hy. cbv zeta.
    pose proof (pixel_cell_range x 60 ltac:(lia) ltac:(lia)) as Hc.
    pose proof (pixel_cell_range y 60 ltac:(lia) ltac:(lia)) as Hr.
    split; [apply chess_square_range; lia|].
    split; [apply chess_square_file | apply chess_square_rank]; exact Hc.
  - intros symbol dx dy Hin Hdx Hdy.
    apply third_draw_pieces_blit in Hin.
    destruct Hin as (sq & p & Hsq & Hp & Hb).
    unfold WhiteRookScreen.SQUARE_SIZE, WhiteRookScreen.WIDTH in Hb.
    change (480 / 8) with 60 in Hb.
    injection Hb as -> -> ->.
    exists p. split; [|reflexivity].
    rewrite !cell_of_pixel by assumption.
    replace (7 - (7 - sq / 8)) with (sq / 8) by lia.
    rewrite chess_square_of. exact Hp.
  - replace (x + 480) with (8 * 60 + x) by lia.
    rewrite Z.div_add_l by lia. unfold chess_square. lia.
Qed.

Lemma mouse_square_of_the_third_program_witness :
  let sq := WhiteRookScreen.get_square_under_mouse (479, 0) in
  0 <= sq < 64 /\ square_file sq = 479 / 60 /\ square_rank sq = 7 - 0 / 60.
Proof.
  apply (proj1 (mouse_square_of_the_third_program KR.rules Scenes.rook_kept
                  479 0)); lia.
Defined.

(** ** The clicks of the class *)

Lemma KR_legal_membership : legal_membership KRMoves.ops.
Proof.
  intros b m. cbn [is_legal KRMoves.ops legal_moves KR.rules].
  rewrite List.existsb_exists. split.
  - intros (m' & Hin & Heq). unfold KRMoves.mv_eqb in Heq.
    apply andb_true_iff in Heq. destruct Heq as [Hf Ht].
    apply Z.eqb_eq in Hf. apply Z.eqb_eq in Ht.
    destruct m as [f t], m' as [f' t']. simpl in *. subst. exact Hin.
  - intros Hin. exists m. split; [exact Hin|].
    unfold KRMoves.mv_eqb. rewrite !Z.eqb_refl. reflexivity.
Qed.

(** X14.  [handle_click] changes the board only by pushing a legal move:
    it returns [True] exactly when it has pushed the move from the
    selected square to the clicked square, that move is legal, it was
    Black's turn and the selection is cleared; when it returns [False] the
    board is as it was. *)
Theorem handle_click_moves_only_legally (R : Rules) (O : MoveOps R)
    (Hlegal : legal_membership O) (clock : nat -> Q) (x y : Z)
    (g : SolverScreen.Game R) :
  let result := SolverScreen.handle_click O clock (x, y) g in
  let square := chess_square ((x - 20) / 75) (7 - (y - 20) / 75) in
  (fst result = true ->
   turn (SolverScreen.g_board g) = BLACK
   /\ exists selected,
        SolverScreen.selected_square g = Some selected
        /\ In (chess_Move O selected square)
              (legal_moves (SolverScreen.g_board g))
        /\ SolverScreen.g_board (snd result)
           = push (SolverScreen.g_board g) (chess_Move O selected square)
        /\ SolverScreen.selected_square (snd result) = None
        /\ SolverScreen.possible_moves (snd result) = [])
  /\ (fst result = false ->
      SolverScreen.g_board (snd result) = SolverScreen.g_board g).
Proof.
  cbv zeta.
  unfold SolverScreen.handle_click, SolverScreen.MARGIN,
    SolverScreen.BOARD_SIZE, SolverScreen.SQUARE_SIZE, SolverScreen.WIDTH,
    SolverScreen.BOARD_SIZE.
  change ((640 - 600) / 2) with 20. change (600 / 8) with 75.
  destruct (_ && _ && _ && _); [|split; [discriminate | reflexivity]].
  destruct (color_eqb (turn (SolverScreen.g_board g)) BLACK) eqn:Et;
    [|split; [discriminate | reflexivity]].
  destruct (match piece_at _ _ with Some _ => _ | None => _ end);
    [split; [discriminate | reflexivity]|].
  destruct (SolverScreen.selected_square g) as [selected|] eqn:Es;
    [|split; [discriminate | reflexivity]].
  destruct (py_not (Some selected)); [split; [discriminate | reflexivity]|].
  destruct (is_legal O (SolverScreen.g_board g) _) eqn:El;
    [|split; [discriminate | reflexivity]].
  split; [|discriminate]. intros _. split.
  - destruct (turn (SolverScreen.g_board g)); [discriminate | reflexivity].
  - exists selected. split; [reflexivity|].
    split; [apply Hlegal; exact El|]. cbn [snd SolverScreen.g_board
      SolverScreen.selected_square SolverScreen.possible_moves]. auto.
Qed.

Lemma handle_click_moves_only_legally_witness :
  let g := SolverScreen.mkGame (R:=KR.rules) Scenes.rook_kept
             (Some 36) [] "" 0%Q 0 in
  let result := SolverScreen.handle_click KRMoves.ops Scenes.still_clock
                  (330, 180) g in
  fst result = true
  /\ In (KR.mkMv 36 44) (@legal_moves KR.rules Scenes.rook_kept)
  /\ SolverScreen.g_board (snd result)
     = KR.KR_push Scenes.rook_kept (KR.mkMv 36 44).
Proof.
  intros g result.
  assert (Ht : fst result = true) by (vm_compute; reflexivity).
  destruct (proj1 (handle_click_moves_only_legally KR.rules KRMoves.ops
                     KR_legal_membership Scenes.still_clock 330 180 g) Ht)
    as (_ & selected & Hsel & Hin & Hb & _).
  injection Hsel as <-.
  split; [exact Ht|]. split; [exact Hin | exact Hb].
Defined.

(** X15.  A piece selected on a1 cannot be moved by clicking: a1 is
    square 0, which [elif self.selected_square] takes for no selection.
    With a1 selected, [handle_click] returns [False] and leaves the board
    as it was, whatever is clicked; after a click on a square without a
    black piece nothing at all has changed, not even the message. *)
Theorem selection_on_a1_is_ignored (R : Rules) (O : MoveOps R)
    (clock : nat -> Q) (x y : Z) (g : SolverScreen.Game R) :
  SolverScreen.selected_square g = Some 0 ->
  let result := SolverScreen.handle_click O clock (x, y) g in
  let square := chess_square ((x - 20) / 75) (7 - (y - 20) / 75) in
  fst result = false
  /\ SolverScreen.g_board (snd result) = SolverScreen.g_board g
  /\ (turn (SolverScreen.g_board g) = BLACK ->
      (forall p, piece_at (SolverScreen.g_board g) square = Some p ->
                 color p = WHITE) ->
      snd result = g).
Proof.
  intros Hs. cbv zeta.
  unfold SolverScreen.handle_click, SolverScreen.MARGIN,
    SolverScreen.BOARD_SIZE, SolverScreen.SQUARE_SIZE, SolverScreen.WIDTH,
    SolverScreen.BOARD_SIZE.
  change ((640 - 600) / 2) with 20. change (600 / 8) with 75.
  destruct (_ && _ && _ && _); [|auto].
  destruct (color_eqb (turn (SolverScreen.g_board g)) BLACK) eqn:Et.
  - destruct (piece_at (SolverScreen.g_board g) _) as [p|] eqn:Ep.
    + destruct (color_eqb (color p) BLACK) eqn:Ec.
      * repeat split. intros _ Hw. specialize (Hw p eq_refl).
        rewrite Hw in Ec. discriminate.
      * rewrite Hs. cbn [py_not Z.eqb]. auto.
    + rewrite Hs. cbn [py_not Z.eqb]. auto.
  - repeat split. intros Hb. rewrite Hb in Et. discriminate.
Qed.

Lemma selection_on_a1_is_ignored_witness :
  let g := SolverScreen.mkGame (R:=KR.rules) KRMoves.king_in_corner
             (Some 0) [KR.mkMv 0 1] "" 0%Q 0 in
  let result := SolverScreen.handle_click KRMoves.ops Scenes.still_clock
                  (100, 600) g in
  In (KR.mkMv 0 1) (@legal_moves KR.rules KRMoves.king_in_corner)
  /\ chess_square ((100 - 20) / 75) (7 - (600 - 20) / 75) = 1
  /\ fst result = false
  /\ SolverScreen.g_board (snd result) = SolverScreen.g_board g.
Proof.
  intros g result.
  destruct (selection_on_a1_is_ignored KR.rules KRMoves.ops
              Scenes.still_clock 100 600 g eq_refl) as (H1 & H2 & _).
  split; [vm_compute; auto|]. split; [reflexivity|]. split; assumption.
Defined.

(** ** The order in which moves are searched *)

Section SortOrder.

Context {A : Type}.

Lemma Qltb_true (a b : Q) : Qltb a b = true -> (a <= b)%Q.
Proof.
  unfold Qltb. intros H. apply negb_true_iff in H.
  destruct (Qlt_le_dec a b) as [Hlt|Hle]; [apply Qlt_le_weak, Hlt|].
  apply Qle_bool_iff in Hle. congruence.
Qed.

Lemma Qltb_false (a b : Q) : Qltb a b = false -> (b <= a)%Q.
Proof.
  unfold Qltb. intros H. apply negb_false_iff in H.
  apply Qle_bool_iff. exact H.
Qed.

Lemma in_order_trans reverse (x y z : Q * A) :
  in_order reverse x y -> in_order reverse y z -> in_order reverse x z.
Proof.
  unfold in_order. destruct reverse; intros H1 H2.
  - exact (Qle_trans _ _ _ H2 H1).
  - exact (Qle_trans _ _ _ H1 H2).
Qed.

Lemma Forall_insert_keyed (P : Q * A -> Prop) reverse (x : Q * A) l :
  P x -> Forall P l -> Forall P (insert_keyed reverse x l).
Proof.
  intros Hx Hl. rewrite List.Forall_forall in *. intros y Hy.
  apply (Permutation_in y (insert_keyed_perm reverse x l)) in Hy.
  destruct Hy as [<-|Hy]; [exact Hx | apply Hl, Hy].
Qed.

Lemma insert_keyed_sorted reverse (x : Q * A) l :
  StronglySorted (in_order reverse) l ->
  StronglySorted (in_order reverse) (insert_keyed reverse x l).
Proof.
  induction l as [|y rest IH]; intros Hs; simpl.
  - constructor; constructor.
  - apply StronglySorted_inv in Hs. destruct Hs as [Hrest Hy].
    destruct (stays_in_front reverse (fst x) (fst y)) eqn:E.
    + constructor; [apply IH, Hrest|].
      apply Forall_insert_keyed; [|exact Hy].
      unfold in_order, stays_in_front in *.
      destruct reverse; apply Qltb_true, E.
    + assert (Hxy : in_order reverse x y)
        by (unfold in_order, stays_in_front in *;
            destruct reverse; apply Qltb_false, E).
      constructor; [constructor; assumption|].
      constructor; [exact Hxy|].
      apply List.Forall_forall. intros z Hz.
      apply (in_order_trans _ _ _ _ Hxy).
      exact (proj1 (List.Forall_forall _ _) Hy z Hz).
Qed.

Lemma StronglySorted_tail {B} (P : B -> B -> Prop) (l1 l2 : list B) :
  StronglySorted P (l1 ++ l2) -> StronglySorted P l2.
Proof.
  induction l1 as [|x rest IH]; simpl; [auto|].
  intros H. apply StronglySorted_inv in H. apply IH, H.
Qed.

Lemma sorted_pairs reverse (l : list (Q * A)) :
  StronglySorted (in_order reverse) (fold_right (insert_keyed reverse) [] l).
Proof.
  induction l as [|x rest IH]; simpl; [constructor|].
  apply insert_keyed_sorted, IH.
Qed.

Lemma sorted_pairs_keys (key : A -> Q) reverse (l : list A) :
  Forall (fun e => fst e = key (snd e))
         (fold_right (insert_keyed reverse) []
            (map (fun m => (key m, m)) l)).
Proof.
  induction l as [|x rest IH]; simpl; [constructor|].
  apply Forall_insert_keyed; [reflexivity | exact IH].
Qed.

(** Of two elements of the sorted list, the one in front has the larger
    key when [reverse], the smaller one otherwise. *)
Lemma sort_keyed_in_order (key : A -> Q) reverse (l : list A)
    (l1 : list A) (m1 : A) (l2 : list A) (m2 : A) (l3 : list A) :
  sort_keyed reverse (map (fun m => (key m, m)) l)
  = l1 ++ m1 :: l2 ++ m2 :: l3 ->
  if reverse then (key m2 <= key m1)%Q else (key m1 <= key m2)%Q.
Proof.
  unfold sort_keyed.
  pose proof (sorted_pairs reverse (map (fun m => (key m, m)) l)) as Hs.
  pose proof (sorted_pairs_keys key reverse l) as Hk.
  revert Hs Hk.
  generalize (fold_right (insert_keyed reverse) []
                (map (fun m => (key m, m)) l)).
  intros sorted Hs Hk E.
  apply List.map_eq_app in E. destruct E as (k1 & k23 & -> & _ & E).
  apply List.map_eq_cons in E. destruct E as (e1 & k2' & -> & <- & E).
  apply List.map_eq_app in E. destruct E as (k2 & k3' & -> & _ & E).
  apply List.map_eq_cons in E. destruct E as (e2 & k3 & -> & <- & _).
  apply StronglySorted_tail in Hs.
  apply StronglySorted_inv in Hs. destruct Hs as [_ Hall].
  rewrite List.Forall_forall in Hall.
  assert (Ho : in_order reverse e1 e2)
    by (apply Hall, List.in_or_app; right; left; reflexivity).
  rewrite List.Forall_forall in Hk.
  assert (K1 : fst e1 = key (snd e1))
    by (apply Hk, List.in_or_app; right; left; reflexivity).
  assert (K2 : fst e2 = key (snd e2)).
  { apply Hk, List.in_or_app. right. right.
    apply List.in_or_app. right. left. reflexivity. }
  unfold in_order in Ho. rewrite K1, K2 in Ho. exact Ho.
Qed.

End SortOrder.

(** The distance from the centre [evaluate_move] computes is never
    negative, and at most 3.5 on the squares of the board. *)
Lemma center_distance_range (sq : Square) :
  (0 <= Qmax (Qabs ((7 # 2) - inject_Z (square_file sq)))
            (Qabs ((7 # 2) - inject_Z (square_rank sq))))%Q
  /\ (0 <= sq < 64 ->
      (Qmax (Qabs ((7 # 2) - inject_Z (square_file sq)))
            (Qabs ((7 # 2) - inject_Z (square_rank sq))) <= 7 # 2)%Q).
Proof.
  split.
  - eapply Qle_trans; [apply Qabs_nonneg | apply Q.le_max_l].
  - intros Hsq.
    assert (Hf : 0 <= square_file sq <= 7)
      by (rewrite square_file_mod; pose proof (Z.mod_pos_bound sq 8); lia).
    assert (Hr : 0 <= square_rank sq <= 7).
    { rewrite square_rank_div. split.
      - apply Z.div_pos; lia.
      - apply Z.lt_succ_r, Z.div_lt_upper_bound; lia. }
    assert (Q0 : forall z, 0 <= z <= 7 ->
                 (Qabs ((7 # 2) - inject_Z z) <= 7 # 2)%Q).
    { intros z Hz. apply Qabs_Qle_condition.
      assert (0 <= inject_Z z)%Q by (unfold Qle; simpl; lia).
      assert (inject_Z z <= 7)%Q by (unfold Qle; simpl; lia).
      split; lra. }
    apply Q.max_lub; apply Q0; assumption.
Qed.

Section MoveKeys.

Context {R : Rules}.

Lemma BlackRook_key_other (b : Board R) (m : Move R) :
  is_checkmate (push b m) = false -> (BlackRook.move_key b m <= 105)%Q.
Proof.
  intros H. unfold BlackRook.move_key, BlackRook.evaluate_move.
  unfold bind, board_push, board_pop, the_board, ret. cbn [fst snd w_board w_ticks].
  rewrite H.
  pose proof (proj1 (center_distance_range (to_square m))) as Hcd.
  revert Hcd.
  generalize (Qmax (Qabs ((7 # 2) - inject_Z (square_file (to_square m))))
            (Qabs ((7 # 2) - inject_Z (square_rank (to_square m))))).
  intros cd Hcd.
  destruct (is_check (push b m)), (is_capture (push b m) m),
    (is_castling (push b m) m), (color_eqb (turn (push b m)) BLACK),
    (piece_at (push b m) (to_square m)) as [p|];
    try destruct (piece_type_eqb (piece_type p) KING); lra.
Qed.

Lemma BlackRook_key_mate (b : Board R) (m : Move R) :
  is_checkmate (push b m) = true -> 0 <= to_square m < 64 ->
  (10000 <= BlackRook.move_key b m)%Q.
Proof.
  intros H Hsq. unfold BlackRook.move_key, BlackRook.evaluate_move.
  unfold bind, board_push, board_pop, the_board, ret. cbn [fst snd w_board w_ticks].
  rewrite H.
  pose proof (proj2 (center_distance_range (to_square m)) Hsq) as Hcd.
  revert Hcd.
  generalize (Qmax (Qabs ((7 # 2) - inject_Z (square_file (to_square m))))
            (Qabs ((7 # 2) - inject_Z (square_rank (to_square m))))).
  intros cd Hcd.
  destruct (is_castling (push b m) m), (color_eqb (turn (push b m)) BLACK),
    (piece_at (push b m) (to_square m)) as [p|];
    try destruct (piece_type_eqb (piece_type p) KING); lra.
Qed.

Lemma WhiteRook_key_other (b : Board R) (m : Move R) :
  is_checkmate (push b m) = false -> (WhiteRook.move_key b m <= 60)%Q.
Proof.
  intros H. unfold WhiteRook.move_key, WhiteRook.evaluate_move.
  unfold bind, board_push, board_pop, the_board, ret. cbn [fst snd w_board w_ticks].
  rewrite H.
  pose proof (proj1 (center_distance_range (to_square m))) as Hcd.
  revert Hcd.
  generalize (Qmax (Qabs ((7 # 2) - inject_Z (square_file (to_square m))))
            (Qabs ((7 # 2) - inject_Z (square_rank (to_square m))))).
  intros cd Hcd.
  destruct (is_check (push b m)), (is_capture (push b m) m),
    (color_eqb (turn (push b m)) WHITE),
    (piece_at (push b m) (to_square m)) as [p|];
    try destruct (piece_type_eqb (piece_type p) KING); lra.
Qed.

Lemma WhiteRook_key_mate (b : Board R) (m : Move R) :
  is_checkmate (push b m) = true -> 0 <= to_square m < 64 ->
  (10000 <= WhiteRook.move_key b m)%Q.
Proof.
  intros H Hsq. unfold WhiteRook.move_key, WhiteRook.evaluate_move.
  unfold bind, board_push, board_pop, the_board, ret. cbn [fst snd w_board w_ticks].
  rewrite H.
  pose proof (proj2 (center_distance_range (to_square m)) Hsq) as Hcd.
  revert Hcd.
  generalize (Qmax (Qabs ((7 # 2) - inject_Z (square_file (to_square m))))
            (Qabs ((7 # 2) - inject_Z (square_rank (to_square m))))).
  intros cd Hcd.
  destruct (color_eqb (turn (push b m)) WHITE),
    (piece_at (push b m) (to_square m)) as [p|];
    try destruct (piece_type_eqb (piece_type p) KING); lra.
Qed.
End MoveKeys.

(** X17 (first program, [evaluate_move] lines 140-162 and the sort of
    [minimax], line 171).  A mating move gets a key of at least 10000
    and every other move a key of at most 105, so the sorted move list
    minimax walks through has the mating moves at one end: in front of
    every other move at a maximizing node, behind every other move at
    a minimizing node.  Whenever [m1] stands before [m2] in the list,
    at a maximizing node [m1] mates if [m2] does, and at a minimizing
    node [m2] mates if [m1] does. *)
Theorem first_program_sorts_mates_to_one_end (R : Rules)
    (Hpop : pop_restores R) (w : World R) (maximizing_player : bool)
    (l1 : list (Move R)) (m1 : Move R) (l2 : list (Move R)) (m2 : Move R)
    (l3 : list (Move R)) :
  0 <= to_square m1 < 64 -> 0 <= to_square m2 < 64 ->
  fst (Search.sorted_moves BlackRook.evaluate_move maximizing_player w)
  = l1 ++ m1 :: l2 ++ m2 :: l3 ->
  if maximizing_player
  then BlackRook.mates_at_once (w_board w) m2 = true ->
       BlackRook.mates_at_once (w_board w) m1 = true
  else BlackRook.mates_at_once (w_board w) m1 = true ->
       BlackRook.mates_at_once (w_board w) m2 = true.
Proof.
  intros H1 H2 E.
  rewrite (sorted_moves_pure _ BlackRook.move_key
             (BlackRook_probe_pure Hpop)) in E.
  cbn [fst] in E. unfold Search.ordered_moves in E.
  apply sort_keyed_in_order in E.
  unfold BlackRook.mates_at_once.
  destruct maximizing_player; intros Hm.
  - destruct (is_checkmate (push (w_board w) m1)) eqn:E1; [reflexivity|].
    pose proof (BlackRook_key_other _ _ E1).
    pose proof (BlackRook_key_mate _ _ Hm H2). lra.
  - destruct (is_checkmate (push (w_board w) m2)) eqn:E2; [reflexivity|].
    pose proof (BlackRook_key_other _ _ E2).
    pose proof (BlackRook_key_mate _ _ Hm H1). lra.
Qed.

Lemma first_program_sorts_mates_to_one_end_witness :
  BlackRook.mates_at_once (R:=KR.rules) Scenes.two_mates (KR.mkMv 57 1)
  = true.
Proof.
  apply (first_program_sorts_mates_to_one_end KR.rules KR_pop_restores
           (mkWorld (R:=KR.rules) Scenes.two_mates 0) true
           [] (KR.mkMv 57 1) [] (KR.mkMv 56 0)
           (skipn 2 (fst (Search.sorted_moves (R:=KR.rules)
                            BlackRook.evaluate_move true
                            (mkWorld (R:=KR.rules) Scenes.two_mates 0))))).
  - simpl; lia.
  - simpl; lia.
  - vm_compute. reflexivity.
  - vm_compute. reflexivity.
Defined.

(** X18 (third program, [evaluate_move] lines 787-811 and the sort of
    [minimax], line 758).  There a mating move gets a key of at least
    10000 and every other move a key of at most 60: the sorted list has
    the mating moves in front at a maximizing node and at the very end at
    a minimizing node. *)
Theorem third_program_sorts_mates_to_one_end (R : Rules)
    (Hpop : pop_restores R) (w : World R) (maximizing_player : bool)
    (l1 : list (Move R)) (m1 : Move R) (l2 : list (Move R)) (m2 : Move R)
    (l3 : list (Move R)) :
  0 <= to_square m1 < 64 -> 0 <= to_square m2 < 64 ->
  fst (Search.sorted_moves WhiteRook.evaluate_move maximizing_player w)
  = l1 ++ m1 :: l2 ++ m2 :: l3 ->
  if maximizing_player
  then is_checkmate (push (w_board w) m2) = true ->
       is_checkmate (push (w_board w) m1) = true
  else is_checkmate (push (w_board w) m1) = true ->
       is_checkmate (push (w_board w) m2) = true.
Proof.
  intros H1 H2 E.
  rewrite (sorted_moves_pure _ WhiteRook.move_key
             (WhiteRook_probe_pure Hpop)) in E.
  cbn [fst] in E. unfold Search.ordered_moves in E.
  apply sort_keyed_in_order in E.
  destruct maximizing_player; intros Hm.
  - destruct (is_checkmate (push (w_board w) m1)) eqn:E1; [reflexivity|].
    pose proof (WhiteRook_key_other _ _ E1).
    pose proof (WhiteRook_key_mate _ _ Hm H2). lra.
  - destruct (is_checkmate (push (w_board w) m2)) eqn:E2; [reflexivity|].
    pose proof (WhiteRook_key_other _ _ E2).
    pose proof (WhiteRook_key_mate _ _ Hm H1). lra.
Qed.

Lemma third_program_sorts_mates_to_one_end_witness :
  is_checkmate (r:=KR.rules)
    (push (r:=KR.rules) Scenes.two_mates (KR.mkMv 56 0)) = true.
Proof.
  apply (third_program_sorts_mates_to_one_end KR.rules KR_pop_restores
           (mkWorld (R:=KR.rules) Scenes.two_mates 0) false
           (firstn 24 (fst (Search.sorted_moves (R:=KR.rules)
                              WhiteRook.evaluate_move false
                              (mkWorld (R:=KR.rules) Scenes.two_mates 0))))
           (KR.mkMv 57 1) [] (KR.mkMv 56 0) []).
  - simpl; lia.
  - simpl; lia.
  - vm_compute. reflexivity.
  - vm_compute. reflexivity.
Defined.

(** ** A mate in one for the side that maximizes *)

Lemma KR_decided_is_over : decided_is_over KR.rules.
Proof.
  intros b. simpl. unfold KR.game_over, KR.checkmate, KR.stalemate.
  destruct (KR.in_check _ _), (KR.no_moves (KR.now b)); simpl;
    intros H; try reflexivity; discriminate.
Qed.

Lemma KR_push_passes_turn : push_passes_turn KR.rules.
Proof. intros b m. reflexivity. Qed.

Section WhiteRookMate.

Context {R : Rules}.

Abbreviation value_of d mx :=
  (fun c : Board R =>
     fst (Search.unpruned_minimax WhiteRook.evaluate_board
            WhiteRook.move_key d c mx)).

Lemma positions_within_self d (c : Board R) : In c (positions_within d c).
Proof. destruct d; left; reflexivity. Qed.

Lemma positions_within_child d (c c' : Board R) (m : Move R) :
  In m (legal_moves c) -> In c' (positions_within d (push c m)) ->
  In c' (positions_within (S d) c).
Proof.
  intros Hm Hc. cbn [positions_within]. right.
  apply List.in_flat_map. exists m. split; assumption.
Qed.

Lemma unpruned_max_loop_bounded (value : Board R -> Score) board moves B :
  (forall m, In m moves -> Sc.le (value (push board m)) B) ->
  forall best bm,
    Sc.le best B ->
    Sc.le (fst (Search.unpruned_max_loop value board moves best bm)) B.
Proof.
  induction moves as [|m rest IH]; intros Hall best bm Hb; simpl.
  - exact Hb.
  - destruct (Sc.gtb (value (push board m)) best).
    + apply IH; [intros; apply Hall; right; assumption|].
      apply Hall. left. reflexivity.
    + apply IH; [intros; apply Hall; right; assumption | exact Hb].
Qed.

Lemma unpruned_max_loop_holds (value : Board R -> Score) board moves :
  forall best bm,
    (forall m, In m moves -> Sc.le (value (push board m)) best) ->
    Search.unpruned_max_loop value board moves best bm = (best, bm).
Proof.
  induction moves as [|m rest IH]; intros best bm Hall; simpl.
  - reflexivity.
  - assert (E : Sc.gtb (value (push board m)) best = false).
    { pose proof (Hall m (or_introl eq_refl)) as H. revert H.
      generalize (value (push board m)). clear. score_solve. }
    rewrite E. apply IH. intros; apply Hall; right; assumption.
Qed.

Lemma WhiteRook_score_le (c : Board R) :
  kings_on_board c -> Sc.le (WhiteRook.evaluate_board c) (Fin MATE).
Proof.
  intros Hk. destruct (is_checkmate c) eqn:E.
  - unfold WhiteRook.evaluate_board. rewrite E.
    destruct (color_eqb (turn c) BLACK); reflexivity.
  - destruct (WhiteRook_score_bound c Hk E) as (z & -> & Hz).
    unfold Sc.le, Sc.leb, MATE. apply Z.leb_le. lia.
Qed.

Hypothesis Hlive : live_has_moves R.

Lemma WhiteRook_value_le d :
  forall (c : Board R) mx,
    (forall c', In c' (positions_within d c) -> kings_on_board c') ->
    Sc.le (value_of d mx c) (Fin MATE).
Proof.
  induction d as [|d IH]; intros c mx Hk.
  - simpl. apply WhiteRook_score_le, Hk, positions_within_self.
  - cbn [Search.unpruned_minimax].
    destruct (is_game_over c) eqn:Eo.
    + simpl. apply WhiteRook_score_le, Hk, positions_within_self.
    + assert (Hchild : forall m b',
                 In m (Search.ordered_moves WhiteRook.move_key c mx) ->
                 Sc.le (value_of d b' (push c m)) (Fin MATE)).
      { intros m b' Hm. apply IH. intros c' Hc'. apply Hk.
        apply (positions_within_child d c c' m); [|exact Hc'].
        apply (Permutation_in m (ordered_moves_perm WhiteRook.move_key c mx)), Hm. }
      destruct mx.
      * apply unpruned_max_loop_bounded; [|reflexivity].
        intros m Hm. apply Hchild, Hm.
      * destruct (Search.ordered_moves WhiteRook.move_key c false)
          as [|m rest] eqn:El.
        -- exfalso. apply (Hlive c Eo).
           apply Permutation_nil.
           rewrite <- (ordered_moves_perm WhiteRook.move_key c false), El.
           reflexivity.
        -- cbn [Search.unpruned_min_loop].
           pose proof (Hchild m true (or_introl eq_refl)) as Hv.
           cbv beta in Hv.
           set (v := fst (Search.unpruned_minimax WhiteRook.evaluate_board
                            WhiteRook.move_key d (push c m) true)) in *.
           assert (E : Sc.ltb v PosInf = true)
             by (clearbody v; clear - Hv; score_solve).
           rewrite E.
           pose proof (unpruned_min_loop_le
                         (fun b => fst (Search.unpruned_minimax
                                          WhiteRook.evaluate_board
                                          WhiteRook.move_key d b true))
                         c rest v (Some m)) as Hle.
           revert Hle Hv. clearbody v.
           generalize (fst (Search.unpruned_min_loop
                              (fun b => fst (Search.unpruned_minimax
                                          WhiteRook.evaluate_board
                                          WhiteRook.move_key d b true))
                              c rest v (Some m))).
           clear. score_solve.
Qed.

End WhiteRookMate.

Section WhiteRookMateSearch.

Context {R : Rules}.
Hypothesis Hpop : pop_restores R.
Hypothesis Hlive : live_has_moves R.
Hypothesis Hover : decided_is_over R.
Hypothesis Hturn : push_passes_turn R.

Lemma mate_is_over (c : Board R) :
  is_checkmate c = true -> is_game_over c = true.
Proof. intros H. apply Hover. rewrite H. reflexivity. Qed.

Lemma mate_value (d : nat) (b : Board R) (m : Move R) :
  turn b = WHITE -> is_checkmate (push b m) = true ->
  fst (Search.unpruned_minimax WhiteRook.evaluate_board WhiteRook.move_key
         d (push b m) false) = Fin MATE.
Proof.
  intros Ht Hm.
  assert (E : WhiteRook.evaluate_board (push b m) = Fin MATE).
  { unfold WhiteRook.evaluate_board. rewrite Hm, Hturn, Ht. reflexivity. }
  destruct d as [|d]; simpl; [exact E|].
  rewrite (mate_is_over _ Hm). exact E.
Qed.

Lemma first_sorted_move_mates (b : Board R) (m0 : Move R) rest (mate : Move R) :
  Search.ordered_moves WhiteRook.move_key b true = m0 :: rest ->
  In mate (m0 :: rest) ->
  is_checkmate (push b mate) = true -> 0 <= to_square mate < 64 ->
  is_checkmate (push b m0) = true.
Proof.
  intros El [<-|Hin] Hm Hsq; [exact Hm|].
  apply List.in_split in Hin. destruct Hin as (l2 & l3 & ->).
  unfold Search.ordered_moves in El.
  apply (sort_keyed_in_order _ true _ [] m0 l2 mate l3) in El.
  cbv iota in El.
  destruct (is_checkmate (push b m0)) eqn:E0; [reflexivity|].
  pose proof (WhiteRook_key_other _ _ E0).
  pose proof (WhiteRook_key_mate _ _ Hm Hsq). lra.
Qed.

Lemma third_search_mates (d : nat) (b : Board R) (mate : Move R) :
  turn b = WHITE -> is_game_over b = false ->
  In mate (legal_moves b) ->
  is_checkmate (push b mate) = true -> 0 <= to_square mate < 64 ->
  (forall c, In c (positions_within (S d) b) -> kings_on_board c) ->
  exists m,
    Search.unpruned_minimax WhiteRook.evaluate_board WhiteRook.move_key
      (S d) b true = (Fin MATE, Some m)
    /\ In m (legal_moves b) /\ is_checkmate (push b m) = true.
Proof.
  intros Ht Eo Hin Hm Hsq Hk.
  cbn [Search.unpruned_minimax]. rewrite Eo.
  pose proof (ordered_moves_perm WhiteRook.move_key b true) as Hp.
  destruct (Search.ordered_moves WhiteRook.move_key b true)
    as [|m0 rest] eqn:El.
  { exfalso. apply Permutation_nil in Hp.
    rewrite Hp in Hin. exact Hin. }
  assert (Hm0 : is_checkmate (push b m0) = true).
  { apply (first_sorted_move_mates b m0 rest mate El); try assumption.
    apply (Permutation_in mate (Permutation_sym Hp)), Hin. }
  exists m0. split; [|split; [|exact Hm0]].
  - cbn [Search.unpruned_max_loop]. rewrite (mate_value d b m0 Ht Hm0).
    cbn [Sc.gtb Sc.ltb Sc.leb negb].
    apply unpruned_max_loop_holds. intros m Hmr.
    apply (WhiteRook_value_le Hlive). intros c Hc. apply Hk.
    apply (positions_within_child d b c m); [|exact Hc].
    apply (Permutation_in m Hp). right. exact Hmr.
  - apply (Permutation_in m0 Hp). left. reflexivity.
Qed.

End WhiteRookMateSearch.

(** X20 (third program, [get_ai_move] lines 813-822 with [minimax],
    [evaluate_move] and [evaluate_board]).  With White to move, the game
    not over and a legal move that mates, [get_ai_move] called with any
    depth of 1 or more returns a legal move that mates at once: the sort
    puts the mating moves in front at the maximizing root, the first one
    scores 10000, and no later move scores more, so the strict [>] keeps
    it.  The engine is one whose [pop] undoes [push], where a move passes
    the turn, a decided position is over and a position in play has a
    legal move; the kings of every position the search visits stand on
    the board. *)
Theorem third_program_mates_with_white_to_move (R : Rules)
    (Hpop : pop_restores R) (Hlive : live_has_moves R)
    (Hover : decided_is_over R) (Hturn : push_passes_turn R)
    (n : nat) (w : World R) (mate : Move R) :
  let b := w_board w in
  turn b = WHITE -> is_game_over b = false ->
  In mate (legal_moves b) ->
  is_checkmate (push b mate) = true -> 0 <= to_square mate < 64 ->
  Forall kings_on_board (positions_within (S n) b) ->
  exists m,
    WhiteRook.get_ai_move (S n) w = (Some m, w)
    /\ In m (legal_moves b) /\ is_checkmate (push b m) = true.
Proof.
  intros b Ht Eo Hin Hm Hsq Hk.
  destruct (third_search_mates Hlive Hover Hturn n b mate Ht Eo Hin Hm Hsq)
    as (m & Es & Hl & Hc).
  { apply List.Forall_forall, Hk. }
  exists m. split; [|split; assumption].
  unfold WhiteRook.get_ai_move. rewrite (third_deepening_runs Hpop).
  fold b.
  assert (E : is_checkmate b || is_stalemate b = false).
  { destruct (is_checkmate b || is_stalemate b) eqn:E; [|reflexivity].
    apply Hover in E. congruence. }
  rewrite E, Ht. cbn [color_eqb Nat.add].
  rewrite alphabeta_full_window, Es. reflexivity.
Qed.

Lemma third_program_mates_with_white_to_move_witness :
  let w := mkWorld (R:=KR.rules) Scenes.rook_mates 0 in
  exists m,
    WhiteRook.get_ai_move 2 w = (Some m, w)
    /\ In m (legal_moves (r:=KR.rules) Scenes.rook_mates)
    /\ is_checkmate (r:=KR.rules) (push (r:=KR.rules) Scenes.rook_mates m)
       = true.
Proof.
  intros w.
  apply (third_program_mates_with_white_to_move KR.rules KR_pop_restores
           KR_live_has_moves KR_decided_is_over KR_push_passes_turn
           1 w (KR.mkMv 8 56)).
  - reflexivity.
  - vm_compute. reflexivity.
  - apply (proj1 (KR_legal_membership Scenes.rook_mates (KR.mkMv 8 56))).
    vm_compute. reflexivity.
  - vm_compute. reflexivity.
  - simpl. lia.
  - apply List.Forall_forall.
    assert (E : forallb (fun c : KR.Bd =>
                           forallb (fun col =>
                                      (0 <=? king (r:=KR.rules) c col)
                                      && (king (r:=KR.rules) c col <? 64))
                                   [WHITE; BLACK])
                        (positions_within (R:=KR.rules) 2 Scenes.rook_mates)
                = true)
      by (vm_compute; reflexivity).
    rewrite List.forallb_forall in E.
    intros c Hc col. specialize (E c Hc).
    rewrite List.forallb_forall in E.
    assert (Hcol : In col [WHITE; BLACK])
      by (destruct col; [left | right; left]; reflexivity).
    specialize (E col Hcol). lia.
Defined.

(** ** A mate in one in the first program *)

(** X19 (first program, [get_ai_move] lines 200-219).  When a legal move
    mates at once, [get_ai_move] returns the first such move of
    [board.legal_moves] without searching: the answer is the same for
    every depth, depth 0 included, and for every clock, the clock has been
    read once (for [start_time]) and the board is as it was. *)
Theorem first_program_mate_in_one_needs_no_search (R : Rules)
    (Hpop : pop_restores R) (w : World R) (mate : Move R) :
  let b := w_board w in
  In mate (legal_moves b) ->
  is_checkmate (push b mate) = true ->
  exists first rest m,
    legal_moves b = first ++ m :: rest
    /\ is_checkmate (push b m) = true
    /\ (forall m', In m' first -> is_checkmate (push b m') = false)
    /\ forall (clock : nat -> Q) (depth : nat),
         BlackRook.get_ai_move clock depth w
         = (Some m, mkWorld b (S (w_ticks w))).
Proof.
  intros b Hin Hmate.
  assert (Hscan : forall l, In mate l ->
            exists first rest m,
              l = first ++ m :: rest
              /\ is_checkmate (push b m) = true
              /\ (forall m', In m' first -> is_checkmate (push b m') = false)
              /\ List.find (BlackRook.mates_at_once b) l = Some m).
  { induction l as [|x l IH]; intros Hl; [destruct Hl|].
    cbn [List.find]. unfold BlackRook.mates_at_once at 1.
    destruct (is_checkmate (push b x)) eqn:Ex.
    - exists [], l, x. repeat apply conj; try reflexivity; [exact Ex|].
      intros m' [].
    - destruct Hl as [->|Hl]; [congruence|].
      destruct (IH Hl) as (first & rest & m & -> & Hm & Hfirst & Hfind).
      exists (x :: first), rest, m.
      repeat apply conj; try reflexivity; [exact Hm | | exact Hfind].
      intros m' [<-|Hm']; [exact Ex | apply Hfirst, Hm']. }
  destruct (Hscan (legal_moves b) Hin)
    as (first & rest & m & El & Hm & Hfirst & Hfind).
  exists first, rest, m. repeat apply conj; try assumption.
  intros clock depth. rewrite (get_ai_move_run Hpop). cbv zeta.
  fold b. rewrite Hfind. reflexivity.
Qed.

Lemma first_program_mate_in_one_needs_no_search_witness :
  let w := mkWorld (R:=KR.rules) Scenes.two_rooks 0 in
  exists first rest m,
    legal_moves (r:=KR.rules) Scenes.two_rooks = first ++ m :: rest
    /\ is_checkmate (r:=KR.rules) (push (r:=KR.rules) Scenes.two_rooks m)
       = true
    /\ (forall m', In m' first ->
          is_checkmate (r:=KR.rules) (push (r:=KR.rules) Scenes.two_rooks m')
          = false)
    /\ forall (clock : nat -> Q) (depth : nat),
         BlackRook.get_ai_move clock depth w
         = (Some m, mkWorld (R:=KR.rules) Scenes.two_rooks 1).
Proof.
  intros w.
  apply (first_program_mate_in_one_needs_no_search KR.rules KR_pop_restores
           w (KR.mkMv 57 1)).
  - apply (proj1 (KR_legal_membership Scenes.two_rooks (KR.mkMv 57 1))).
    vm_compute. reflexivity.
  - vm_compute. reflexivity.
Defined.

(** ** C3: a mate in one, as the choosers take it *)

Section MinLoop.

Context {R : Rules}.



End MinLoop.

Section ThirdDepthOne.

Context {R : Rules}.
Hypothesis Hturn : push_passes_turn R.


End ThirdDepthOne.


